(** * Grid path planning: depth-first, breadth-first and A* search

    A shallow embedding of [src/graph_search.py] and a verification of its
    search functions.  The three Python functions mutate a graph object
    ([graph.parent], [graph.visited_cells]) and run [while] loops over a
    frontier; here every loop is a step function on an explicit state, and a
    search is the iteration of its step function under a step budget. *)

From stdpp Require Import gmap list.
From Stdlib Require Import ZArith Lia.

Open Scope Z_scope.

(** ** Cells and the graph object *)

(** [Cell(i, j)]: a grid coordinate. *)
Record Cell : Type := mkCell { cell_i : Z; cell_j : Z }.

#[global] Instance Cell_eq_dec : EqDecision Cell.
Proof. solve_decision. Defined.

(** The dictionary key [(c.i, c.j)] of a cell. *)
Definition key_of (c : Cell) : Z * Z := (cell_i c, cell_j c).

(** The part of the graph object the searches use: the method
    [find_neighbors(i, j)], the dictionary [parent] (its values are a [Cell]
    or [None]) and the list [visited_cells]. *)
Record Graph : Type := mkGraph {
  find_neighbors : Z -> Z -> list Cell;
  parent : gmap (Z * Z) (option Cell);
  visited_cells : list Cell
}.

(** [graph.parent[k] = v]. *)
Definition set_parent (k : Z * Z) (v : option Cell) (graph : Graph) : Graph :=
  mkGraph (find_neighbors graph) (<[k := v]> (parent graph)) (visited_cells graph).

(** [graph.visited_cells.append(Cell(i, j))]. *)
Definition log_visited (c : Cell) (graph : Graph) : Graph :=
  mkGraph (find_neighbors graph) (parent graph)
          (visited_cells graph ++ [mkCell (cell_i c) (cell_j c)]).

(** Modelled from the spec: [init_graph] belongs to the graph class, which is
    not among the sources.  The spec's [reset()] "clears all per-search state
    (parent links, visited log)"; the neighbour relation is untouched. *)
Definition init_graph (graph : Graph) : Graph :=
  mkGraph (find_neighbors graph) ∅ [].

(** What a call can do: return a value, fail a dictionary lookup, or still be
    running when the step budget is spent. *)
Inductive outcome (A : Type) : Type :=
| Returned (a : A)
| Raised
| OutOfFuel.
Arguments Returned {A} a.
Arguments Raised {A}.
Arguments OutOfFuel {A}.

(** Modelled from the spec: [trace_path] lives in [utils], which is not among
    the sources.  The spec's Path Reconstructor "walks backward via
    [grid.parent] from the goal cell until reaching a cell whose parent is
    absent (the start), prepending each cell", and it is undefined on a cell
    with no parent entry. *)
Fixpoint trace_path_from (fuel : nat) (cell : Cell) (graph : Graph)
    (path : list Cell) : outcome (list Cell) :=
  match fuel with
  | O => OutOfFuel
  | S fuel' =>
    match parent graph !! key_of cell with
    | None => Raised
    | Some None => Returned (mkCell (cell_i cell) (cell_j cell) :: path)
    | Some (Some p) =>
      trace_path_from fuel' p graph (mkCell (cell_i cell) (cell_j cell) :: path)
    end
  end.

Definition trace_path (fuel : nat) (cell : Cell) (graph : Graph) : outcome (list Cell) :=
  trace_path_from fuel cell graph [].

(** ** Loops as state machines *)

Section Machine.
Context {St Ex : Type}.
Variable step : St -> St + Ex.

(** [run fuel s]: iterate [step] from [s] until it exits. *)
Fixpoint run (fuel : nat) (s : St) : option Ex :=
  match fuel with
  | O => None
  | S fuel' =>
    match step s with
    | inl s' => run fuel' s'
    | inr e => Some e
    end
  end.

(** The state after [n] steps, or the last state when the run exits before. *)
Fixpoint state_after (n : nat) (s : St) : St :=
  match n with
  | O => s
  | S n' =>
    match step s with
    | inl s' => state_after n' s'
    | inr _ => s
    end
  end.

(** The states a run from [s0] passes through. *)
Inductive reachable (s0 : St) : St -> Prop :=
| reachable_init : reachable s0 s0
| reachable_step s s' : reachable s0 s -> step s = inl s' -> reachable s0 s'.

End Machine.

(** How a search loop ends: the goal was matched at [current] (the search then
    calls [trace_path(current, graph)]), or the frontier ran empty (it
    returns [[]]). *)
Inductive exit : Type :=
| GoalFound (current : Cell)
| Exhausted.

(** The [return] statement of the three functions, on the graph as the loop
    left it. *)
Definition finish (fuel : nat) (e : Graph * exit) : outcome (Graph * list Cell) :=
  match e with
  | (graph, Exhausted) => Returned (graph, [])
  | (graph, GoalFound current) =>
    match trace_path fuel current graph with
    | Returned path => Returned (graph, path)
    | Raised => Raised
    | OutOfFuel => OutOfFuel
    end
  end.

(** The path a call returned, if it returned. *)
Definition returned_path (o : outcome (Graph * list Cell)) : option (list Cell) :=
  match o with
  | Returned (_, path) => Some path
  | _ => None
  end.

(** [ci == goal.i and cj == goal.j]. *)
Definition at_goal (current goal : Cell) : bool :=
  bool_decide (cell_i current = cell_i goal) && bool_decide (cell_j current = cell_j goal).
Arguments at_goal : simpl never.

(** ** Depth-first and breadth-first search

    The two functions are the same text but for the frontier: a list used as a
    stack ([append]/[pop]) in [depth_first_search], a deque used as a queue
    ([append]/[popleft]) in [breadth_first_search].  The frontier is kept as a
    list whose head is the next cell to be taken out, so only [append]
    differs. *)
Inductive discipline : Type := LIFO | FIFO.

Definition frontier_append (d : discipline) (x : Cell) (frontier : list Cell) : list Cell :=
  match d with
  | LIFO => x :: frontier
  | FIFO => frontier ++ [x]
  end.

(** The state of a run: the graph, the frontier, the [visited] set and, while
    a [for nbr in graph.find_neighbors(ci, cj)] loop is running, the current
    cell with the neighbours not yet looked at. *)
Record search_state : Type := mkSearch {
  s_graph : Graph;
  s_frontier : list Cell;
  s_visited : gset (Z * Z);
  s_loop : option (Cell * list Cell)
}.

(** The statements before the [while] loop (after [graph.init_graph()]). *)
Definition search_init (graph : Graph) (start : Cell) : search_state :=
  mkSearch (log_visited start (set_parent (key_of start) None graph))
           [start] {[ key_of start ]} None.

(** One step: one pass of the [for] body, the end of a [for] loop, or the
    [while] test with the pop and the goal check. *)
Definition search_step (d : discipline) (goal : Cell) (s : search_state)
    : search_state + Graph * exit :=
  match s_loop s with
  | Some (current, nbr :: rest) =>
    let key := key_of nbr in
    if decide (key ∈ s_visited s) then
      inl (mkSearch (s_graph s) (s_frontier s) (s_visited s) (Some (current, rest)))
    else
      inl (mkSearch (log_visited nbr (set_parent key (Some current) (s_graph s)))
                    (frontier_append d nbr (s_frontier s))
                    ({[ key ]} ∪ s_visited s)
                    (Some (current, rest)))
  | Some (current, []) =>
    inl (mkSearch (s_graph s) (s_frontier s) (s_visited s) None)
  | None =>
    match s_frontier s with
    | [] => inr (s_graph s, Exhausted)
    | current :: frontier =>
      if at_goal current goal then inr (s_graph s, GoalFound current)
      else inl (mkSearch (s_graph s) frontier (s_visited s)
                  (Some (current,
                         find_neighbors (s_graph s) (cell_i current) (cell_j current))))
    end
  end.

Definition search (d : discipline) (fuel : nat) (graph : Graph) (start goal : Cell)
    : outcome (Graph * list Cell) :=
  match run (search_step d goal) fuel (search_init (init_graph graph) start) with
  | Some e => finish fuel e
  | None => OutOfFuel
  end.

Definition depth_first_search := search LIFO.
Definition breadth_first_search := search FIFO.

(** ** A* search *)

(** [heuristic(a, b)]: the Manhattan distance. *)
Definition heuristic (a b : Cell) : Z :=
  Z.abs (cell_i a - cell_i b) + Z.abs (cell_j a - cell_j b).

(** A heap entry [(f_cost, g_cost, counter, Cell)].  The costs are Python
    floats that hold whole numbers ([0.0], [g + 1.0], plus an integer
    heuristic).  In [astar_step] they are the exact integers; the loop with
    the arithmetic of the floats is [astar_step_float] further down, and the
    two agree as long as the costs stay below [2 ^ 53]
    ([astar_float_exact]). *)
Record entry : Type := mkEntry {
  e_f : Z;
  e_g : Z;
  e_counter : Z;
  e_cell : Cell
}.

(** Python's order on the tuples, up to the counter: [f] first, then [g], then
    the counter.  (Two entries never agree on all three, see
    [a_star_counters_distinct], so the cells are never compared.) *)
Definition entry_ltb (a b : entry) : bool :=
  (e_f a <? e_f b)
  || ((e_f a =? e_f b)
      && ((e_g a <? e_g b)
          || ((e_g a =? e_g b) && (e_counter a <? e_counter b)))).

(** [heapq] is Python's library; it is modelled by its contract on the list of
    the entries in the heap: [heappush] adds an entry, [heappop] takes out the
    least one. *)
Definition heappush (heap : list entry) (e : entry) : list entry := heap ++ [e].

Fixpoint extract_min (e : entry) (heap : list entry) : entry * list entry :=
  match heap with
  | [] => (e, [])
  | x :: heap' =>
    if entry_ltb x e
    then let '(m, r) := extract_min x heap' in (m, e :: r)
    else let '(m, r) := extract_min e heap' in (m, x :: r)
  end.

Definition heappop (heap : list entry) : option (entry * list entry) :=
  match heap with
  | [] => None
  | e :: heap' => Some (extract_min e heap')
  end.

Record astar_state : Type := mkAstar {
  a_graph : Graph;
  open_heap : list entry;
  g_cost : gmap (Z * Z) Z;
  counter : Z;
  closed : gset (Z * Z);
  a_loop : option (Z * Cell * list Cell)
}.

(** The statements before the [while] loop (after [graph.init_graph()]). *)
Definition astar_init (graph : Graph) (start goal : Cell) : astar_state :=
  let start_key := key_of start in
  let f_start := 0 + heuristic start goal in
  mkAstar (set_parent start_key None graph)
          (heappush [] (mkEntry f_start 0 0 start))
          {[ start_key := 0 ]}
          1
          ∅
          None.

(** One step: one pass of the [for] body, the end of a [for] loop, or the
    [while] test with the pop, the [closed] test and the goal check.  The
    [for] loop carries the [g] of the popped entry. *)
Definition astar_step (goal : Cell) (s : astar_state) : astar_state + Graph * exit :=
  match a_loop s with
  | Some (g, current, nbr :: rest) =>
    let nk := key_of nbr in
    if decide (nk ∈ closed s) then
      inl (mkAstar (a_graph s) (open_heap s) (g_cost s) (counter s) (closed s)
                   (Some (g, current, rest)))
    else
      let tentative_g := g + 1 in
      if match g_cost s !! nk with
         | None => true
         | Some old => tentative_g <? old
         end
      then
        let f_nbr := tentative_g + heuristic nbr goal in
        inl (mkAstar (set_parent nk (Some current) (a_graph s))
                     (heappush (open_heap s) (mkEntry f_nbr tentative_g (counter s) nbr))
                     (<[nk := tentative_g]> (g_cost s))
                     (counter s + 1)
                     (closed s)
                     (Some (g, current, rest)))
      else
        inl (mkAstar (a_graph s) (open_heap s) (g_cost s) (counter s) (closed s)
                     (Some (g, current, rest)))
  | Some (_, _, []) =>
    inl (mkAstar (a_graph s) (open_heap s) (g_cost s) (counter s) (closed s) None)
  | None =>
    match heappop (open_heap s) with
    | None => inr (a_graph s, Exhausted)
    | Some (e, heap) =>
      let current := e_cell e in
      let key := key_of current in
      if decide (key ∈ closed s) then
        inl (mkAstar (a_graph s) heap (g_cost s) (counter s) (closed s) None)
      else
        let graph := log_visited current (a_graph s) in
        if at_goal current goal then inr (graph, GoalFound current)
        else inl (mkAstar graph heap (g_cost s) (counter s) ({[ key ]} ∪ closed s)
                    (Some (e_g e, current,
                           find_neighbors graph (cell_i current) (cell_j current))))
    end
  end.

Definition a_star_search (fuel : nat) (graph : Graph) (start goal : Cell)
    : outcome (Graph * list Cell) :=
  match run (astar_step goal) fuel (astar_init (init_graph graph) start goal) with
  | Some e => finish fuel e
  | None => OutOfFuel
  end.

(** ** A* search with the costs as floats

    In [a_star_search] the costs are Python floats: [g_cost[start_key] = 0.0],
    [tentative_g = g + 1.0], and [f] is the sum of a float and the integer
    that [heuristic] returns, for which Python first converts the integer to
    a float.  [astar_step] above computes these sums exactly.  The loop below
    is the same loop with the arithmetic of the floats: the conversion of an
    integer too large raises [OverflowError], and a sum is rounded to the 53
    bits of a float. *)

(** A float of this loop holds a whole number that is not negative, or
    [+inf].  A finite float is represented by the number it holds and [+inf]
    by [float_inf], which is above every finite float, so that [<] and [==]
    on these floats are [<] and [=] on the integers. *)
Definition float_inf : Z := 2 ^ 1024.

(** The nearest whole number with 53 significant bits, ties to the even
    one. *)
Definition round53 (z : Z) : Z :=
  let a := Z.abs z in
  let e := Z.log2 a - 52 in
  if e <=? 0 then z
  else
    let q := a / 2 ^ e in
    let r := a mod 2 ^ e in
    let half := 2 ^ (e - 1) in
    let q' := if r <? half then q
              else if half <? r then q + 1
              else if Z.even q then q else q + 1 in
    Z.sgn z * (q' * 2 ^ e).

(** The conversion of a Python [int] to a float, as [float + int] does it
    first: correctly rounded, or [OverflowError] ([None]) when the rounded
    value is out of the range of the floats. *)
Definition float_of_int (z : Z) : option Z :=
  let x := round53 z in
  if Z.abs x <? float_inf then Some x else None.

(** [x + y] on floats that are not negative: the exact sum, rounded; past the
    largest float it is [+inf]. *)
Definition float_add (x y : Z) : Z :=
  let s := round53 (x + y) in
  if s <? float_inf then s else float_inf.

(** How a pass of the loop with float costs ends: as the loop with exact
    costs does, or with the [OverflowError] of line 169. *)
Inductive float_exit : Type :=
| Done (e : Graph * exit)
| Overflow.

(** What the call does: what the loop and [trace_path] do, or
    [OverflowError]. *)
Inductive float_outcome (A : Type) : Type :=
| Completed (o : outcome A)
| OverflowError.
Arguments Completed {A} o.
Arguments OverflowError {A}.

(** The statements before the [while] loop; [f_start = g_cost[start_key] +
    heuristic(start, goal)] converts the heuristic. *)
Definition astar_init_float (graph : Graph) (start goal : Cell) : option astar_state :=
  let start_key := key_of start in
  match float_of_int (heuristic start goal) with
  | None => None
  | Some h =>
    let f_start := float_add 0 h in
    Some (mkAstar (set_parent start_key None graph)
                  (heappush [] (mkEntry f_start 0 0 start))
                  {[ start_key := 0 ]}
                  1
                  ∅
                  None)
  end.

(** One step of the loop, as [astar_step], with [tentative_g = g + 1.0] and
    [f_nbr = tentative_g + heuristic(nbr, goal)] computed on floats. *)
Definition astar_step_float (goal : Cell) (s : astar_state) : astar_state + float_exit :=
  match a_loop s with
  | Some (g, current, nbr :: rest) =>
    let nk := key_of nbr in
    if decide (nk ∈ closed s) then
      inl (mkAstar (a_graph s) (open_heap s) (g_cost s) (counter s) (closed s)
                   (Some (g, current, rest)))
    else
      let tentative_g := float_add g 1 in
      if match g_cost s !! nk with
         | None => true
         | Some old => tentative_g <? old
         end
      then
        match float_of_int (heuristic nbr goal) with
        | None => inr Overflow
        | Some h =>
          let f_nbr := float_add tentative_g h in
          inl (mkAstar (set_parent nk (Some current) (a_graph s))
                       (heappush (open_heap s) (mkEntry f_nbr tentative_g (counter s) nbr))
                       (<[nk := tentative_g]> (g_cost s))
                       (counter s + 1)
                       (closed s)
                       (Some (g, current, rest)))
        end
      else
        inl (mkAstar (a_graph s) (open_heap s) (g_cost s) (counter s) (closed s)
                     (Some (g, current, rest)))
  | Some (_, _, []) =>
    inl (mkAstar (a_graph s) (open_heap s) (g_cost s) (counter s) (closed s) None)
  | None =>
    match heappop (open_heap s) with
    | None => inr (Done (a_graph s, Exhausted))
    | Some (e, heap) =>
      let current := e_cell e in
      let key := key_of current in
      if decide (key ∈ closed s) then
        inl (mkAstar (a_graph s) heap (g_cost s) (counter s) (closed s) None)
      else
        let graph := log_visited current (a_graph s) in
        if at_goal current goal then inr (Done (graph, GoalFound current))
        else inl (mkAstar graph heap (g_cost s) (counter s) ({[ key ]} ∪ closed s)
                    (Some (e_g e, current,
                           find_neighbors graph (cell_i current) (cell_j current))))
    end
  end.

(** [a_star_search(graph, start, goal)] with its float costs. *)
Definition a_star_search_float (fuel : nat) (graph : Graph) (start goal : Cell)
    : float_outcome (Graph * list Cell) :=
  match astar_init_float (init_graph graph) start goal with
  | None => OverflowError
  | Some s0 =>
    match run (astar_step_float goal) fuel s0 with
    | Some (Done e) => Completed (finish fuel e)
    | Some Overflow => OverflowError
    | None => Completed OutOfFuel
    end
  end.

(** ** Example grids *)

(** A [height] x [width] grid without the cells listed in [walls]; the
    neighbours of a cell are the free in-bounds cells at the given offsets. *)
Definition grid_neighbors (offsets : list (Z * Z)) (height width : Z)
    (walls : list (Z * Z)) (ci cj : Z) : list Cell :=
  omap (fun o : Z * Z =>
          let ni := ci + o.1 in
          let nj := cj + o.2 in
          if bool_decide (0 <= ni < height /\ 0 <= nj < width /\ (ni, nj) ∉ walls)
          then Some (mkCell ni nj) else None)
       offsets.

Definition four_offsets : list (Z * Z) := [(-1, 0); (1, 0); (0, -1); (0, 1)].
Definition eight_offsets : list (Z * Z) :=
  [(-1, 0); (1, 0); (0, -1); (0, 1); (-1, -1); (-1, 1); (1, -1); (1, 1)].

Definition grid_graph (offsets : list (Z * Z)) (height width : Z)
    (walls : list (Z * Z)) : Graph :=
  mkGraph (grid_neighbors offsets height width walls) ∅ [].

(** All the coordinates of a [height] x [width] grid. *)
Definition grid_cells (height width : nat) : list (Z * Z) :=
  c ← seq 0 height; d ← seq 0 width; [(Z.of_nat c, Z.of_nat d)].

(** The open 3 x 3 grid. *)
Definition open3 : Graph := grid_graph four_offsets 3 3 [].

(** A 3 x 3 grid cut in two by a wall in the middle column. *)
Definition walled3 : Graph := grid_graph four_offsets 3 3 [(0, 1); (1, 1); (2, 1)].

(** An 8-connected 3 x 4 grid with a wall at (1, 1). *)
Definition diagonal34 : Graph := grid_graph eight_offsets 3 4 [(1, 1)].

(** A 4-connected 3 x 5 grid with walls at (0, 1) and (1, 3). *)
Definition walls35 : Graph := grid_graph four_offsets 3 5 [(0, 1); (1, 3)].

(** ** Paths in the graph and chains of parent links *)

Definition cell_of (k : Z * Z) : Cell := mkCell k.1 k.2.

(** [b] is one of the neighbours [find_neighbors] lists for [a]. *)
Definition edge (graph : Graph) (a b : Cell) : Prop :=
  b ∈ find_neighbors graph (cell_i a) (cell_j a).

(** [walk graph a p b]: the cells [a :: p] go from [a] to [b] along edges. *)
Fixpoint walk (graph : Graph) (a : Cell) (p : list Cell) (b : Cell) : Prop :=
  match p with
  | [] => a = b
  | c :: p' => edge graph a c /\ walk graph c p' b
  end.

(** A path from [start] to [goal], both included, as the searches return it. *)
Definition path_between (graph : Graph) (start goal : Cell) (path : list Cell) : Prop :=
  match path with
  | [] => False
  | c :: p => c = start /\ walk graph start p goal
  end.

Definition reachable_cell (graph : Graph) (start goal : Cell) : Prop :=
  exists path, path_between graph start goal path.

(** The number of edges of a path. *)
Definition edge_count (path : list Cell) : nat := Nat.pred (length path).

(** [ancestor pm c n a]: following [n] parent links from [c] leads to [a]. *)
Inductive ancestor (pm : gmap (Z * Z) (option Cell)) : Cell -> nat -> Cell -> Prop :=
| ancestor_self c : ancestor pm c 0 c
| ancestor_up c p n a :
    pm !! key_of c = Some (Some p) -> ancestor pm p n a -> ancestor pm c (S n) a.

(** The parent map is a forest rooted at [start]: [start] has the entry
    [None], every cell with an entry leads to [start], and no chain of parent
    links comes back to where it began. *)
Definition forest_rooted_at (start : Cell) (pm : gmap (Z * Z) (option Cell)) : Prop :=
  pm !! key_of start = Some None
  /\ (forall c, is_Some (pm !! key_of c) -> exists n, ancestor pm c n start)
  /\ (forall c n, ancestor pm c (S n) c -> False).

(** A finite grid: every neighbour of a cell of [cells] is a cell of [cells]. *)
Definition grid_closed (graph : Graph) (cells : list (Z * Z)) : Prop :=
  Forall (fun k : Z * Z =>
            Forall (fun n => key_of n ∈ cells) (find_neighbors graph k.1 k.2))
         cells.

(** Steps of the grid are unit steps: a neighbour is at Manhattan distance at
    most one (a 4-connected grid). *)
Definition unit_steps (graph : Graph) (cells : list (Z * Z)) : Prop :=
  Forall (fun k : Z * Z =>
            Forall (fun n => heuristic (cell_of k) n <= 1) (find_neighbors graph k.1 k.2))
         cells.

#[global] Instance grid_closed_dec (graph : Graph) (cells : list (Z * Z)) :
  Decision (grid_closed graph cells).
Proof. unfold grid_closed. apply _. Defined.

#[global] Instance unit_steps_dec (graph : Graph) (cells : list (Z * Z)) :
  Decision (unit_steps graph cells).
Proof. unfold unit_steps. apply _. Defined.

#[global] Instance edge_dec (graph : Graph) (a b : Cell) : Decision (edge graph a b).
Proof. unfold edge. apply _. Defined.

#[global] Instance walk_dec (graph : Graph) (a : Cell) (p : list Cell) (b : Cell) :
  Decision (walk graph a p b).
Proof. revert a. induction p as [|c p IH]; simpl; intros a; apply _. Defined.

#[global] Instance path_between_dec (graph : Graph) (a b : Cell) (p : list Cell) :
  Decision (path_between graph a b p).
Proof. destruct p as [|c p]; simpl; apply _. Defined.

(** ** Invariants and measures used in the proofs *)

(** What holds of every state of a run on [graph0] from [start], whatever the
    frontier discipline. *)
Record search_inv (graph0 : Graph) (start : Cell) (s : search_state) : Prop := {
  si_nbrs : find_neighbors (s_graph s) = find_neighbors graph0;
  si_dom : forall k, k ∈ s_visited s <-> is_Some (parent (s_graph s) !! k);
  si_start : parent (s_graph s) !! key_of start = Some None;
  si_root : forall c, is_Some (parent (s_graph s) !! key_of c) ->
            exists n, ancestor (parent (s_graph s)) c n start;
  si_edge : forall c p, parent (s_graph s) !! key_of c = Some (Some p) -> edge graph0 p c;
  si_frontier : forall c, c ∈ s_frontier s -> key_of c ∈ s_visited s;
  si_current : forall cur rest, s_loop s = Some (cur, rest) ->
               key_of cur ∈ s_visited s /\ forall n, n ∈ rest -> edge graph0 cur n;
  si_log : forall k, k ∈ s_visited s <-> k ∈ key_of <$> visited_cells (s_graph s)
}.

(** The cells of [cells] not yet in [visited], counted with repetition. *)
Definition unvisited (cells : list (Z * Z)) (visited : gset (Z * Z)) : nat :=
  length (filter (fun k => k ∉ visited) cells).

Definition loop_size {A : Type} (loop : option (A * list Cell)) : nat :=
  match loop with
  | None => 0
  | Some (_, rest) => S (length rest)
  end.

Definition search_bounded (graph0 : Graph) (start : Cell) (cells : list (Z * Z))
    (s : search_state) : Prop :=
  search_inv graph0 start s /\ forall k, k ∈ s_visited s -> k ∈ cells.

(** [entry_ltb] as a proposition on the three numbers it compares. *)
Definition entry_lt (a b : entry) : Prop :=
  e_f a < e_f b
  \/ (e_f a = e_f b
      /\ (e_g a < e_g b \/ (e_g a = e_g b /\ e_counter a < e_counter b))).

(** What holds of every state of a run of A* on [graph0] from [start] to
    [goal], on any graph. *)
Record astar_inv (graph0 : Graph) (start goal : Cell) (s : astar_state) : Prop := {
  ai_nbrs : find_neighbors (a_graph s) = find_neighbors graph0;
  ai_dom : forall k, is_Some (g_cost s !! k) <-> is_Some (parent (a_graph s) !! k);
  ai_start : parent (a_graph s) !! key_of start = Some None
             /\ g_cost s !! key_of start = Some 0;
  ai_phase : key_of start ∈ closed s
             \/ (open_heap s = [mkEntry (0 + heuristic start goal) 0 0 start]
                 /\ a_loop s = None);
  ai_heap : forall e, e ∈ open_heap s ->
            e_f e = e_g e + heuristic (e_cell e) goal
            /\ (exists g0, g_cost s !! key_of (e_cell e) = Some g0 /\ g0 <= e_g e)
            /\ e_counter e < counter s;
  ai_counters : NoDup (e_counter <$> open_heap s);
  ai_open : forall k gk, g_cost s !! k = Some gk -> k ∉ closed s ->
            exists e, e ∈ open_heap s /\ key_of (e_cell e) = k /\ e_g e = gk;
  ai_closed : forall k, k ∈ closed s -> is_Some (g_cost s !! k);
  ai_link : forall c p, parent (a_graph s) !! key_of c = Some (Some p) ->
            key_of p ∈ closed s /\ edge graph0 p c
            /\ exists gp, g_cost s !! key_of p = Some gp
                          /\ g_cost s !! key_of c = Some (gp + 1);
  ai_loop : forall g cur rest, a_loop s = Some (g, cur, rest) ->
            key_of cur ∈ closed s /\ g_cost s !! key_of cur = Some g
            /\ forall n, n ∈ rest -> edge graph0 cur n;
  ai_root : forall c, is_Some (parent (a_graph s) !! key_of c) ->
            exists n, ancestor (parent (a_graph s)) c n start;
  ai_log : forall k, k ∈ closed s <-> k ∈ key_of <$> visited_cells (a_graph s)
}.

Definition astar_bounded (graph0 : Graph) (start goal : Cell) (cells : list (Z * Z))
    (s : astar_state) : Prop :=
  astar_inv graph0 start goal s /\ forall k, is_Some (g_cost s !! k) -> k ∈ cells.

(** [reach_in graph start n c]: some walk of [n] edges leads from [start] to
    [c]. *)
Inductive reach_in (graph : Graph) (start : Cell) : nat -> Cell -> Prop :=
| reach_here : reach_in graph start 0 start
| reach_next n a b :
    reach_in graph start n a -> edge graph a b -> reach_in graph start (S n) b.

(** A cell is pending while it waits in the frontier or is the cell whose
    neighbours are being looked at. *)
Definition pending (s : search_state) (c : Cell) : Prop :=
  c ∈ s_frontier s \/ exists rest, s_loop s = Some (c, rest).

(** The level structure of a breadth-first run: the queue holds cells of
    level [base] followed by cells of level [base + 1]; [lvl] is the number
    of parent links to the start. *)
Record bfs_inv (graph0 : Graph) (start goal : Cell) (s : search_state)
    (lvl : Z * Z -> nat) (base : nat) (q1 q2 : list Cell) : Prop := {
  bi_start : lvl (key_of start) = 0%nat;
  bi_link : forall c p, parent (s_graph s) !! key_of c = Some (Some p) ->
            key_of p ∈ s_visited s /\ lvl (key_of c) = S (lvl (key_of p));
  bi_queue : s_frontier s = q1 ++ q2;
  bi_q1 : forall c, c ∈ q1 -> lvl (key_of c) = base;
  bi_q2 : forall c, c ∈ q2 -> lvl (key_of c) = S base;
  bi_loop : forall cur rest, s_loop s = Some (cur, rest) ->
            lvl (key_of cur) = base /\ cur <> goal
            /\ forall n, edge graph0 cur n -> n ∈ rest \/ key_of n ∈ s_visited s;
  bi_bound : forall k, k ∈ s_visited s -> (lvl k <= S base)%nat;
  bi_done : forall c, key_of c ∈ s_visited s -> ~ pending s c ->
            c <> goal
            /\ forall n, edge graph0 c n ->
                 key_of n ∈ s_visited s /\ (lvl (key_of n) <= S (lvl (key_of c)))%nat
}.

Definition bfs_levels (graph0 : Graph) (start goal : Cell) (s : search_state) : Prop :=
  search_inv graph0 start s
  /\ exists lvl base q1 q2, bfs_inv graph0 start goal s lvl base q1 q2.

(** What holds of every state of a run of A* when the heuristic is
    consistent: closed cells carry their true distance, they were closed in
    the order of their [f], and all their neighbours have a cost. *)
Record astar_opt (graph0 : Graph) (start goal : Cell) (s : astar_state) : Prop := {
  ao_goal : key_of goal ∉ closed s;
  ao_heap : forall k gk e, k ∈ closed s -> g_cost s !! k = Some gk -> e ∈ open_heap s ->
            gk + heuristic (cell_of k) goal <= e_f e;
  ao_loop : forall g cur rest, a_loop s = Some (g, cur, rest) ->
            (forall k gk, k ∈ closed s -> g_cost s !! k = Some gk ->
               gk + heuristic (cell_of k) goal <= g + heuristic cur goal)
            /\ (forall e, e ∈ open_heap s -> g + heuristic cur goal <= e_f e)
            /\ (forall n, edge graph0 cur n ->
                  n ∈ rest \/ exists gn, g_cost s !! key_of n = Some gn /\ gn <= g + 1);
  ao_dist : forall k gk m, k ∈ closed s -> g_cost s !! k = Some gk ->
            reach_in graph0 start m (cell_of k) -> gk <= Z.of_nat m;
  ao_done : forall c gc, key_of c ∈ closed s -> g_cost s !! key_of c = Some gc ->
            (forall g rest, a_loop s <> Some (g, c, rest)) ->
            forall n, edge graph0 c n ->
              exists gn, g_cost s !! key_of n = Some gn /\ gn <= gc + 1
}.

Definition astar_optimal (graph0 : Graph) (start goal : Cell) (cells : list (Z * Z))
    (s : astar_state) : Prop :=
  astar_bounded graph0 start goal cells s /\ astar_opt graph0 start goal s.

(** The bookkeeping of finished cells, whatever the frontier discipline: a
    cell that left the frontier is not the goal and all its neighbours have
    been seen. *)
Record search_done (graph0 : Graph) (goal : Cell) (s : search_state) : Prop := {
  sd_loop : forall cur rest, s_loop s = Some (cur, rest) ->
            cur <> goal
            /\ forall n, edge graph0 cur n -> n ∈ rest \/ key_of n ∈ s_visited s;
  sd_done : forall c, key_of c ∈ s_visited s -> ~ pending s c ->
            c <> goal /\ forall n, edge graph0 c n -> key_of n ∈ s_visited s
}.

(** The same for A*: a closed cell is not the goal and all its neighbours
    have a recorded cost. *)
Record astar_done (graph0 : Graph) (goal : Cell) (s : astar_state) : Prop := {
  ad_goal : key_of goal ∉ closed s;
  ad_loop : forall g cur rest, a_loop s = Some (g, cur, rest) ->
            forall n, edge graph0 cur n -> n ∈ rest \/ is_Some (g_cost s !! key_of n);
  ad_done : forall c, key_of c ∈ closed s ->
            (forall g rest, a_loop s <> Some (g, c, rest)) ->
            forall n, edge graph0 c n -> is_Some (g_cost s !! key_of n)
}.

(** The visited log of depth-first and breadth-first search: no cell twice,
    the start first. *)
Definition search_log (start : Cell) (s : search_state) : Prop :=
  NoDup (key_of <$> visited_cells (s_graph s))
  /\ exists l, visited_cells (s_graph s) = start :: l.

(** The visited log of A*: no cell twice, the start first once it has been
    popped. *)
Definition astar_log (start : Cell) (s : astar_state) : Prop :=
  NoDup (key_of <$> visited_cells (a_graph s))
  /\ ((visited_cells (a_graph s) = [] /\ key_of start ∉ closed s)
      \/ exists l, visited_cells (a_graph s) = start :: l).

(** The visited log of breadth-first search is in the order of the depths in
    the tree of parent links: a cell logged earlier is no deeper. *)
Definition bfs_log_sorted (start : Cell) (s : search_state) : Prop :=
  forall i j a b m n, (i <= j)%nat ->
    visited_cells (s_graph s) !! i = Some a ->
    visited_cells (s_graph s) !! j = Some b ->
    ancestor (parent (s_graph s)) a m start ->
    ancestor (parent (s_graph s)) b n start ->
    (m <= n)%nat.

(** The visited log of A* is in the order of [f = g + h]: a cell logged
    earlier has no higher [f]. *)
Definition astar_log_sorted (goal : Cell) (log : list Cell) (costs : gmap (Z * Z) Z)
    : Prop :=
  forall i j a b ga gb, (i <= j)%nat ->
    log !! i = Some a -> log !! j = Some b ->
    costs !! key_of a = Some ga -> costs !! key_of b = Some gb ->
    ga + heuristic a goal <= gb + heuristic b goal.

(** The costs of a search on [cells] towards [goal] stay where floats are
    exact: a path has fewer than [length cells] edges, so no [f] is above
    [2 ^ 53]. *)
Definition float_exact (cells : list (Z * Z)) (goal : Cell) : Prop :=
  Forall (fun k : Z * Z => heuristic (cell_of k) goal + Z.of_nat (length cells) <= 2 ^ 53)
         cells.

(** Every Manhattan distance from a cell of [cells] to [goal] can be
    converted to a float. *)
Definition float_convertible (cells : list (Z * Z)) (goal : Cell) : Prop :=
  Forall (fun k : Z * Z => is_Some (float_of_int (heuristic (cell_of k) goal))) cells.

#[global] Instance float_exact_dec (cells : list (Z * Z)) (goal : Cell) :
  Decision (float_exact cells goal).
Proof. unfold float_exact. apply _. Defined.

#[global] Instance float_convertible_dec (cells : list (Z * Z)) (goal : Cell) :
  Decision (float_convertible cells goal).
Proof. unfold float_convertible. apply _. Defined.



(** * Proofs *)

Lemma cell_of_key (c : Cell) : cell_of (key_of c) = c.
Proof. by destruct c. Qed.

Lemma key_of_cell (k : Z * Z) : key_of (cell_of k) = k.
Proof. by destruct k. Qed.

Lemma key_of_inj (a b : Cell) : key_of a = key_of b -> a = b.
Proof. destruct a, b; unfold key_of; simpl; congruence. Qed.

Lemma mkCell_eta (c : Cell) : mkCell (cell_i c) (cell_j c) = c.
Proof. by destruct c. Qed.

Lemma at_goal_true (c goal : Cell) : at_goal c goal = true <-> c = goal.
Proof.
  unfold at_goal. rewrite andb_true_iff, !bool_decide_eq_true.
  split; [intros [? ?]; destruct c, goal; simpl in *; congruence | by intros ->].
Qed.

Lemma at_goal_false (c goal : Cell) : at_goal c goal = false <-> c <> goal.
Proof.
  rewrite <- at_goal_true. destruct (at_goal c goal); split; congruence.
Qed.

(** ** The generic machine *)

Section MachineFacts.
Context {St Ex : Type}.
Variable step : St -> St + Ex.

Lemma run_mono (fuel fuel' : nat) (s : St) (e : Ex) :
  run step fuel s = Some e -> (fuel <= fuel')%nat -> run step fuel' s = Some e.
Proof.
  revert fuel' s. induction fuel as [|fuel IH]; intros fuel' s Hrun Hle; [done|].
  destruct fuel' as [|fuel']; [lia|]. simpl in *.
  destruct (step s); [|done]. apply IH; [done | lia].
Qed.

Lemma reachable_trans (s0 s1 s2 : St) :
  reachable step s0 s1 -> reachable step s1 s2 -> reachable step s0 s2.
Proof. intros H01 H12. induction H12; [done | by eapply reachable_step]. Qed.

Lemma run_exit (fuel : nat) (s : St) (e : Ex) :
  run step fuel s = Some e -> exists s', reachable step s s' /\ step s' = inr e.
Proof.
  revert s. induction fuel as [|fuel IH]; intros s Hrun; [done|]. simpl in Hrun.
  destruct (step s) as [s1|e1] eqn:Hs.
  - destruct (IH _ Hrun) as (s' & Hr & He). exists s'. split; [|done].
    eapply reachable_trans; [|exact Hr].
    eapply reachable_step; [apply reachable_init | done].
  - exists s. split; [apply reachable_init | congruence].
Qed.

Lemma exit_run (s0 s : St) (e : Ex) :
  reachable step s0 s -> step s = inr e -> exists fuel, run step fuel s0 = Some e.
Proof.
  intros Hr. revert e. induction Hr as [|s s' Hr IH Hs]; intros e He.
  - exists 1%nat. simpl. by rewrite He.
  - assert (Hgen : forall fuel, run step fuel s' = Some e ->
                     exists fuel', run step fuel' s0 = Some e).
    { clear He. revert s' Hs. clear IH.
      induction Hr as [|t t' Hr IH Ht]; intros s' Hs fuel Hrun.
      - exists (S fuel). simpl. by rewrite Hs.
      - apply (IH t' Ht (S fuel)). simpl. by rewrite Hs. }
    apply (Hgen 1%nat). simpl. by rewrite He.
Qed.

Lemma state_after_reachable (n : nat) (s0 : St) :
  reachable step s0 (state_after step n s0).
Proof.
  assert (H : forall n s, reachable step s0 s -> reachable step s0 (state_after step n s)).
  { clear n. induction n as [|n IH]; intros s Hs; simpl; [done|].
    destruct (step s) as [s'|e] eqn:Hstep; [|done].
    apply IH. by eapply reachable_step. }
  apply H. constructor.
Qed.

Variable Inv : St -> Prop.
Hypothesis Inv_step : forall s s', Inv s -> step s = inl s' -> Inv s'.

Lemma reachable_inv (s0 s : St) : Inv s0 -> reachable step s0 s -> Inv s.
Proof. intros H0 Hr. induction Hr; eauto. Qed.

(** A run ends when every step lowers a pair of numbers in the lexicographic
    order. *)
Lemma run_terminates (m1 m2 : St -> nat) :
  (forall s s', Inv s -> step s = inl s' ->
     (m1 s' < m1 s \/ (m1 s' = m1 s /\ m2 s' < m2 s))%nat) ->
  forall s, Inv s -> exists fuel e, run step fuel s = Some e.
Proof.
  intros Hdec.
  assert (H : forall a b s, m1 s = a -> m2 s = b -> Inv s ->
                exists fuel e, run step fuel s = Some e).
  { induction a as [a IHa] using lt_wf_ind.
    induction b as [b IHb] using lt_wf_ind.
    intros s Ha Hb Hs. destruct (step s) as [s'|e] eqn:Hstep.
    - assert (Hs' : Inv s') by eauto.
      destruct (Hdec _ _ Hs Hstep) as [Hlt | [Heq Hlt]].
      + destruct (IHa (m1 s') ltac:(lia) (m2 s') s' eq_refl eq_refl Hs')
          as (fuel & e & Hrun).
        exists (S fuel), e. simpl. by rewrite Hstep.
      + destruct (IHb (m2 s') ltac:(lia) s' ltac:(lia) eq_refl Hs') as (fuel & e & Hrun).
        exists (S fuel), e. simpl. by rewrite Hstep.
    - exists 1%nat, e. simpl. by rewrite Hstep. }
  intros s Hs. by eapply H.
Qed.

End MachineFacts.

(** ** Walks and parent chains *)

Lemma walk_snoc (graph : Graph) (a b c : Cell) (p : list Cell) :
  walk graph a p b -> edge graph b c -> walk graph a (p ++ [c]) c.
Proof.
  revert a. induction p as [|x p IH]; simpl; intros a Hw He.
  - subst. done.
  - destruct Hw as [Hax Hw]. split; [done | by apply IH].
Qed.

Lemma walk_app (graph : Graph) (a b c : Cell) (p q : list Cell) :
  walk graph a p b -> walk graph b q c -> walk graph a (p ++ q) c.
Proof.
  revert a. induction p as [|x p IH]; simpl; intros a Hp Hq.
  - by subst.
  - destruct Hp as [Hax Hp]. split; [done | by apply IH].
Qed.

Lemma ancestor_insert_fresh (pm : gmap (Z * Z) (option Cell)) k v c n a :
  pm !! k = None -> ancestor pm c n a -> ancestor (<[k := v]> pm) c n a.
Proof.
  intros Hk Ha. induction Ha as [|c p n a Hc Ha IH]; [constructor|].
  eapply ancestor_up; [|done].
  rewrite lookup_insert_ne; [done | congruence].
Qed.

Lemma ancestor_det (pm : gmap (Z * Z) (option Cell)) c n a b :
  ancestor pm c n a -> ancestor pm c n b -> a = b.
Proof.
  intros Ha. revert b. induction Ha as [|c p n a Hc Ha IH]; intros b Hb.
  - by inversion Hb.
  - inversion Hb; subst. apply IH. congruence.
Qed.

Lemma ancestor_drop (pm : gmap (Z * Z) (option Cell)) c n m a b :
  ancestor pm c n a -> ancestor pm c (n + m) b -> ancestor pm a m b.
Proof.
  intros Ha. revert m b. induction Ha as [|c p n a Hc Ha IH]; intros m b Hb; [done|].
  simpl in Hb. inversion Hb; subst. apply IH. congruence.
Qed.

Lemma ancestor_root_stops (pm : gmap (Z * Z) (option Cell)) r n a :
  pm !! key_of r = Some None -> ancestor pm r n a -> n = 0%nat /\ a = r.
Proof. intros Hr Ha. inversion Ha; subst; [done | congruence]. Qed.

(** Chains that all lead to the root cannot loop. *)
Lemma rooted_acyclic (pm : gmap (Z * Z) (option Cell)) (start : Cell) :
  pm !! key_of start = Some None ->
  forall c m n, ancestor pm c m start -> ancestor pm c (S n) c -> False.
Proof.
  intros Hroot c m. induction m as [m IH] using lt_wf_ind. intros n Hm Hcyc.
  destruct (decide (S n <= m)%nat) as [Hle|Hgt].
  - replace m with (S n + (m - S n))%nat in Hm by lia.
    pose proof (ancestor_drop _ _ _ _ _ _ Hcyc Hm) as Hm'.
    apply (IH (m - S n)%nat ltac:(lia) n Hm' Hcyc).
  - replace (S n) with (m + (S n - m))%nat in Hcyc by lia.
    pose proof (ancestor_drop _ _ _ _ _ _ Hm Hcyc) as Hback.
    destruct (ancestor_root_stops _ _ _ _ Hroot Hback). lia.
Qed.

Lemma ancestor_depth_unique (pm : gmap (Z * Z) (option Cell)) (start c : Cell) m n :
  pm !! key_of start = Some None ->
  ancestor pm c m start -> ancestor pm c n start -> m = n.
Proof.
  intros Hroot Hm Hn.
  destruct (decide (m <= n)%nat).
  - replace n with (m + (n - m))%nat in Hn by lia.
    pose proof (ancestor_drop _ _ _ _ _ _ Hm Hn) as H.
    destruct (ancestor_root_stops _ _ _ _ Hroot H). lia.
  - replace m with (n + (m - n))%nat in Hm by lia.
    pose proof (ancestor_drop _ _ _ _ _ _ Hn Hm) as H.
    destruct (ancestor_root_stops _ _ _ _ Hroot H). lia.
Qed.

(** [trace_path_from] on a chain that leads to the root: it returns the chain,
    root first, in front of the cells already collected. *)
Lemma trace_path_from_chain (graph : Graph) (start c : Cell) (n fuel : nat)
    (acc : list Cell) :
  parent graph !! key_of start = Some None ->
  (forall x p, parent graph !! key_of x = Some (Some p) -> edge graph p x) ->
  ancestor (parent graph) c n start ->
  (n < fuel)%nat ->
  exists p, trace_path_from fuel c graph acc = Returned (start :: p ++ acc)
            /\ length p = n /\ walk graph start p c.
Proof.
  intros Hroot Hedge Ha. revert fuel acc.
  induction Ha as [c|c p n a Hc Ha IH]; intros fuel acc Hlt.
  - destruct fuel as [|fuel]; [lia|]. simpl. rewrite Hroot, mkCell_eta.
    by exists [].
  - destruct fuel as [|fuel]; [lia|]. simpl. rewrite Hc, mkCell_eta.
    destruct (IH Hroot fuel (c :: acc) ltac:(lia)) as (q & Hq & Hlen & Hw).
    exists (q ++ [c]). rewrite <- app_assoc. simpl. split; [done|]. split.
    + rewrite length_app. simpl. lia.
    + eapply walk_snoc; [done|]. by apply Hedge.
Qed.

Lemma trace_path_chain (graph : Graph) (start c : Cell) (n fuel : nat) :
  parent graph !! key_of start = Some None ->
  (forall x p, parent graph !! key_of x = Some (Some p) -> edge graph p x) ->
  ancestor (parent graph) c n start ->
  (n < fuel)%nat ->
  exists path, trace_path fuel c graph = Returned path
               /\ length path = S n /\ path_between graph start c path.
Proof.
  intros Hroot Hedge Ha Hlt.
  destruct (trace_path_from_chain graph start c n fuel [] Hroot Hedge Ha Hlt)
    as (p & Hp & Hlen & Hw).
  exists (start :: p). rewrite app_nil_r in Hp. unfold trace_path.
  split; [done|]. split; [simpl; lia | done].
Qed.

(** ** Depth-first and breadth-first search: the bookkeeping invariant *)

Lemma elem_of_frontier_append (d : discipline) (x c : Cell) (frontier : list Cell) :
  c ∈ frontier_append d x frontier <-> c = x \/ c ∈ frontier.
Proof.
  destruct d; simpl.
  - apply elem_of_cons.
  - rewrite elem_of_app, list_elem_of_singleton. tauto.
Qed.

Lemma search_init_inv (graph : Graph) (start : Cell) :
  search_inv (init_graph graph) start (search_init (init_graph graph) start).
Proof.
  split; simpl.
  - done.
  - intros k. rewrite elem_of_singleton. split.
    + intros ->. rewrite lookup_insert_eq. by eexists.
    + intros [v Hv]. destruct (decide (key_of start = k)) as [|Hne]; [done|].
      rewrite lookup_insert_ne, lookup_empty in Hv; done.
  - apply lookup_insert_eq.
  - intros c [v Hv]. destruct (decide (key_of start = key_of c)) as [Heq|Hne].
    + apply key_of_inj in Heq. subst c. exists 0%nat. constructor.
    + rewrite lookup_insert_ne, lookup_empty in Hv; done.
  - intros c p Hc. destruct (decide (key_of start = key_of c)) as [Heq|Hne].
    + rewrite Heq, lookup_insert_eq in Hc. done.
    + rewrite lookup_insert_ne, lookup_empty in Hc; done.
  - intros c Hc. apply list_elem_of_singleton in Hc. subst. set_solver.
  - done.
  - intros k. rewrite mkCell_eta. simpl. rewrite list_elem_of_singleton. set_solver.
Qed.

Lemma search_step_inv (d : discipline) (goal : Cell) (graph0 : Graph) (start : Cell)
    (s s' : search_state) :
  search_inv graph0 start s -> search_step d goal s = inl s' ->
  search_inv graph0 start s'.
Proof.
  intros [Hn Hdom Hstart Hroot Hedge Hfr Hcur Hlog] Hstep.
  destruct s as [graph frontier visited loop]. unfold search_step in Hstep.
  simpl in *. destruct loop as [[cur [|nbr rest]]|].
  - (* the for loop is over *)
    inversion Hstep; subst; clear Hstep. by split.
  - destruct (Hcur cur (nbr :: rest) eq_refl) as [Hcv Hrest].
    destruct (decide (key_of nbr ∈ visited)) as [Hin|Hnotin].
    + (* a neighbour already visited *)
      inversion Hstep; subst; clear Hstep. split; simpl; try done.
      intros cur' rest' [= <- <-]. split; [done|].
      intros n Hn'. apply Hrest. by right.
    + (* a neighbour seen for the first time *)
      inversion Hstep; subst; clear Hstep.
      assert (Hfresh : parent graph !! key_of nbr = None).
      { destruct (parent graph !! key_of nbr) eqn:E; [|done].
        exfalso. apply Hnotin, Hdom. by eexists. }
      split; simpl.
      * done.
      * intros k. rewrite elem_of_union, elem_of_singleton.
        destruct (decide (key_of nbr = k)) as [<-|Hne].
        -- rewrite lookup_insert_eq. split; [by eexists | by left].
        -- rewrite lookup_insert_ne by done. rewrite <- Hdom. split; [|by right].
           intros [?|?]; [congruence | done].
      * rewrite lookup_insert_ne; [done|]. intros Heq.
        rewrite Heq, Hstart in Hfresh. done.
      * intros c Hc. destruct (decide (key_of nbr = key_of c)) as [Heq|Hne].
        -- apply key_of_inj in Heq. subst c.
           destruct (Hroot cur) as [n Hanc]; [by apply Hdom|].
           exists (S n). eapply ancestor_up; [apply lookup_insert_eq|].
           by apply ancestor_insert_fresh.
        -- rewrite lookup_insert_ne in Hc by done.
           destruct (Hroot c Hc) as [n Hanc]. exists n.
           by apply ancestor_insert_fresh.
      * intros c p Hc. destruct (decide (key_of nbr = key_of c)) as [Heq|Hne].
        -- rewrite Heq, lookup_insert_eq in Hc. inversion Hc; subst.
           apply key_of_inj in Heq. subst c. apply Hrest. by left.
        -- rewrite lookup_insert_ne in Hc by done. by apply Hedge.
      * intros c Hc. apply elem_of_frontier_append in Hc.
        destruct Hc as [->|Hc]; [set_solver|]. apply Hfr in Hc. set_solver.
      * intros cur' rest' [= <- <-]. split; [set_solver|].
        intros n Hn'. apply Hrest. by right.
      * intros k. rewrite fmap_app, elem_of_app. simpl.
        rewrite list_elem_of_singleton, mkCell_eta, <- Hlog. set_solver.
  - destruct frontier as [|cur frontier]; [done|].
    destruct (at_goal cur goal); [done|].
    inversion Hstep; subst; clear Hstep. split; simpl; try done.
    + intros c Hc. apply Hfr. by right.
    + intros cur' rest' [= <- <-]. split; [apply Hfr; by left|].
      intros n Hn'. unfold edge. by rewrite <- Hn.
Qed.

Lemma search_reachable_inv (d : discipline) (goal : Cell) (graph : Graph) (start : Cell)
    (s : search_state) :
  reachable (search_step d goal) (search_init (init_graph graph) start) s ->
  search_inv (init_graph graph) start s.
Proof.
  apply (reachable_inv (search_step d goal) (search_inv (init_graph graph) start)).
  - intros ? ?. apply search_step_inv.
  - apply search_init_inv.
Qed.

(** ** Start equal to goal *)

(** C5. When [start] and [goal] have the same [i] and [j], each of
    [depth_first_search], [breadth_first_search] and [a_star_search] returns
    the one-cell path [[start]], on every graph and with any step budget of
    at least one.  The graph is left with the single parent entry of [start]
    and [start] alone in the visited log. *)
Theorem start_is_goal_single_cell (graph : Graph) (start goal : Cell) (fuel : nat) :
  cell_i start = cell_i goal -> cell_j start = cell_j goal ->
  let final := log_visited start (set_parent (key_of start) None (init_graph graph)) in
  depth_first_search (S fuel) graph start goal = Returned (final, [start])
  /\ breadth_first_search (S fuel) graph start goal = Returned (final, [start])
  /\ a_star_search (S fuel) graph start goal = Returned (final, [start]).
Proof.
  intros Hi Hj final.
  assert (Hgoal : at_goal start goal = true).
  { apply at_goal_true. destruct start, goal; simpl in *; congruence. }
  assert (Htrace : trace_path (S fuel) start final = Returned [start]).
  { unfold trace_path, final. simpl. by rewrite lookup_insert_eq, mkCell_eta. }
  repeat split.
  - unfold depth_first_search, search, search_step. simpl. rewrite Hgoal. simpl.
    fold final. by rewrite Htrace.
  - unfold breadth_first_search, search, search_step. simpl. rewrite Hgoal. simpl.
    fold final. by rewrite Htrace.
  - unfold a_star_search, astar_step. simpl.
    destruct (decide (key_of start ∈ (∅ : gset (Z * Z)))) as [Hin|_]; [set_solver|].
    rewrite Hgoal. simpl. fold final. by rewrite Htrace.
Qed.

Lemma start_is_goal_single_cell_witness :
  depth_first_search 1 open3 (mkCell 1 1) (mkCell 1 1)
    = Returned (log_visited (mkCell 1 1)
                  (set_parent (1, 1) None (init_graph open3)), [mkCell 1 1])
  /\ breadth_first_search 1 open3 (mkCell 1 1) (mkCell 1 1)
    = Returned (log_visited (mkCell 1 1)
                  (set_parent (1, 1) None (init_graph open3)), [mkCell 1 1])
  /\ a_star_search 1 open3 (mkCell 1 1) (mkCell 1 1)
    = Returned (log_visited (mkCell 1 1)
                  (set_parent (1, 1) None (init_graph open3)), [mkCell 1 1]).
Proof.
  exact (start_is_goal_single_cell open3 (mkCell 1 1) (mkCell 1 1) 0 eq_refl eq_refl).
Defined.

(** ** Termination of depth-first and breadth-first search on a finite grid *)

Lemma unvisited_insert_le (cells : list (Z * Z)) (visited : gset (Z * Z)) (k : Z * Z) :
  (unvisited cells ({[ k ]} ∪ visited) <= unvisited cells visited)%nat.
Proof.
  unfold unvisited. induction cells as [|x cells IH]; [done|].
  rewrite !filter_cons.
  destruct (decide (x ∉ {[ k ]} ∪ visited)), (decide (x ∉ visited)); simpl; try lia.
  set_solver.
Qed.

Lemma unvisited_insert_lt (cells : list (Z * Z)) (visited : gset (Z * Z)) (k : Z * Z) :
  k ∈ cells -> k ∉ visited ->
  (unvisited cells ({[ k ]} ∪ visited) < unvisited cells visited)%nat.
Proof.
  unfold unvisited. induction cells as [|x cells IH]; intros Hin Hk.
  - by apply elem_of_nil in Hin.
  - rewrite !filter_cons. apply elem_of_cons in Hin.
    pose proof (unvisited_insert_le cells visited k) as Hle. unfold unvisited in Hle.
    destruct (decide (x ∉ {[ k ]} ∪ visited)), (decide (x ∉ visited)); simpl.
    + destruct Hin as [->|Hin]; [set_solver|]. specialize (IH Hin Hk). lia.
    + set_solver.
    + lia.
    + destruct Hin as [->|Hin]; [done|]. by apply IH.
Qed.

Lemma grid_closed_edge (graph : Graph) (cells : list (Z * Z)) (a b : Cell) :
  grid_closed graph cells -> key_of a ∈ cells -> edge graph a b -> key_of b ∈ cells.
Proof.
  unfold grid_closed, edge. rewrite Forall_forall. intros Hcl Ha Hb.
  specialize (Hcl _ Ha). rewrite Forall_forall in Hcl. by apply Hcl.
Qed.

Lemma search_step_bounded (d : discipline) (goal : Cell) (graph0 : Graph) (start : Cell)
    (cells : list (Z * Z)) (s s' : search_state) :
  grid_closed graph0 cells ->
  search_bounded graph0 start cells s -> search_step d goal s = inl s' ->
  search_bounded graph0 start cells s'.
Proof.
  intros Hcl [Hinv Hsub] Hstep. split; [by eapply search_step_inv|].
  destruct s as [graph frontier visited loop]. unfold search_step in Hstep.
  simpl in *. destruct loop as [[cur [|nbr rest]]|].
  - by inversion Hstep; subst.
  - destruct (si_current _ _ _ Hinv cur (nbr :: rest) eq_refl) as [Hcv Hrest].
    destruct (decide (key_of nbr ∈ visited)); inversion Hstep; subst; simpl; [done|].
    intros k Hk. apply elem_of_union in Hk. destruct Hk as [Hk|Hk]; [|by apply Hsub].
    apply elem_of_singleton in Hk. subst k.
    eapply grid_closed_edge; [done | apply Hsub, Hcv | apply Hrest; by left].
  - destruct frontier as [|cur frontier]; [done|].
    destruct (at_goal cur goal); [done|]. by inversion Hstep; subst.
Qed.

Lemma search_step_decreases (d : discipline) (goal : Cell) (graph0 : Graph) (start : Cell)
    (cells : list (Z * Z)) (s s' : search_state) :
  grid_closed graph0 cells ->
  search_bounded graph0 start cells s -> search_step d goal s = inl s' ->
  let m1 t := (unvisited cells (s_visited t) + length (s_frontier t))%nat in
  let m2 t := loop_size (s_loop t) in
  (m1 s' < m1 s \/ (m1 s' = m1 s /\ m2 s' < m2 s))%nat.
Proof.
  intros Hcl [Hinv Hsub] Hstep. simpl.
  destruct s as [graph frontier visited loop]. unfold search_step in Hstep.
  simpl in *. destruct loop as [[cur [|nbr rest]]|].
  - inversion Hstep; subst; simpl. right. lia.
  - destruct (si_current _ _ _ Hinv cur (nbr :: rest) eq_refl) as [Hcv Hrest].
    destruct (decide (key_of nbr ∈ visited)) as [Hin|Hnotin];
      inversion Hstep; subst; simpl; [right; lia|].
    assert (Hk : key_of nbr ∈ cells).
    { eapply grid_closed_edge; [done | apply Hsub, Hcv | apply Hrest; by left]. }
    pose proof (unvisited_insert_lt cells visited _ Hk Hnotin).
    assert (length (frontier_append d nbr frontier) = S (length frontier)) as ->.
    { destruct d; simpl; [done|]. rewrite length_app. simpl. lia. }
    lia.
  - destruct frontier as [|cur frontier]; [done|].
    destruct (at_goal cur goal); [done|]. inversion Hstep; subst; simpl. left. lia.
Qed.

Lemma search_terminates (d : discipline) (goal : Cell) (graph : Graph) (start : Cell)
    (cells : list (Z * Z)) :
  grid_closed graph cells -> key_of start ∈ cells ->
  exists fuel e,
    run (search_step d goal) fuel (search_init (init_graph graph) start) = Some e.
Proof.
  intros Hcl0 Hstart.
  assert (Hcl : grid_closed (init_graph graph) cells) by exact Hcl0.
  apply (run_terminates (search_step d goal)
           (search_bounded (init_graph graph) start cells)
           (fun s s' => search_step_bounded d goal _ start cells s s' Hcl)
           (fun t => (unvisited cells (s_visited t) + length (s_frontier t))%nat)
           (fun t => loop_size (s_loop t))).
  - intros s s' Hs Hstep. by apply (search_step_decreases d goal _ start cells s s' Hcl).
  - split; [apply search_init_inv|]. simpl. intros k Hk.
    apply elem_of_singleton in Hk. by subst.
Qed.

(** ** What the searches discover is reachable *)

Lemma walk_ext (g1 g2 : Graph) (a b : Cell) (p : list Cell) :
  find_neighbors g1 = find_neighbors g2 -> walk g1 a p b -> walk g2 a p b.
Proof.
  intros Heq. revert a. induction p as [|c p IH]; simpl; intros a; [done|].
  intros [He Hw]. split; [|by apply IH]. unfold edge in *. by rewrite <- Heq.
Qed.

Lemma path_between_ext (g1 g2 : Graph) (a b : Cell) (p : list Cell) :
  find_neighbors g1 = find_neighbors g2 -> path_between g1 a b p -> path_between g2 a b p.
Proof.
  intros Heq. destruct p as [|c p]; simpl; [done|].
  intros [-> Hw]. split; [done | by eapply walk_ext].
Qed.

(** From an entry of the parent map to the path [trace_path] returns. *)
Lemma search_inv_trace (graph0 : Graph) (start : Cell) (s : search_state) (c : Cell) :
  search_inv graph0 start s -> key_of c ∈ s_visited s ->
  exists n, ancestor (parent (s_graph s)) c n start
    /\ forall fuel, (n < fuel)%nat ->
       exists path, trace_path fuel c (s_graph s) = Returned path
                    /\ length path = S n /\ path_between graph0 start c path.
Proof.
  intros Hinv Hc.
  destruct (si_root _ _ _ Hinv c) as [n Hanc]; [by apply (si_dom _ _ _ Hinv)|].
  exists n. split; [done|]. intros fuel Hlt.
  destruct (trace_path_chain (s_graph s) start c n fuel) as (path & Htr & Hlen & Hpath).
  - apply (si_start _ _ _ Hinv).
  - intros x p Hx. unfold edge. rewrite (si_nbrs _ _ _ Hinv).
    by apply (si_edge _ _ _ Hinv).
  - done.
  - done.
  - exists path. repeat split; try done.
    eapply path_between_ext; [|done]. apply (si_nbrs _ _ _ Hinv).
Qed.

(** ** The heap *)

Lemma entry_ltb_lt (a b : entry) : entry_ltb a b = true <-> entry_lt a b.
Proof.
  unfold entry_ltb, entry_lt.
  rewrite !orb_true_iff, !andb_true_iff, !orb_true_iff, !andb_true_iff.
  rewrite !Z.ltb_lt, !Z.eqb_eq. tauto.
Qed.

Lemma entry_ltb_ge (a b : entry) : entry_ltb a b = false <-> ~ entry_lt a b.
Proof. rewrite <- entry_ltb_lt. destruct (entry_ltb a b); split; congruence. Qed.

Lemma extract_min_spec (e : entry) (heap : list entry) (m : entry) (r : list entry) :
  extract_min e heap = (m, r) ->
  m :: r ≡ₚ e :: heap /\ forall x, x ∈ e :: heap -> ~ entry_lt x m.
Proof.
  revert e m r. induction heap as [|x heap IH]; simpl; intros e m r Hex.
  - inversion Hex; subst. split; [done|]. intros x Hx.
    apply list_elem_of_singleton in Hx. subst. unfold entry_lt. lia.
  - destruct (entry_ltb x e) eqn:Hlt.
    + destruct (extract_min x heap) as [m' r'] eqn:Hrec. inversion Hex; subst.
      destruct (IH _ _ _ Hrec) as [Hperm Hmin]. split.
      * rewrite (Permutation_swap e m r'). by rewrite Hperm.
      * intros y Hy. apply elem_of_cons in Hy. destruct Hy as [->|Hy]; [|by apply Hmin].
        apply entry_ltb_lt in Hlt. specialize (Hmin x ltac:(by left)).
        unfold entry_lt in *. lia.
    + destruct (extract_min e heap) as [m' r'] eqn:Hrec. inversion Hex; subst.
      destruct (IH _ _ _ Hrec) as [Hperm Hmin]. split.
      * rewrite (Permutation_swap x m r'). rewrite Hperm. apply Permutation_swap.
      * intros y Hy. apply elem_of_cons in Hy. destruct Hy as [->|Hy].
        -- by apply Hmin; left.
        -- apply elem_of_cons in Hy. destruct Hy as [->|Hy].
           ++ apply entry_ltb_ge in Hlt. specialize (Hmin e ltac:(by left)).
              unfold entry_lt in *. lia.
           ++ apply Hmin. by right.
Qed.

(** The contract of [heappop]: it splits the heap into a least entry and the
    rest. *)
Lemma heappop_spec (heap : list entry) (m : entry) (r : list entry) :
  heappop heap = Some (m, r) ->
  m :: r ≡ₚ heap /\ forall x, x ∈ heap -> ~ entry_lt x m.
Proof.
  destruct heap as [|e heap]; simpl; [done|].
  intros [= Hex]. by apply extract_min_spec.
Qed.

Lemma heappop_none (heap : list entry) : heappop heap = None <-> heap = [].
Proof. destruct heap; simpl; split; congruence. Qed.

(** ** A* search: the bookkeeping invariant *)

Lemma astar_init_inv (graph : Graph) (start goal : Cell) :
  astar_inv (init_graph graph) start goal (astar_init (init_graph graph) start goal).
Proof.
  split; simpl.
  - done.
  - intros k. destruct (decide (key_of start = k)) as [<-|Hne].
    + rewrite lookup_insert_eq, lookup_singleton_eq. split; by eexists.
    + rewrite lookup_insert_ne, lookup_singleton_ne, lookup_empty by done. done.
  - by rewrite lookup_insert_eq, lookup_singleton_eq.
  - right. done.
  - intros e He. apply list_elem_of_singleton in He. subst e. simpl.
    split; [done|]. split; [|lia]. exists 0. by rewrite lookup_singleton_eq.
  - apply NoDup_singleton.
  - intros k gk Hk _. destruct (decide (key_of start = k)) as [<-|Hne].
    + rewrite lookup_singleton_eq in Hk. inversion Hk; subst.
      eexists. split; [by apply list_elem_of_singleton|]. done.
    + by rewrite lookup_singleton_ne in Hk.
  - set_solver.
  - intros c p Hc. destruct (decide (key_of start = key_of c)) as [Heq|Hne].
    + rewrite Heq, lookup_insert_eq in Hc. done.
    + rewrite lookup_insert_ne, lookup_empty in Hc; done.
  - done.
  - intros c [v Hv]. destruct (decide (key_of start = key_of c)) as [Heq|Hne].
    + apply key_of_inj in Heq. subst c. exists 0%nat. constructor.
    + rewrite lookup_insert_ne, lookup_empty in Hv; done.
  - intros k. set_solver.
Qed.

(** Rewriting the parent of a cell that is nobody's parent leaves the chains
    of the other cells alone. *)
Lemma ancestor_insert_leaf (pm : gmap (Z * Z) (option Cell)) k v c n a :
  (forall x p, pm !! key_of x = Some (Some p) -> key_of p <> k) ->
  key_of c <> k -> ancestor pm c n a -> ancestor (<[k := v]> pm) c n a.
Proof.
  intros Hleaf Hc Ha. induction Ha as [|c p n a Hcp Ha IH]; [constructor|].
  eapply ancestor_up; [by rewrite lookup_insert_ne|].
  apply IH. by eapply Hleaf.
Qed.


(** The entry that is popped for a cell not yet closed carries the cell's
    recorded cost. *)
Lemma astar_popped_cost (graph0 : Graph) (start goal : Cell) (s : astar_state)
    (e : entry) (heap : list entry) :
  astar_inv graph0 start goal s ->
  heappop (open_heap s) = Some (e, heap) ->
  key_of (e_cell e) ∉ closed s ->
  g_cost s !! key_of (e_cell e) = Some (e_g e).
Proof.
  intros Hinv Hpop Hopen.
  destruct (heappop_spec _ _ _ Hpop) as [Hperm Hmin].
  assert (He : e ∈ open_heap s) by (rewrite <- Hperm; by left).
  destruct (ai_heap _ _ _ _ Hinv e He) as (Hf & (g0 & Hg0 & Hle) & _).
  destruct (ai_open _ _ _ _ Hinv _ _ Hg0 Hopen) as (e' & He' & Hkey & Hg').
  destruct (ai_heap _ _ _ _ Hinv e' He') as (Hf' & _ & _).
  apply key_of_inj in Hkey. specialize (Hmin e' He').
  rewrite Hg0. f_equal. unfold entry_lt in Hmin. rewrite Hkey in Hf'. lia.
Qed.

Lemma astar_step_inv (goal : Cell) (graph0 : Graph) (start : Cell)
    (s s' : astar_state) :
  astar_inv graph0 start goal s -> astar_step goal s = inl s' ->
  astar_inv graph0 start goal s'.
Proof.
  intros Hinv Hstep.
  pose proof Hinv as [Hn Hdom [Hps Hgs] Hphase Hheap Hcnt Hopen Hclosed Hlink Hloop Hroot Hlog].
  destruct s as [graph heap gc cnt cl loop]. unfold astar_step in Hstep.
  simpl in *. destruct loop as [[[g cur] [|nbr rest]]|].
  - (* the for loop is over *)
    inversion Hstep; subst; clear Hstep. split; simpl; try done.
    destruct Hphase as [?|[_ ?]]; [by left | done].
  - destruct (Hloop g cur (nbr :: rest) eq_refl) as (Hcc & Hgcur & Hrest).
    assert (Hstart_cl : key_of start ∈ cl) by (destruct Hphase as [?|[_ ?]]; done).
    assert (Hskip : astar_inv graph0 start goal
                      (mkAstar graph heap gc cnt cl (Some (g, cur, rest)))).
    { split; simpl; try done; [by left|]. intros g' cur' rest' [= <- <- <-].
      repeat split; try done. intros n Hn'. apply Hrest. by right. }
    destruct (decide (key_of nbr ∈ cl)) as [Hin|Hnotin];
      [by inversion Hstep; subst|].
    destruct (match gc !! key_of nbr with
              | Some old => g + 1 <? old
              | None => true
              end) eqn:Hbetter; [|by inversion Hstep; subst].
    inversion Hstep; subst; clear Hstep Hskip.
    assert (Hne_start : key_of nbr <> key_of start) by (intros Heq; congruence).
    assert (Hne_cur : key_of nbr <> key_of cur) by (intros Heq; congruence).
    assert (Hleaf : forall x p, parent graph !! key_of x = Some (Some p) ->
                      key_of p <> key_of nbr).
    { intros x p Hx Heq. destruct (Hlink x p Hx) as (Hp & _). congruence. }
    split; simpl.
    + done.
    + intros k. destruct (decide (key_of nbr = k)) as [<-|Hne].
      * rewrite !lookup_insert_eq. split; by eexists.
      * rewrite !lookup_insert_ne by done. apply Hdom.
    + by rewrite !lookup_insert_ne.
    + by left.
    + intros e He. unfold heappush in He. apply elem_of_app in He.
      destruct He as [He|He].
      * destruct (Hheap e He) as (Hf & (g0 & Hg0 & Hle) & Hc).
        split; [done|]. split; [|lia].
        destruct (decide (key_of nbr = key_of (e_cell e))) as [Heq|Hne].
        -- rewrite <- Heq, lookup_insert_eq. eexists. split; [done|].
           rewrite <- Heq in Hg0. rewrite Hg0 in Hbetter.
           apply Z.ltb_lt in Hbetter. lia.
        -- rewrite lookup_insert_ne by done. eauto.
      * apply list_elem_of_singleton in He. subst e. simpl.
        split; [done|]. split; [|lia]. rewrite lookup_insert_eq. eexists. split; [done|lia].
    + unfold heappush. rewrite fmap_app. simpl. apply NoDup_app. split; [done|]. split.
      * intros x Hx Hx'. apply list_elem_of_singleton in Hx'. subst x.
        apply list_elem_of_fmap in Hx. destruct Hx as (e & Heq & He).
        destruct (Hheap e He) as (_ & _ & Hc). lia.
      * apply NoDup_singleton.
    + intros k gk Hk Hkc. unfold heappush. destruct (decide (key_of nbr = k)) as [<-|Hne].
      * rewrite lookup_insert_eq in Hk. inversion Hk; subst.
        eexists. split; [apply elem_of_app; right; by apply list_elem_of_singleton|]. done.
      * rewrite lookup_insert_ne in Hk by done.
        destruct (Hopen k gk Hk Hkc) as (e & He & Hek & Heg).
        exists e. split; [apply elem_of_app; by left | done].
    + intros k Hk. destruct (decide (key_of nbr = k)) as [<-|Hne].
      * rewrite lookup_insert_eq. by eexists.
      * rewrite lookup_insert_ne by done. by apply Hclosed.
    + intros c p Hc. destruct (decide (key_of nbr = key_of c)) as [Heq|Hne].
      * rewrite Heq, lookup_insert_eq in Hc. inversion Hc; subst p.
        apply key_of_inj in Heq. subst c. split; [done|]. split; [apply Hrest; by left|].
        exists g. rewrite lookup_insert_ne by done. by rewrite lookup_insert_eq.
      * rewrite lookup_insert_ne in Hc by done.
        destruct (Hlink c p Hc) as (Hp & He & gp & Hgp & Hgcp).
        split; [done|]. split; [done|]. exists gp.
        rewrite !lookup_insert_ne; [done | done | congruence].
    + intros g' cur' rest' [= <- <- <-]. split; [done|].
      split; [by rewrite lookup_insert_ne|]. intros n Hn'. apply Hrest. by right.
    + intros c Hc. destruct (decide (key_of nbr = key_of c)) as [Heq|Hne].
      * apply key_of_inj in Heq. subst c.
        destruct (Hroot cur) as [n Hanc]; [apply Hdom; by eexists|].
        exists (S n). eapply ancestor_up; [apply lookup_insert_eq|].
        apply ancestor_insert_leaf; [done | congruence | done].
      * rewrite lookup_insert_ne in Hc by done.
        destruct (Hroot c Hc) as [n Hanc]. exists n.
        apply ancestor_insert_leaf; [done | congruence | done].
    + done.
  - destruct (heappop heap) as [[e heap']|] eqn:Hpop; [|done].
    destruct (heappop_spec _ _ _ Hpop) as [Hperm Hmin].
    assert (Hsub : forall x, x ∈ heap' -> x ∈ heap).
    { intros x Hx. rewrite <- Hperm. by right. }
    assert (He : e ∈ heap) by (rewrite <- Hperm; by left).
    assert (Hcnt' : NoDup (e_counter <$> heap')).
    { rewrite <- Hperm in Hcnt. simpl in Hcnt. by apply NoDup_cons in Hcnt as [_ ?]. }
    assert (Hother : forall x, x ∈ heap -> key_of (e_cell x) <> key_of (e_cell e) ->
                       x ∈ heap').
    { intros x Hx Hne. rewrite <- Hperm in Hx. apply elem_of_cons in Hx.
      destruct Hx as [->|Hx]; done. }
    destruct (decide (key_of (e_cell e) ∈ cl)) as [Hin|Hnotin].
    + (* a stale entry *)
      inversion Hstep; subst; clear Hstep. split; simpl; try done.
      * left. destruct Hphase as [?|[Hh _]]; [done|]. subst heap.
        apply list_elem_of_singleton in He. subst e. done.
      * intros x Hx. by apply Hheap, Hsub.
      * intros k gk Hk Hkc. destruct (Hopen k gk Hk Hkc) as (x & Hx & Hxk & Hxg).
        exists x. split; [|done]. apply Hother; [done|]. congruence.
    + pose proof (astar_popped_cost _ _ _ _ _ _ Hinv Hpop Hnotin) as Hg. simpl in Hg.
      destruct (at_goal (e_cell e) goal); [done|].
      inversion Hstep; subst; clear Hstep. split; simpl; try done.
      * left. destruct Hphase as [?|[Hh _]]; [apply elem_of_union; by right|].
        subst heap. apply list_elem_of_singleton in He. subst e. simpl.
        apply elem_of_union. left. by apply elem_of_singleton.
      * intros x Hx. by apply Hheap, Hsub.
      * intros k gk Hk Hkc.
        destruct (Hopen k gk Hk) as (x & Hx & Hxk & Hxg).
        { intros Hc. apply Hkc, elem_of_union. by right. }
        exists x. split; [|done]. apply Hother; [done|].
        intros Heq. apply Hkc, elem_of_union. left. apply elem_of_singleton. congruence.
      * intros k Hk. apply elem_of_union in Hk. destruct Hk as [Hk|Hk]; [|by apply Hclosed].
        apply elem_of_singleton in Hk. subst k. by eexists.
      * intros c p Hc. destruct (Hlink c p Hc) as (Hp & Hrest).
        split; [apply elem_of_union; by right | done].
      * intros g' cur' rest' [= <- <- <-].
        split; [apply elem_of_union; left; by apply elem_of_singleton|].
        split; [done|]. intros n Hn'. unfold edge. by rewrite <- Hn.
      * intros k. rewrite fmap_app, elem_of_app. simpl.
        rewrite list_elem_of_singleton, mkCell_eta, <- Hlog.
        rewrite elem_of_union, elem_of_singleton. tauto.
Qed.

Lemma astar_reachable_inv (goal : Cell) (graph : Graph) (start : Cell) (s : astar_state) :
  reachable (astar_step goal) (astar_init (init_graph graph) start goal) s ->
  astar_inv (init_graph graph) start goal s.
Proof.
  apply (reachable_inv (astar_step goal) (astar_inv (init_graph graph) start goal)).
  - intros ? ?. apply astar_step_inv.
  - apply astar_init_inv.
Qed.

(** ** Termination of A* on a finite grid *)

Lemma astar_step_bounded (goal : Cell) (graph0 : Graph) (start : Cell)
    (cells : list (Z * Z)) (s s' : astar_state) :
  grid_closed graph0 cells ->
  astar_bounded graph0 start goal cells s -> astar_step goal s = inl s' ->
  astar_bounded graph0 start goal cells s'.
Proof.
  intros Hcl [Hinv Hsub] Hstep. split; [by eapply astar_step_inv|].
  destruct s as [graph heap gc cnt cl loop]. unfold astar_step in Hstep.
  simpl in *. destruct loop as [[[g cur] [|nbr rest]]|].
  - by inversion Hstep; subst.
  - destruct (ai_loop _ _ _ _ Hinv g cur (nbr :: rest) eq_refl) as (Hcc & Hgcur & Hrest).
    destruct (decide (key_of nbr ∈ cl)); [by inversion Hstep; subst|].
    destruct (match gc !! key_of nbr with
              | Some old => g + 1 <? old
              | None => true
              end); inversion Hstep; subst; simpl; [|done].
    intros k Hk. destruct (decide (key_of nbr = k)) as [<-|Hne].
    + eapply grid_closed_edge; [done | apply Hsub; by eexists | apply Hrest; by left].
    + rewrite lookup_insert_ne in Hk by done. by apply Hsub.
  - destruct (heappop heap) as [[e heap']|]; [|done].
    destruct (decide (key_of (e_cell e) ∈ cl)); [by inversion Hstep; subst|].
    destruct (at_goal (e_cell e) goal); [done|]. by inversion Hstep; subst.
Qed.

Lemma astar_step_decreases (goal : Cell) (graph0 : Graph) (start : Cell)
    (cells : list (Z * Z)) (s s' : astar_state) :
  astar_bounded graph0 start goal cells s -> astar_step goal s = inl s' ->
  let m1 t := unvisited cells (closed t) in
  let m2 t := (2 * loop_size (a_loop t) + length (open_heap t))%nat in
  (m1 s' < m1 s \/ (m1 s' = m1 s /\ m2 s' < m2 s))%nat.
Proof.
  intros [Hinv Hsub] Hstep. simpl.
  destruct s as [graph heap gc cnt cl loop]. unfold astar_step in Hstep.
  simpl in *. destruct loop as [[[g cur] [|nbr rest]]|].
  - inversion Hstep; subst; simpl. right. lia.
  - destruct (decide (key_of nbr ∈ cl)); [inversion Hstep; subst; simpl; right; lia|].
    destruct (match gc !! key_of nbr with
              | Some old => g + 1 <? old
              | None => true
              end); inversion Hstep; subst; simpl; right.
    + unfold heappush. rewrite length_app. simpl. lia.
    + lia.
  - destruct (heappop heap) as [[e heap']|] eqn:Hpop; [|done].
    destruct (heappop_spec _ _ _ Hpop) as [Hperm _].
    apply Permutation_length in Hperm. simpl in Hperm.
    destruct (decide (key_of (e_cell e) ∈ cl)) as [Hin|Hnotin];
      [inversion Hstep; subst; simpl; right; lia|].
    destruct (at_goal (e_cell e) goal); [done|]. inversion Hstep; subst; simpl. left.
    apply unvisited_insert_lt; [|done]. apply Hsub.
    assert (He : e ∈ heap).
    { destruct heap as [|x heap]; [done|]. simpl in Hpop. inversion Hpop as [Hex].
      destruct (extract_min_spec _ _ _ _ Hex) as [Hp _]. rewrite <- Hp. by left. }
    destruct (ai_heap _ _ _ _ Hinv e He) as (_ & (g0 & Hg0 & _) & _). by eexists.
Qed.

Lemma astar_terminates (goal : Cell) (graph : Graph) (start : Cell)
    (cells : list (Z * Z)) :
  grid_closed graph cells -> key_of start ∈ cells ->
  exists fuel e,
    run (astar_step goal) fuel (astar_init (init_graph graph) start goal) = Some e.
Proof.
  intros Hcl0 Hstart.
  assert (Hcl : grid_closed (init_graph graph) cells) by exact Hcl0.
  apply (run_terminates (astar_step goal)
           (astar_bounded (init_graph graph) start goal cells)
           (fun s s' => astar_step_bounded goal _ start cells s s' Hcl)
           (fun t => unvisited cells (closed t))
           (fun t => (2 * loop_size (a_loop t) + length (open_heap t))%nat)).
  - intros s s' Hs Hstep. by apply (astar_step_decreases goal (init_graph graph) start cells s s').
  - split; [apply astar_init_inv|]. simpl. intros k [v Hk].
    destruct (decide (key_of start = k)) as [<-|Hne]; [done|].
    by rewrite lookup_singleton_ne in Hk.
Qed.

(** From an entry of the parent map to the path [trace_path] returns; the
    path has as many edges as the recorded cost. *)
Lemma astar_inv_depth (graph0 : Graph) (start goal : Cell) (s : astar_state)
    (c : Cell) (n : nat) :
  astar_inv graph0 start goal s ->
  ancestor (parent (a_graph s)) c n start ->
  g_cost s !! key_of c = Some (Z.of_nat n).
Proof.
  intros Hinv Hanc.
  pose proof (proj2 (ai_start _ _ _ _ Hinv)) as Hs0.
  pose proof (ai_link _ _ _ _ Hinv) as Hlink. clear Hinv.
  induction Hanc as [c|c p n a Hc Ha IH]; [done|].
  destruct (Hlink c p Hc) as (Hp & _ & gp & Hgp & Hgc).
  rewrite Hgc. f_equal. rewrite (IH Hs0) in Hgp. inversion Hgp. lia.
Qed.

Lemma astar_inv_trace (graph0 : Graph) (start goal : Cell) (s : astar_state) (c : Cell) :
  astar_inv graph0 start goal s -> is_Some (g_cost s !! key_of c) ->
  exists n, ancestor (parent (a_graph s)) c n start
    /\ g_cost s !! key_of c = Some (Z.of_nat n)
    /\ forall graph fuel, (n < fuel)%nat ->
       find_neighbors graph = find_neighbors graph0 ->
       parent graph = parent (a_graph s) ->
       exists path, trace_path fuel c graph = Returned path
                    /\ length path = S n /\ path_between graph0 start c path.
Proof.
  intros Hinv Hc.
  destruct (ai_root _ _ _ _ Hinv c) as [n Hanc]; [by apply (ai_dom _ _ _ _ Hinv)|].
  exists n. split; [done|]. split; [by eapply astar_inv_depth|].
  intros graph fuel Hlt Hnb Hpm.
  destruct (trace_path_chain graph start c n fuel) as (path & Htr & Hlen & Hpath).
  - rewrite Hpm. apply (ai_start _ _ _ _ Hinv).
  - intros x p Hx. unfold edge. rewrite Hnb. rewrite Hpm in Hx.
    by destruct (ai_link _ _ _ _ Hinv x p Hx) as (_ & ? & _).
  - by rewrite Hpm.
  - done.
  - exists path. repeat split; try done. by eapply path_between_ext.
Qed.

(** ** An unreachable goal *)

Lemma search_step_exit (d : discipline) (goal : Cell) (s : search_state)
    (graph : Graph) (e : exit) :
  search_step d goal s = inr (graph, e) ->
  graph = s_graph s /\ s_loop s = None
  /\ match e with
     | Exhausted => s_frontier s = []
     | GoalFound cur => cur = goal /\ exists frontier, s_frontier s = cur :: frontier
     end.
Proof.
  unfold search_step. destruct (s_loop s) as [[cur [|nbr rest]]|]; [done | |].
  - by destruct (decide (key_of nbr ∈ s_visited s)).
  - destruct (s_frontier s) as [|cur frontier]; [by intros [= <- <-]|].
    destruct (at_goal cur goal) eqn:Hg; [|done].
    intros [= <- <-]. apply at_goal_true in Hg. eauto.
Qed.

Lemma astar_step_exit (goal : Cell) (s : astar_state) (graph : Graph) (e : exit) :
  astar_step goal s = inr (graph, e) ->
  a_loop s = None
  /\ match e with
     | Exhausted => open_heap s = [] /\ graph = a_graph s
     | GoalFound cur =>
       cur = goal /\ graph = log_visited cur (a_graph s)
       /\ (key_of cur ∉ closed s)
       /\ exists x heap, heappop (open_heap s) = Some (x, heap) /\ e_cell x = cur
     end.
Proof.
  unfold astar_step. destruct (a_loop s) as [[[g cur] [|nbr rest]]|]; [done | |].
  - destruct (decide (key_of nbr ∈ closed s)); [done|].
    by destruct (match g_cost s !! key_of nbr with
                 | Some old => g + 1 <? old
                 | None => true
                 end).
  - destruct (heappop (open_heap s)) as [[x heap]|] eqn:Hpop.
    + destruct (decide (key_of (e_cell x) ∈ closed s)); [done|].
      destruct (at_goal (e_cell x) goal) eqn:Hg; [|done].
      intros [= <- <-]. apply at_goal_true in Hg. split; [done|]. eauto 10.
    + intros [= <- <-]. apply heappop_none in Hpop. done.
Qed.


Lemma astar_unreachable (graph : Graph) (cells : list (Z * Z)) (start goal : Cell) :
  grid_closed graph cells -> key_of start ∈ cells ->
  ~ reachable_cell graph start goal ->
  exists fuel0 s,
    reachable (astar_step goal) (astar_init (init_graph graph) start goal) s
    /\ open_heap s = [] /\ a_loop s = None
    /\ forall fuel, (fuel0 <= fuel)%nat ->
         a_star_search fuel graph start goal = Returned (a_graph s, []).
Proof.
  intros Hcl Hstart Hunreach.
  destruct (astar_terminates goal graph start cells Hcl Hstart) as (fuel0 & [g e] & Hrun).
  destruct (run_exit _ _ _ _ Hrun) as (s & Hreach & Hexit).
  pose proof (astar_reachable_inv _ _ _ _ Hreach) as Hinv.
  destruct (astar_step_exit _ _ _ _ Hexit) as (Hloop & He).
  destruct e as [cur|].
  - destruct He as (-> & _ & _ & x & heap & Hpop & Hx). exfalso. apply Hunreach.
    assert (Hin : x ∈ open_heap s).
    { destruct (heappop_spec _ _ _ Hpop) as [Hperm _]. rewrite <- Hperm. by left. }
    destruct (ai_heap _ _ _ _ Hinv x Hin) as (_ & (g0 & Hg0 & _) & _).
    rewrite Hx in Hg0.
    destruct (astar_inv_trace _ _ _ _ goal Hinv ltac:(by eexists)) as (n & _ & _ & Htr).
    destruct (Htr (a_graph s) (S n) ltac:(lia) (ai_nbrs _ _ _ _ Hinv) eq_refl)
      as (path & _ & _ & Hpath).
    exists path. by apply (path_between_ext (init_graph graph) graph).
  - destruct He as [Hheap ->]. exists fuel0, s. repeat split; try done.
    intros fuel Hle. unfold a_star_search.
    by rewrite (run_mono _ _ _ _ _ Hrun Hle).
Qed.



(** ** Breadth-first search finds a shortest path *)

Lemma walk_reach_in (graph : Graph) (start a b : Cell) (n : nat) (p : list Cell) :
  reach_in graph start n a -> walk graph a p b ->
  reach_in graph start (n + length p) b.
Proof.
  revert a n. induction p as [|c p IH]; simpl; intros a n Hr Hw.
  - subst. by rewrite Nat.add_0_r.
  - destruct Hw as [He Hw]. replace (n + S (length p))%nat with (S n + length p)%nat by lia.
    apply (IH c); [|done]. by eapply reach_next.
Qed.

Lemma path_reach_in (graph : Graph) (start goal : Cell) (path : list Cell) :
  path_between graph start goal path -> reach_in graph start (edge_count path) goal.
Proof.
  destruct path as [|c p]; [done|]. intros [-> Hw]. unfold edge_count. simpl.
  apply (walk_reach_in graph start start goal 0 p); [constructor | done].
Qed.

Lemma bfs_init_levels (graph : Graph) (start goal : Cell) :
  bfs_levels (init_graph graph) start goal (search_init (init_graph graph) start).
Proof.
  split; [apply search_init_inv|].
  exists (fun _ => 0%nat), 0%nat, [start], []. split; simpl; try done.
  - intros c p Hc. destruct (decide (key_of start = key_of c)) as [Heq|Hne].
    + rewrite Heq, lookup_insert_eq in Hc. done.
    + rewrite lookup_insert_ne, lookup_empty in Hc; done.
  - intros c Hc. by apply elem_of_nil in Hc.
  - intros k _. lia.
  - intros c Hc Hnp. exfalso. apply Hnp. left. simpl.
    apply elem_of_singleton in Hc. apply key_of_inj in Hc. subst. by left.
Qed.

Lemma bfs_step_levels (goal : Cell) (graph0 : Graph) (start : Cell)
    (s s' : search_state) :
  bfs_levels graph0 start goal s -> search_step FIFO goal s = inl s' ->
  bfs_levels graph0 start goal s'.
Proof.
  intros [Hinv (lvl & base & q1 & q2 & Hb)] Hstep.
  split; [by eapply search_step_inv|].
  destruct Hb as [Hl0 Hlink Hq Hq1 Hq2 Hloop Hbound Hdone].
  destruct s as [graph frontier visited loop]. unfold search_step in Hstep.
  pose proof Hinv as [Hnb0 Hdom Hstart _ _ Hfr Hcur _].
  unfold pending in *. simpl in *. destruct loop as [[cur [|nbr rest]]|].
  - (* the for loop is over: [cur] is done *)
    injection Hstep as <-.
    destruct (Hloop cur [] eq_refl) as (Hlc & Hng & Hnb).
    exists lvl, base, q1, q2. split; simpl; try done.
    intros c Hc Hnp. destruct (decide (c = cur)) as [->|Hne].
    + split; [done|]. intros n Hn. destruct (Hnb n Hn) as [Hin|Hv].
      * by apply elem_of_nil in Hin.
      * split; [done|]. rewrite Hlc. by apply Hbound.
    + apply Hdone; [done|]. intros [Hf|[rest' [= ? ?]]]; [|done].
      apply Hnp. by left.
  - destruct (Hloop cur (nbr :: rest) eq_refl) as (Hlc & Hng & Hnb).
    destruct (decide (key_of nbr ∈ visited)) as [Hin|Hnotin].
    + (* a neighbour already visited *)
      injection Hstep as <-.
      exists lvl, base, q1, q2. split; simpl; try done.
      * intros cur' rest' [= <- <-]. split; [done|]. split; [done|].
        intros n Hn. destruct (Hnb n Hn) as [Hr|Hv]; [|by right].
        apply elem_of_cons in Hr. destruct Hr as [->|Hr]; [by right | by left].
      * intros c Hc Hnp. apply Hdone; [done|].
        intros [Hf|[rest' [= ? ?]]]; apply Hnp; [by left | right; subst; eauto].
    + (* a neighbour seen for the first time *)
      injection Hstep as <-.
      set (k := key_of nbr).
      set (lvl' := fun x => if decide (x = k) then S base else lvl x).
      assert (Hold : forall x, x ∈ visited -> lvl' x = lvl x).
      { intros x Hx. unfold lvl'. destruct (decide (x = k)) as [->|]; [done|done]. }
      assert (Hcv : key_of cur ∈ visited).
      { by destruct (Hcur cur (nbr :: rest) eq_refl). }
      assert (Hnew : lvl' k = S base).
      { unfold lvl'. by destruct (decide (k = k)). }
      exists lvl', base, q1, (q2 ++ [nbr]). split; simpl.
      * rewrite Hold; [done|]. apply Hdom. rewrite Hstart. by eexists.
      * intros c p Hc. destruct (decide (k = key_of c)) as [Heq|Hne].
        -- rewrite <- Heq, lookup_insert_eq in Hc. inversion Hc; subst p.
           split; [apply elem_of_union; by right|].
           rewrite <- Heq, Hnew, Hold by done. by rewrite Hlc.
        -- rewrite lookup_insert_ne in Hc by done.
           destruct (Hlink c p Hc) as [Hp Hlv].
           split; [apply elem_of_union; by right|].
           rewrite (Hold _ Hp). rewrite Hold; [done|].
           apply Hdom. by eexists.
      * by rewrite Hq, app_assoc.
      * intros c Hc. rewrite Hold; [by apply Hq1|].
        apply Hfr. rewrite Hq. apply elem_of_app. by left.
      * intros c Hc. apply elem_of_app in Hc. destruct Hc as [Hc|Hc].
        -- rewrite Hold; [by apply Hq2|].
           apply Hfr. rewrite Hq. apply elem_of_app. by right.
        -- apply list_elem_of_singleton in Hc. by subst c.
      * intros cur' rest' [= <- <-]. split; [by rewrite Hold|]. split; [done|].
        intros n Hn. destruct (Hnb n Hn) as [Hr|Hv]; [|right; apply elem_of_union; by right].
        apply elem_of_cons in Hr. destruct Hr as [->|Hr]; [|by left].
        right. apply elem_of_union. left. by apply elem_of_singleton.
      * intros x Hx. apply elem_of_union in Hx. destruct Hx as [Hx|Hx].
        -- apply elem_of_singleton in Hx. subst x. by rewrite Hnew.
        -- rewrite Hold by done. by apply Hbound.
      * intros c Hc Hnp. apply elem_of_union in Hc. destruct Hc as [Hc|Hc].
        -- apply elem_of_singleton in Hc. apply key_of_inj in Hc. subst c.
           exfalso. apply Hnp. left. apply elem_of_app. right.
           by apply list_elem_of_singleton.
        -- destruct (Hdone c Hc) as [Hcg Hcn].
           { intros [Hf|[rest' [= ? ?]]]; apply Hnp.
             - left. apply elem_of_app. by left.
             - right. subst. eauto. }
           split; [done|]. intros n Hn. destruct (Hcn n Hn) as [Hnv Hnl].
           split; [apply elem_of_union; by right|]. by rewrite !Hold.
  - destruct frontier as [|cur frontier]; [done|].
    destruct (at_goal cur goal) eqn:Hg; [done|]. apply at_goal_false in Hg.
    injection Hstep as <-.
    assert (Hnbrs : forall n, edge graph0 cur n ->
              n ∈ find_neighbors graph (cell_i cur) (cell_j cur) \/ key_of n ∈ visited).
    { intros n Hn. left. unfold edge in Hn. by rewrite Hnb0. }
    assert (Hkeep : forall c, key_of c ∈ visited ->
              ~ (c ∈ frontier \/ exists rest', Some (cur, find_neighbors graph (cell_i cur) (cell_j cur)) = Some (c, rest')) ->
              c <> goal /\ forall n, edge graph0 c n ->
                key_of n ∈ visited /\ (lvl (key_of n) <= S (lvl (key_of c)))%nat).
    { intros c Hc Hnp. apply Hdone; [done|].
      intros [Hf|[rest' [=]]]. apply elem_of_cons in Hf.
      destruct Hf as [->|Hf]; apply Hnp; [right; eauto | by left]. }
    destruct q1 as [|x q1].
    + (* the level [base] is finished: the queue holds level [base + 1] only *)
      simpl in Hq. destruct q2 as [|x q2]; [done|]. inversion Hq; subst x frontier.
      exists lvl, (S base), q2, []. split; simpl.
      * done.
      * done.
      * by rewrite app_nil_r.
      * intros c Hc. apply Hq2. by right.
      * intros c Hc. by apply elem_of_nil in Hc.
      * intros cur' rest' [= <- <-]. split; [apply Hq2; by left|]. done.
      * intros k Hk. specialize (Hbound k Hk). lia.
      * done.
    + simpl in Hq. inversion Hq; subst x frontier.
      exists lvl, base, q1, q2. split; simpl.
      * done.
      * done.
      * done.
      * intros c Hc. apply Hq1. by right.
      * done.
      * intros cur' rest' [= <- <-]. split; [apply Hq1; by left|]. done.
      * done.
      * done.
Qed.

Lemma trace_path_from_mono (graph : Graph) (f1 f2 : nat) (c : Cell)
    (acc path : list Cell) :
  (f1 <= f2)%nat -> trace_path_from f1 c graph acc = Returned path ->
  trace_path_from f2 c graph acc = Returned path.
Proof.
  revert f2 c acc. induction f1 as [|f1 IH]; intros f2 c acc Hle Hr; [done|].
  destruct f2 as [|f2]; [lia|]. simpl in *.
  destruct (parent graph !! key_of c) as [[p|]|]; try done.
  apply IH; [lia | done].
Qed.

Lemma trace_path_mono (graph : Graph) (f1 f2 : nat) (c : Cell) (path : list Cell) :
  (f1 <= f2)%nat -> trace_path f1 c graph = Returned path ->
  trace_path f2 c graph = Returned path.
Proof. apply trace_path_from_mono. Qed.

Lemma bfs_reachable_levels (goal : Cell) (graph : Graph) (start : Cell) (s : search_state) :
  reachable (search_step FIFO goal) (search_init (init_graph graph) start) s ->
  bfs_levels (init_graph graph) start goal s.
Proof.
  apply (reachable_inv (search_step FIFO goal) (bfs_levels (init_graph graph) start goal)).
  - intros ? ?. apply bfs_step_levels.
  - apply bfs_init_levels.
Qed.

Lemma bfs_inv_depth (graph0 : Graph) (start goal : Cell) (s : search_state)
    (lvl : Z * Z -> nat) (base : nat) (q1 q2 : list Cell) (c : Cell) (n : nat) :
  bfs_inv graph0 start goal s lvl base q1 q2 ->
  ancestor (parent (s_graph s)) c n start -> lvl (key_of c) = n.
Proof.
  intros Hb Hanc. pose proof (bi_start _ _ _ _ _ _ _ _ Hb) as H0.
  pose proof (bi_link _ _ _ _ _ _ _ _ Hb) as Hlink. clear Hb.
  induction Hanc as [c|c p n a Hc Ha IH]; [done|].
  destruct (Hlink c p Hc) as [_ ->]. by rewrite (IH H0).
Qed.

(** When the goal is at the head of the queue, every cell within as many
    steps of the start as the goal's level has been visited at a level no
    higher than its distance. *)
Lemma bfs_head_minimal (graph0 : Graph) (start goal : Cell) (s : search_state)
    (lvl : Z * Z -> nat) (base : nat) (q1 q2 : list Cell) (cur : Cell)
    (frontier : list Cell) :
  search_inv graph0 start s ->
  bfs_inv graph0 start goal s lvl base q1 q2 ->
  s_loop s = None -> s_frontier s = cur :: frontier ->
  forall k c, reach_in graph0 start k c -> (k <= lvl (key_of cur))%nat ->
    key_of c ∈ s_visited s /\ (lvl (key_of c) <= k)%nat.
Proof.
  intros Hinv Hb Hloop Hfr.
  assert (Hpend : forall c, pending s c -> (lvl (key_of cur) <= lvl (key_of c))%nat).
  { intros c [Hc|[rest Hc]]; [|congruence].
    pose proof (bi_queue _ _ _ _ _ _ _ _ Hb) as Hq. rewrite Hfr in Hq.
    rewrite Hfr in Hc. destruct q1 as [|x q1]; simpl in Hq.
    - rewrite (bi_q2 _ _ _ _ _ _ _ _ Hb cur) by (rewrite <- Hq; by left).
      rewrite (bi_q2 _ _ _ _ _ _ _ _ Hb c) by (by rewrite <- Hq). done.
    - inversion Hq; subst x frontier.
      rewrite (bi_q1 _ _ _ _ _ _ _ _ Hb cur) by (by left).
      apply elem_of_cons in Hc. destruct Hc as [->|Hc].
      + by rewrite (bi_q1 _ _ _ _ _ _ _ _ Hb cur) by (by left).
      + apply elem_of_app in Hc. destruct Hc as [Hc|Hc].
        * rewrite (bi_q1 _ _ _ _ _ _ _ _ Hb c); [done | by right].
        * rewrite (bi_q2 _ _ _ _ _ _ _ _ Hb c); [lia | done]. }
  intros k c Hr. induction Hr as [|k a b Hr IH He]; intros Hk.
  - split; [|rewrite (bi_start _ _ _ _ _ _ _ _ Hb); lia].
    apply (si_dom _ _ _ Hinv). rewrite (si_start _ _ _ Hinv). by eexists.
  - destruct (IH ltac:(lia)) as [Hav Hal].
    destruct (bi_done _ _ _ _ _ _ _ _ Hb a Hav) as [_ Hnb].
    { intros Hp. specialize (Hpend a Hp). lia. }
    destruct (Hnb b He) as [Hbv Hbl]. split; [done | lia].
Qed.

(** When the queue runs empty, everything reachable has been visited. *)
Lemma bfs_exhausted_complete (graph0 : Graph) (start goal : Cell) (s : search_state)
    (lvl : Z * Z -> nat) (base : nat) (q1 q2 : list Cell) :
  search_inv graph0 start s ->
  bfs_inv graph0 start goal s lvl base q1 q2 ->
  s_loop s = None -> s_frontier s = [] ->
  forall k c, reach_in graph0 start k c -> key_of c ∈ s_visited s /\ c <> goal.
Proof.
  intros Hinv Hb Hloop Hfr.
  assert (Hnp : forall c, ~ pending s c).
  { intros c [Hc|[rest Hc]]; [|congruence]. rewrite Hfr in Hc. by apply elem_of_nil in Hc. }
  assert (Hall : forall k c, reach_in graph0 start k c -> key_of c ∈ s_visited s).
  { intros k c Hr. induction Hr as [|k a b Hr IH He].
    - apply (si_dom _ _ _ Hinv). rewrite (si_start _ _ _ Hinv). by eexists.
    - destruct (bi_done _ _ _ _ _ _ _ _ Hb a IH (Hnp a)) as [_ Hnb].
      by destruct (Hnb b He). }
  intros k c Hr. split; [by eapply Hall|].
  by destruct (bi_done _ _ _ _ _ _ _ _ Hb c (Hall _ _ Hr) (Hnp c)).
Qed.

(** The run of breadth-first search to a reachable goal: the loop exits at
    the goal, and the goal's chain of parent links is as short as any path. *)
Lemma bfs_run_shortest (graph : Graph) (cells : list (Z * Z)) (start goal : Cell) :
  grid_closed graph cells -> key_of start ∈ cells ->
  reachable_cell graph start goal ->
  exists fuel0 final n,
    run (search_step FIFO goal) fuel0 (search_init (init_graph graph) start)
      = Some (final, GoalFound goal)
    /\ (forall fuel, (n < fuel)%nat ->
          exists path, trace_path fuel goal final = Returned path
                       /\ length path = S n /\ path_between graph start goal path)
    /\ forall q, path_between graph start goal q -> (n <= edge_count q)%nat.
Proof.
  intros Hcl Hstart [q0 Hq0].
  destruct (search_terminates FIFO goal graph start cells Hcl Hstart) as (fuel0 & [g e] & Hrun).
  destruct (run_exit _ _ _ _ Hrun) as (s & Hreach & Hexit).
  destruct (bfs_reachable_levels _ _ _ _ Hreach) as [Hinv (lvl & base & q1 & q2 & Hb)].
  destruct (search_step_exit _ _ _ _ _ Hexit) as (-> & Hloop & He).
  assert (Hq0' : reach_in (init_graph graph) start (edge_count q0) goal).
  { apply path_reach_in. by apply (path_between_ext graph (init_graph graph)). }
  destruct e as [cur|].
  - destruct He as (-> & frontier & Hfr).
    assert (Hv : key_of goal ∈ s_visited s).
    { apply (si_frontier _ _ _ Hinv). rewrite Hfr. by left. }
    destruct (search_inv_trace _ _ _ _ Hinv Hv) as (n & Hanc & Htr).
    exists fuel0, (s_graph s), n. split; [done|]. split.
    + intros fuel Hlt. destruct (Htr fuel Hlt) as (path & Hpath_eq & Hlen & Hpath).
      exists path. split; [done|]. split; [done|].
      by apply (path_between_ext (init_graph graph) graph).
    + intros q Hq.
      assert (Hr : reach_in (init_graph graph) start (edge_count q) goal).
      { apply path_reach_in. by apply (path_between_ext graph (init_graph graph)). }
      rewrite <- (bfs_inv_depth _ _ _ _ _ _ _ _ _ _ Hb Hanc).
      destruct (decide (edge_count q <= lvl (key_of goal))%nat) as [Hle|]; [|lia].
      destruct (bfs_head_minimal _ _ _ _ _ _ _ _ _ _ Hinv Hb Hloop Hfr _ _ Hr Hle). lia.
  - exfalso.
    by destruct (bfs_exhausted_complete _ _ _ _ _ _ _ _ Hinv Hb Hloop He _ _ Hq0').
Qed.

(** C1. On a finite grid whose goal can be reached from the start,
    [breadth_first_search] returns, with any large enough step budget, a path
    from the start to the goal along edges of the grid, and no path from the
    start to the goal has fewer edges. *)
Theorem bfs_shortest_path (graph : Graph) (cells : list (Z * Z)) (start goal : Cell) :
  grid_closed graph cells -> key_of start ∈ cells ->
  reachable_cell graph start goal ->
  exists fuel0 final path,
    (forall fuel, (fuel0 <= fuel)%nat ->
       breadth_first_search fuel graph start goal = Returned (final, path))
    /\ path_between graph start goal path
    /\ forall q, path_between graph start goal q ->
         (edge_count path <= edge_count q)%nat.
Proof.
  intros Hcl Hstart Hreach.
  destruct (bfs_run_shortest graph cells start goal Hcl Hstart Hreach)
    as (fuel0 & final & n & Hrun & Htr & Hmin).
  destruct (Htr (S n) ltac:(lia)) as (path & Hpath_eq & Hlen & Hpath).
  exists (fuel0 `max` S n)%nat, final, path. split; [|split].
  - intros fuel Hle. unfold breadth_first_search, search.
    rewrite (run_mono _ _ _ _ _ Hrun) by lia. simpl.
    by rewrite (trace_path_mono _ (S n) fuel _ _ ltac:(lia) Hpath_eq).
  - done.
  - intros q Hq. unfold edge_count at 1. rewrite Hlen. simpl. by apply Hmin.
Qed.

Lemma bfs_shortest_path_witness :
  exists fuel0 final path,
    (forall fuel, (fuel0 <= fuel)%nat ->
       breadth_first_search fuel open3 (mkCell 0 0) (mkCell 2 2) = Returned (final, path))
    /\ path_between open3 (mkCell 0 0) (mkCell 2 2) path
    /\ forall q, path_between open3 (mkCell 0 0) (mkCell 2 2) q ->
         (edge_count path <= edge_count q)%nat.
Proof.
  apply (bfs_shortest_path open3 (grid_cells 3 3) (mkCell 0 0) (mkCell 2 2)).
  - refine (bool_decide_unpack _ _); vm_compute; exact I.
  - refine (bool_decide_unpack _ _); vm_compute; exact I.
  - exists [mkCell 0 0; mkCell 0 1; mkCell 0 2; mkCell 1 2; mkCell 2 2].
    refine (bool_decide_unpack _ _); vm_compute; exact I.
Defined.

(** ** A* finds a shortest path on a grid of unit steps *)

(** The Manhattan distance obeys the triangle inequality, so on a grid of
    unit steps the heuristic drops by at most one along an edge. *)
Lemma heuristic_triangle (a b c : Cell) :
  heuristic a c <= heuristic a b + heuristic b c.
Proof. unfold heuristic. lia. Qed.

Lemma heuristic_consistent (graph : Graph) (cells : list (Z * Z)) (goal a b : Cell) :
  unit_steps graph cells -> key_of a ∈ cells -> edge graph a b ->
  heuristic a goal <= 1 + heuristic b goal.
Proof.
  unfold unit_steps, edge. rewrite Forall_forall. intros Hu Ha Hb.
  specialize (Hu _ Ha). rewrite Forall_forall in Hu. specialize (Hu _ Hb).
  rewrite cell_of_key in Hu. pose proof (heuristic_triangle a b goal). lia.
Qed.

Lemma reach_in_cells (graph : Graph) (cells : list (Z * Z)) (start c : Cell) (n : nat) :
  grid_closed graph cells -> key_of start ∈ cells -> reach_in graph start n c ->
  key_of c ∈ cells.
Proof.
  intros Hcl Hs Hr. induction Hr as [|n a b Hr IH He]; [done|].
  by eapply grid_closed_edge.
Qed.

(** Between the passes of the [for] loop, every walk from the start either
    ends in a closed cell of cost at most its length, or passes an open cell
    whose [f] is at most the walk's length plus the heuristic of its end. *)
Lemma astar_frontier (graph0 : Graph) (start goal : Cell) (cells : list (Z * Z))
    (s : astar_state) :
  grid_closed graph0 cells -> unit_steps graph0 cells -> key_of start ∈ cells ->
  astar_optimal graph0 start goal cells s -> a_loop s = None ->
  forall m c, reach_in graph0 start m c ->
    (key_of c ∈ closed s /\ exists gc, g_cost s !! key_of c = Some gc /\ gc <= Z.of_nat m)
    \/ (exists x gx, (key_of x ∉ closed s) /\ g_cost s !! key_of x = Some gx
                     /\ gx + heuristic x goal <= Z.of_nat m + heuristic c goal).
Proof.
  intros Hcl Hu Hs [[Hinv Hsub] Hopt] Hloop m c Hr.
  induction Hr as [|m a b Hr IH He].
  - destruct (ai_start _ _ _ _ Hinv) as [_ Hg0].
    destruct (decide (key_of start ∈ closed s)) as [Hc|Hc].
    + left. split; [done|]. exists 0. split; [done | lia].
    + right. exists start, 0. split; [done|]. split; [done | lia].
  - assert (Ha : key_of a ∈ cells) by (by eapply reach_in_cells).
    pose proof (heuristic_consistent _ _ goal _ _ Hu Ha He) as Hcons.
    destruct IH as [[Hac (ga & Hga & Hle)]|(x & gx & Hx & Hgx & Hle)].
    + destruct (ao_done _ _ _ _ Hopt a ga Hac Hga) with (n := b) as (gb & Hgb & Hle');
        [intros g rest; by rewrite Hloop | done |].
      destruct (decide (key_of b ∈ closed s)) as [Hbc|Hbc].
      * left. split; [done|]. exists gb. split; [done | lia].
      * right. exists b, gb. split; [done|]. split; [done | lia].
    + right. exists x, gx. split; [done|]. split; [done | lia].
Qed.

(** The entry popped for a cell not yet closed carries the length of a
    shortest walk to that cell. *)
Lemma astar_pop_minimal (graph0 : Graph) (start goal : Cell) (cells : list (Z * Z))
    (s : astar_state) (e : entry) (heap : list entry) :
  grid_closed graph0 cells -> unit_steps graph0 cells -> key_of start ∈ cells ->
  astar_optimal graph0 start goal cells s -> a_loop s = None ->
  heappop (open_heap s) = Some (e, heap) -> key_of (e_cell e) ∉ closed s ->
  forall m, reach_in graph0 start m (e_cell e) -> e_g e <= Z.of_nat m.
Proof.
  intros Hcl Hu Hs Hopt Hloop Hpop Hopen m Hr.
  destruct (astar_frontier _ _ _ _ _ Hcl Hu Hs Hopt Hloop _ _ Hr)
    as [[Hc _]|(x & gx & Hx & Hgx & Hle)]; [done|].
  destruct Hopt as [[Hinv _] _].
  destruct (heappop_spec _ _ _ Hpop) as [Hperm Hmin].
  assert (He : e ∈ open_heap s) by (rewrite <- Hperm; by left).
  destruct (ai_heap _ _ _ _ Hinv e He) as (Hf & _ & _).
  destruct (ai_open _ _ _ _ Hinv _ _ Hgx Hx) as (ex & Hex & Hkey & Hg).
  destruct (ai_heap _ _ _ _ Hinv ex Hex) as (Hfx & _ & _).
  apply key_of_inj in Hkey. rewrite Hkey in Hfx.
  specialize (Hmin ex Hex). unfold entry_lt in Hmin. lia.
Qed.

Lemma astar_init_optimal (graph : Graph) (start goal : Cell) (cells : list (Z * Z)) :
  key_of start ∈ cells ->
  astar_optimal (init_graph graph) start goal cells
    (astar_init (init_graph graph) start goal).
Proof.
  intros Hs. split; [split|].
  - apply astar_init_inv.
  - simpl. intros k [v Hk]. destruct (decide (key_of start = k)) as [<-|Hne]; [done|].
    by rewrite lookup_singleton_ne in Hk.
  - split; simpl; try done; intros;
      match goal with H : _ ∈ ∅ |- _ => by apply not_elem_of_empty in H end.
Qed.

Lemma astar_step_optimal (goal : Cell) (graph0 : Graph) (start : Cell)
    (cells : list (Z * Z)) (s s' : astar_state) :
  grid_closed graph0 cells -> unit_steps graph0 cells -> key_of start ∈ cells ->
  astar_optimal graph0 start goal cells s -> astar_step goal s = inl s' ->
  astar_optimal graph0 start goal cells s'.
Proof.
  intros Hcl Hu Hs Hall Hstep.
  pose proof Hall as [Hbnd Hopt].
  split; [by eapply astar_step_bounded|].
  pose proof Hbnd as [Hinv Hsub].
  pose proof Hopt as [Hgoal Hheap Hloop Hdist Hdone].
  destruct s as [graph heap gc cnt cl loop]. unfold astar_step in Hstep.
  simpl in *. destruct loop as [[[g cur] [|nbr rest]]|].
  - (* the for loop is over: [cur] is done *)
    injection Hstep as <-.
    destruct (Hloop g cur [] eq_refl) as (Hcl_le & Hheap_ge & Hnb).
    destruct (ai_loop _ _ _ _ Hinv g cur [] eq_refl) as (Hcc & Hgcur & _). simpl in *.
    split; simpl; try done.
    intros c gc' Hc Hgc _ n Hn. destruct (decide (c = cur)) as [->|Hne].
    + destruct (Hnb n Hn) as [Hin|Hex]; [by apply elem_of_nil in Hin|].
      assert (gc' = g) as -> by congruence. done.
    + apply (Hdone c gc' Hc Hgc); [|done]. intros g' rest' [= _ ? _]. done.
  - destruct (Hloop g cur (nbr :: rest) eq_refl) as (Hcl_le & Hheap_ge & Hnb).
    destruct (ai_loop _ _ _ _ Hinv g cur (nbr :: rest) eq_refl) as (Hcc & Hgcur & Hrest).
    simpl in *.
    assert (Hcons : heuristic cur goal <= 1 + heuristic nbr goal).
    { eapply heuristic_consistent; [done | | apply Hrest; by left].
      apply Hsub. by eexists. }
    assert (Hsame : forall gn, gc !! key_of nbr = Some gn -> gn <= g + 1 ->
              astar_opt graph0 start goal
                (mkAstar graph heap gc cnt cl (Some (g, cur, rest)))).
    { intros gn Hgn Hle. split; simpl; try done.
      - intros g' cur' rest' [= <- <- <-]. split; [done|]. split; [done|].
        intros n Hn. destruct (Hnb n Hn) as [Hin|Hex]; [|by right].
        apply elem_of_cons in Hin. destruct Hin as [->|Hin]; [|by left].
        right. eauto.
      - intros c gc' Hc Hgc Hnl. apply (Hdone c gc' Hc Hgc).
        intros g' rest' [= _ -> _]. by apply (Hnl g rest). }
    destruct (decide (key_of nbr ∈ cl)) as [Hin|Hnotin].
    + (* a closed neighbour *)
      injection Hstep as <-.
      destruct (ai_closed _ _ _ _ Hinv _ Hin) as [gn Hgn]. simpl in Hgn.
      apply (Hsame gn Hgn). specialize (Hcl_le _ _ Hin Hgn).
      rewrite cell_of_key in Hcl_le. lia.
    + destruct (gc !! key_of nbr) as [old|] eqn:Hold.
      * destruct (g + 1 <? old) eqn:Hlt.
        -- (* a cheaper way to an open neighbour *)
           injection Hstep as <-. apply Z.ltb_lt in Hlt.
           split; simpl.
           ++ done.
           ++ intros k gk e Hk Hgk He.
              assert (Hne : key_of nbr <> k) by congruence.
              rewrite lookup_insert_ne in Hgk by done.
              unfold heappush in He. apply elem_of_app in He. destruct He as [He|He].
              ** by eapply Hheap.
              ** apply list_elem_of_singleton in He. subst e. simpl.
                 specialize (Hcl_le k gk Hk Hgk). lia.
           ++ intros g' cur' rest' [= <- <- <-]. split; [|split].
              ** intros k gk Hk Hgk. assert (Hne : key_of nbr <> k) by congruence.
                 rewrite lookup_insert_ne in Hgk by done. by eapply Hcl_le.
              ** intros e He. unfold heappush in He. apply elem_of_app in He.
                 destruct He as [He|He]; [by apply Hheap_ge|].
                 apply list_elem_of_singleton in He. subst e. simpl. lia.
              ** intros n Hn. destruct (decide (key_of nbr = key_of n)) as [Heq|Hne].
                 --- right. exists (g + 1). rewrite <- Heq, lookup_insert_eq. split; [done|lia].
                 --- rewrite lookup_insert_ne by done.
                     destruct (Hnb n Hn) as [Hin|Hex]; [|by right].
                     apply elem_of_cons in Hin. destruct Hin as [->|Hin]; [done | by left].
           ++ intros k gk m Hk Hgk. assert (Hne : key_of nbr <> k) by congruence.
              rewrite lookup_insert_ne in Hgk by done. by eapply Hdist.
           ++ intros c gc' Hc Hgc Hnl n Hn.
              assert (Hne : key_of nbr <> key_of c) by congruence.
              rewrite lookup_insert_ne in Hgc by done.
              destruct (Hdone c gc' Hc Hgc) with (n := n) as (gn & Hgn & Hle).
              { intros g' rest' [= _ -> _]. by apply (Hnl g rest). }
              { done. }
              destruct (decide (key_of nbr = key_of n)) as [Heq|Hne'].
              ** exists (g + 1). rewrite <- Heq, lookup_insert_eq. split; [done|].
                 rewrite <- Heq in Hgn. assert (gn = old) by congruence. lia.
              ** exists gn. by rewrite lookup_insert_ne.
        -- (* no cheaper way *)
           injection Hstep as <-. apply Z.ltb_ge in Hlt. by apply (Hsame old).
      * (* a neighbour seen for the first time *)
        injection Hstep as <-.
        split; simpl.
        -- done.
        -- intros k gk e Hk Hgk He.
           assert (Hne : key_of nbr <> k) by congruence.
           rewrite lookup_insert_ne in Hgk by done.
           unfold heappush in He. apply elem_of_app in He. destruct He as [He|He].
           ++ by eapply Hheap.
           ++ apply list_elem_of_singleton in He. subst e. simpl.
              specialize (Hcl_le k gk Hk Hgk). lia.
        -- intros g' cur' rest' [= <- <- <-]. split; [|split].
           ++ intros k gk Hk Hgk. assert (Hne : key_of nbr <> k) by congruence.
              rewrite lookup_insert_ne in Hgk by done. by eapply Hcl_le.
           ++ intros e He. unfold heappush in He. apply elem_of_app in He.
              destruct He as [He|He]; [by apply Hheap_ge|].
              apply list_elem_of_singleton in He. subst e. simpl. lia.
           ++ intros n Hn. destruct (decide (key_of nbr = key_of n)) as [Heq|Hne].
              ** right. exists (g + 1). rewrite <- Heq, lookup_insert_eq. split; [done|lia].
              ** rewrite lookup_insert_ne by done.
                 destruct (Hnb n Hn) as [Hin|Hex]; [|by right].
                 apply elem_of_cons in Hin. destruct Hin as [->|Hin]; [done | by left].
        -- intros k gk m Hk Hgk. assert (Hne : key_of nbr <> k) by congruence.
           rewrite lookup_insert_ne in Hgk by done. by eapply Hdist.
        -- intros c gc' Hc Hgc Hnl n Hn.
           assert (Hne : key_of nbr <> key_of c) by congruence.
           rewrite lookup_insert_ne in Hgc by done.
           destruct (Hdone c gc' Hc Hgc) with (n := n) as (gn & Hgn & Hle).
           { intros g' rest' [= _ -> _]. by apply (Hnl g rest). }
           { done. }
           destruct (decide (key_of nbr = key_of n)) as [Heq|Hne'].
           ++ rewrite <- Heq in Hgn. congruence.
           ++ exists gn. by rewrite lookup_insert_ne.
  - destruct (heappop heap) as [[e heap']|] eqn:Hpop; [|done].
    destruct (heappop_spec _ _ _ Hpop) as [Hperm Hmin].
    assert (Hsubh : forall x, x ∈ heap' -> x ∈ heap).
    { intros x Hx. rewrite <- Hperm. by right. }
    assert (He : e ∈ heap) by (rewrite <- Hperm; by left).
    destruct (decide (key_of (e_cell e) ∈ cl)) as [Hin|Hnotin].
    + (* a stale entry *)
      injection Hstep as <-. split; simpl; try done.
      intros k gk x Hk Hgk Hx. eapply Hheap; [done | done | by apply Hsubh].
    + pose proof (astar_popped_cost _ _ _ _ _ _ Hinv Hpop Hnotin) as Hg. simpl in Hg.
      pose proof (astar_pop_minimal graph0 start goal cells _ e heap' Hcl Hu Hs Hall
                    eq_refl Hpop Hnotin) as Hminimal.
      destruct (ai_heap _ _ _ _ Hinv e He) as (Hf & _ & _).
      destruct (at_goal (e_cell e) goal) eqn:Hag; [done|]. apply at_goal_false in Hag.
      injection Hstep as <-. split; simpl.
      * intros Hc. apply elem_of_union in Hc. destruct Hc as [Hc|Hc]; [|done].
        apply elem_of_singleton, key_of_inj in Hc. congruence.
      * intros k gk x Hk Hgk Hx. apply elem_of_union in Hk. destruct Hk as [Hk|Hk].
        -- apply elem_of_singleton in Hk. subst k. rewrite cell_of_key.
           assert (gk = e_g e) as -> by congruence.
           specialize (Hmin x (Hsubh x Hx)). unfold entry_lt in Hmin. lia.
        -- eapply Hheap; [done | done | by apply Hsubh].
      * intros g' cur' rest' [= <- <- <-]. split; [|split].
        -- intros k gk Hk Hgk. apply elem_of_union in Hk. destruct Hk as [Hk|Hk].
           ++ apply elem_of_singleton in Hk. subst k. rewrite cell_of_key.
              assert (gk = e_g e) as -> by congruence. lia.
           ++ specialize (Hheap k gk e Hk Hgk He). lia.
        -- intros x Hx. specialize (Hmin x (Hsubh x Hx)). unfold entry_lt in Hmin. lia.
        -- intros n Hn. left. unfold edge in Hn.
           pose proof (ai_nbrs _ _ _ _ Hinv) as Hnb0. simpl in Hnb0. by rewrite Hnb0.
      * intros k gk m Hk Hgk Hr. apply elem_of_union in Hk. destruct Hk as [Hk|Hk].
        -- apply elem_of_singleton in Hk. subst k. rewrite cell_of_key in Hr.
           assert (gk = e_g e) as -> by congruence. by apply Hminimal.
        -- by eapply Hdist.
      * intros c gc' Hc Hgc Hnl n Hn. apply elem_of_union in Hc. destruct Hc as [Hc|Hc].
        -- apply elem_of_singleton, key_of_inj in Hc. subst c.
           by destruct (Hnl (e_g e) (find_neighbors graph (cell_i (e_cell e)) (cell_j (e_cell e)))).
        -- by apply (Hdone c gc' Hc Hgc).
Qed.

Lemma astar_reachable_optimal (goal : Cell) (graph : Graph) (start : Cell)
    (cells : list (Z * Z)) (s : astar_state) :
  grid_closed graph cells -> unit_steps graph cells -> key_of start ∈ cells ->
  reachable (astar_step goal) (astar_init (init_graph graph) start goal) s ->
  astar_optimal (init_graph graph) start goal cells s.
Proof.
  intros Hcl Hu Hs.
  apply (reachable_inv (astar_step goal)
           (astar_optimal (init_graph graph) start goal cells)).
  - intros ? ?. by apply astar_step_optimal.
  - by apply astar_init_optimal.
Qed.

(** The run of A* to a reachable goal on a grid of unit steps: the loop
    exits at the goal, and the goal's chain of parent links is as short as
    any path. *)
Lemma astar_run_shortest (graph : Graph) (cells : list (Z * Z)) (start goal : Cell) :
  grid_closed graph cells -> unit_steps graph cells -> key_of start ∈ cells ->
  reachable_cell graph start goal ->
  exists fuel0 final n,
    run (astar_step goal) fuel0 (astar_init (init_graph graph) start goal)
      = Some (final, GoalFound goal)
    /\ (forall fuel, (n < fuel)%nat ->
          exists path, trace_path fuel goal final = Returned path
                       /\ length path = S n /\ path_between graph start goal path)
    /\ forall q, path_between graph start goal q -> (n <= edge_count q)%nat.
Proof.
  intros Hcl Hu Hstart [q0 Hq0].
  assert (Hcl' : grid_closed (init_graph graph) cells) by exact Hcl.
  assert (Hu' : unit_steps (init_graph graph) cells) by exact Hu.
  destruct (astar_terminates goal graph start cells Hcl Hstart) as (fuel0 & [g e] & Hrun).
  destruct (run_exit _ _ _ _ Hrun) as (s & Hreach & Hexit).
  pose proof (astar_reachable_optimal _ _ _ _ _ Hcl Hu Hstart Hreach) as Hall.
  pose proof Hall as [[Hinv Hsub] Hopt].
  destruct (astar_step_exit _ _ _ _ Hexit) as (Hloop & He).
  assert (Hq0' : reach_in (init_graph graph) start (edge_count q0) goal).
  { apply path_reach_in. by apply (path_between_ext graph (init_graph graph)). }
  destruct e as [cur|].
  - destruct He as (-> & -> & Hopen & x & heap & Hpop & Hx).
    assert (Hgx : g_cost s !! key_of goal = Some (e_g x)).
    { rewrite <- Hx. eapply astar_popped_cost; [done | done | by rewrite Hx]. }
    destruct (astar_inv_trace _ _ _ _ goal Hinv ltac:(by eexists))
      as (n & Hanc & Hgn & Htr).
    exists fuel0, (log_visited goal (a_graph s)), n. split; [done|]. split.
    + intros fuel Hlt.
      destruct (Htr (log_visited goal (a_graph s)) fuel Hlt (ai_nbrs _ _ _ _ Hinv) eq_refl)
        as (path & Hpath_eq & Hlen & Hpath).
      exists path. split; [done|]. split; [done|].
      by apply (path_between_ext (init_graph graph) graph).
    + intros q Hq.
      assert (Hr : reach_in (init_graph graph) start (edge_count q) goal).
      { apply path_reach_in. by apply (path_between_ext graph (init_graph graph)). }
      rewrite <- Hx in Hr, Hopen.
      pose proof (astar_pop_minimal _ _ _ _ _ _ _ Hcl' Hu' Hstart Hall Hloop Hpop Hopen _ Hr).
      assert (e_g x = Z.of_nat n) by congruence. lia.
  - exfalso. destruct He as [Hheap _].
    destruct (astar_frontier _ _ _ _ _ Hcl' Hu' Hstart Hall Hloop _ _ Hq0')
      as [[Hc _]|(x & gx & Hx & Hgx & _)].
    + by apply (ao_goal _ _ _ _ Hopt).
    + destruct (ai_open _ _ _ _ Hinv _ _ Hgx Hx) as (ex & Hex & _).
      rewrite Hheap in Hex. by apply elem_of_nil in Hex.
Qed.

(** C2, as stated, fails: on an 8-connected grid the Manhattan heuristic
    overestimates, and A* returns a path of four edges from (0, 0) to (2, 3)
    where breadth-first search returns one of three. *)
Lemma astar_longer_than_bfs_diagonal :
  grid_closed diagonal34 (grid_cells 3 4)
  /\ returned_path (a_star_search 100 diagonal34 (mkCell 0 0) (mkCell 2 3))
     = Some [mkCell 0 0; mkCell 1 0; mkCell 2 1; mkCell 2 2; mkCell 2 3]
  /\ returned_path (breadth_first_search 100 diagonal34 (mkCell 0 0) (mkCell 2 3))
     = Some [mkCell 0 0; mkCell 0 1; mkCell 1 2; mkCell 2 3].
Proof.
  split; [refine (bool_decide_unpack _ _); vm_compute; exact I|].
  split; vm_compute; reflexivity.
Qed.

(** C2, amended. On a finite grid of unit steps (every neighbour at Manhattan
    distance at most one) whose goal can be reached from the start,
    [a_star_search] and [breadth_first_search] both return a path, with any
    large enough step budget, and the two paths have the same length. *)
Theorem astar_path_as_short_as_bfs (graph : Graph) (cells : list (Z * Z))
    (start goal : Cell) :
  grid_closed graph cells -> unit_steps graph cells -> key_of start ∈ cells ->
  reachable_cell graph start goal ->
  exists fuel0 ga pa gb pb,
    (forall fuel, (fuel0 <= fuel)%nat ->
       a_star_search fuel graph start goal = Returned (ga, pa)
       /\ breadth_first_search fuel graph start goal = Returned (gb, pb))
    /\ path_between graph start goal pa
    /\ path_between graph start goal pb
    /\ length pa = length pb.
Proof.
  intros Hcl Hu Hstart Hreach.
  destruct (astar_run_shortest graph cells start goal Hcl Hu Hstart Hreach)
    as (fa & ga & na & Hruna & Htra & Hmina).
  destruct (bfs_run_shortest graph cells start goal Hcl Hstart Hreach)
    as (fb & gb & nb & Hrunb & Htrb & Hminb).
  destruct (Htra (S na) ltac:(lia)) as (pa & Hpa_eq & Hlena & Hpa).
  destruct (Htrb (S nb) ltac:(lia)) as (pb & Hpb_eq & Hlenb & Hpb).
  exists ((fa `max` S na) `max` (fb `max` S nb))%nat, ga, pa, gb, pb.
  split; [|split; [done|split; [done|]]].
  - intros fuel Hle. split.
    + unfold a_star_search. rewrite (run_mono _ _ _ _ _ Hruna) by lia. simpl.
      by rewrite (trace_path_mono _ (S na) fuel _ _ ltac:(lia) Hpa_eq).
    + unfold breadth_first_search, search.
      rewrite (run_mono _ _ _ _ _ Hrunb) by lia. simpl.
      by rewrite (trace_path_mono _ (S nb) fuel _ _ ltac:(lia) Hpb_eq).
  - specialize (Hmina pb Hpb). specialize (Hminb pa Hpa).
    unfold edge_count in *. rewrite Hlena, Hlenb in *. simpl in *. lia.
Qed.

Lemma astar_path_as_short_as_bfs_witness :
  exists fuel0 ga pa gb pb,
    (forall fuel, (fuel0 <= fuel)%nat ->
       a_star_search fuel open3 (mkCell 0 0) (mkCell 2 2) = Returned (ga, pa)
       /\ breadth_first_search fuel open3 (mkCell 0 0) (mkCell 2 2) = Returned (gb, pb))
    /\ path_between open3 (mkCell 0 0) (mkCell 2 2) pa
    /\ path_between open3 (mkCell 0 0) (mkCell 2 2) pb
    /\ length pa = length pb.
Proof.
  apply (astar_path_as_short_as_bfs open3 (grid_cells 3 3) (mkCell 0 0) (mkCell 2 2)).
  - refine (bool_decide_unpack _ _); vm_compute; exact I.
  - refine (bool_decide_unpack _ _); vm_compute; exact I.
  - refine (bool_decide_unpack _ _); vm_compute; exact I.
  - exists [mkCell 0 0; mkCell 0 1; mkCell 0 2; mkCell 1 2; mkCell 2 2].
    refine (bool_decide_unpack _ _); vm_compute; exact I.
Defined.

(** ** The order in which A* pops its frontier *)

(** C3, as stated, fails: 24 steps into the run from (1, 4) to (0, 0) on
    [walls35] the loop is at its [while] test and the heap holds two entries
    of [f] = 7; the pop takes the one pushed later (counter 7, [g] = 3) and
    leaves the one pushed earlier (counter 5, [g] = 4). *)
Lemma astar_pop_not_in_insertion_order :
  a_loop (state_after (astar_step (mkCell 0 0)) 24
            (astar_init (init_graph walls35) (mkCell 1 4) (mkCell 0 0))) = None
  /\ heappop (open_heap (state_after (astar_step (mkCell 0 0)) 24
                           (astar_init (init_graph walls35) (mkCell 1 4) (mkCell 0 0))))
     = Some (mkEntry 7 3 7 (mkCell 2 2), [mkEntry 7 4 5 (mkCell 1 2)]).
Proof. split; vm_compute; reflexivity. Qed.

(** C3, amended. Whenever the frontier of [a_star_search] is popped, the
    entry removed comes before every entry left in the heap in the order of
    the tuples: it has the lowest [f]; among entries of equal [f] it has the
    lowest [g]; and among entries equal in both it has the lowest counter.
    No two entries of the heap carry the same counter, so the order never
    looks at the cells. *)
Theorem astar_pop_order (graph : Graph) (start goal : Cell) (s : astar_state)
    (e : entry) (rest : list entry) :
  reachable (astar_step goal) (astar_init (init_graph graph) start goal) s ->
  heappop (open_heap s) = Some (e, rest) ->
  e :: rest ≡ₚ open_heap s
  /\ NoDup (e_counter <$> open_heap s)
  /\ forall e', e' ∈ rest -> entry_lt e e'.
Proof.
  intros Hreach Hpop.
  pose proof (astar_reachable_inv _ _ _ _ Hreach) as Hinv.
  destruct (heappop_spec _ _ _ Hpop) as [Hperm Hmin].
  pose proof (ai_counters _ _ _ _ Hinv) as Hnodup.
  split; [done|]. split; [done|]. intros e' He'.
  assert (Hge : ~ entry_lt e' e).
  { apply Hmin. rewrite <- Hperm. by right. }
  assert (Hne : e_counter e <> e_counter e').
  { rewrite <- Hperm in Hnodup. simpl in Hnodup. apply NoDup_cons in Hnodup.
    destruct Hnodup as [Hnotin _]. intros Heq. apply Hnotin. rewrite Heq.
    apply list_elem_of_fmap. by exists e'. }
  unfold entry_lt in *. lia.
Qed.

Lemma astar_pop_order_witness :
  [mkEntry 7 3 7 (mkCell 2 2); mkEntry 7 4 5 (mkCell 1 2)]
    ≡ₚ open_heap (state_after (astar_step (mkCell 0 0)) 24
                    (astar_init (init_graph walls35) (mkCell 1 4) (mkCell 0 0)))
  /\ NoDup (e_counter <$> open_heap (state_after (astar_step (mkCell 0 0)) 24
                            (astar_init (init_graph walls35) (mkCell 1 4) (mkCell 0 0))))
  /\ forall e', e' ∈ [mkEntry 7 4 5 (mkCell 1 2)] -> entry_lt (mkEntry 7 3 7 (mkCell 2 2)) e'.
Proof.
  apply (astar_pop_order walls35 (mkCell 1 4) (mkCell 0 0)
           (state_after (astar_step (mkCell 0 0)) 24
              (astar_init (init_graph walls35) (mkCell 1 4) (mkCell 0 0)))).
  - apply state_after_reachable.
  - vm_compute. reflexivity.
Defined.

(** ** The parent map is a forest; entries are written once *)

Lemma search_inv_forest (graph0 : Graph) (start : Cell) (s : search_state) :
  search_inv graph0 start s -> forest_rooted_at start (parent (s_graph s)).
Proof.
  intros Hinv. pose proof (si_start _ _ _ Hinv) as Hs.
  split; [done|]. split; [apply (si_root _ _ _ Hinv)|].
  intros c n Hcyc.
  assert (Hsome : is_Some (parent (s_graph s) !! key_of c)).
  { inversion Hcyc; subst. by eexists. }
  destruct (si_root _ _ _ Hinv c Hsome) as [m Hm].
  by eapply rooted_acyclic.
Qed.

Lemma astar_inv_forest (graph0 : Graph) (start goal : Cell) (s : astar_state) :
  astar_inv graph0 start goal s -> forest_rooted_at start (parent (a_graph s)).
Proof.
  intros Hinv. destruct (ai_start _ _ _ _ Hinv) as [Hs _].
  split; [done|]. split; [apply (ai_root _ _ _ _ Hinv)|].
  intros c n Hcyc.
  assert (Hsome : is_Some (parent (a_graph s) !! key_of c)).
  { inversion Hcyc; subst. by eexists. }
  destruct (ai_root _ _ _ _ Hinv c Hsome) as [m Hm].
  by eapply rooted_acyclic.
Qed.

(** A step of depth-first or breadth-first search leaves every parent entry
    as it is. *)
Lemma search_step_keeps (d : discipline) (goal : Cell) (graph0 : Graph) (start : Cell)
    (s s' : search_state) (k : Z * Z) (v : option Cell) :
  search_inv graph0 start s -> search_step d goal s = inl s' ->
  parent (s_graph s) !! k = Some v -> parent (s_graph s') !! k = Some v.
Proof.
  intros Hinv Hstep Hk. pose proof (si_dom _ _ _ Hinv) as Hdom.
  destruct s as [graph frontier visited loop]. unfold search_step in Hstep.
  simpl in *. destruct loop as [[cur [|nbr rest]]|].
  - by injection Hstep as <-.
  - destruct (decide (key_of nbr ∈ visited)) as [Hin|Hnotin]; injection Hstep as <-; [done|].
    simpl. rewrite lookup_insert_ne; [done|]. intros <-. apply Hnotin, Hdom. by eexists.
  - destruct frontier as [|cur frontier]; [done|].
    destruct (at_goal cur goal); [done|]. by injection Hstep as <-.
Qed.

(** A step of A* leaves a parent entry as it is unless it lowers the cost
    recorded for that cell. *)
Lemma astar_step_keeps (goal : Cell) (graph0 : Graph) (start : Cell)
    (s s' : astar_state) (k : Z * Z) (v : option Cell) :
  astar_inv graph0 start goal s -> astar_step goal s = inl s' ->
  parent (a_graph s) !! k = Some v ->
  parent (a_graph s') !! k = Some v
  \/ exists old new, g_cost s !! k = Some old /\ g_cost s' !! k = Some new /\ new < old.
Proof.
  intros Hinv Hstep Hk. pose proof (ai_dom _ _ _ _ Hinv) as Hdom.
  destruct s as [graph heap gc cnt cl loop]. unfold astar_step in Hstep.
  simpl in *. destruct loop as [[[g cur] [|nbr rest]]|].
  - injection Hstep as <-. by left.
  - destruct (decide (key_of nbr ∈ cl)); [injection Hstep as <-; by left|].
    destruct (gc !! key_of nbr) as [old|] eqn:Hold.
    + destruct (g + 1 <? old) eqn:Hlt; injection Hstep as <-; [|by left].
      apply Z.ltb_lt in Hlt. simpl. destruct (decide (key_of nbr = k)) as [<-|Hne].
      * right. exists old, (g + 1). by rewrite lookup_insert_eq.
      * left. by rewrite lookup_insert_ne.
    + injection Hstep as <-. simpl. left. rewrite lookup_insert_ne; [done|].
      intros <-. assert (is_Some (gc !! key_of nbr)) as [? ?]; [|congruence].
      apply Hdom. by eexists.
  - destruct (heappop heap) as [[e heap']|]; [|done].
    destruct (decide (key_of (e_cell e) ∈ cl)); [injection Hstep as <-; by left|].
    destruct (at_goal (e_cell e) goal); [done|]. injection Hstep as <-. by left.
Qed.

(** C6. In every state of a run of any of the three searches the parent map
    is a forest rooted at the start cell: the start has the entry [None],
    every cell with an entry leads to the start along parent links, and no
    chain of parent links returns to its first cell.  A step of depth-first
    or breadth-first search never changes an entry once written; a step of
    A* changes an entry only when it records a strictly lower cost for that
    cell. *)
Theorem parent_map_is_forest (graph : Graph) (start goal : Cell) :
  (forall d s,
     reachable (search_step d goal) (search_init (init_graph graph) start) s ->
     forest_rooted_at start (parent (s_graph s))
     /\ forall s' k v, search_step d goal s = inl s' ->
          parent (s_graph s) !! k = Some v -> parent (s_graph s') !! k = Some v)
  /\ (forall s,
        reachable (astar_step goal) (astar_init (init_graph graph) start goal) s ->
        forest_rooted_at start (parent (a_graph s))
        /\ forall s' k v, astar_step goal s = inl s' ->
             parent (a_graph s) !! k = Some v ->
             parent (a_graph s') !! k = Some v
             \/ exists old new, g_cost s !! k = Some old /\ g_cost s' !! k = Some new
                                /\ new < old).
Proof.
  split.
  - intros d s Hreach. pose proof (search_reachable_inv _ _ _ _ _ Hreach) as Hinv.
    split; [by eapply search_inv_forest|].
    intros s' k v. by eapply search_step_keeps.
  - intros s Hreach. pose proof (astar_reachable_inv _ _ _ _ Hreach) as Hinv.
    split; [by eapply astar_inv_forest|].
    intros s' k v. by eapply astar_step_keeps.
Qed.

Lemma parent_map_is_forest_witness :
  forest_rooted_at (mkCell 0 0)
    (parent (s_graph (state_after (search_step LIFO (mkCell 2 2)) 12
                        (search_init (init_graph open3) (mkCell 0 0)))))
  /\ forest_rooted_at (mkCell 0 0)
       (parent (s_graph (state_after (search_step FIFO (mkCell 2 2)) 12
                           (search_init (init_graph open3) (mkCell 0 0)))))
  /\ forest_rooted_at (mkCell 0 0)
       (parent (a_graph (state_after (astar_step (mkCell 2 2)) 12
                           (astar_init (init_graph open3) (mkCell 0 0) (mkCell 2 2))))).
Proof.
  pose proof (parent_map_is_forest open3 (mkCell 0 0) (mkCell 2 2)) as [Hu Ha].
  split; [|split].
  - exact (proj1 (Hu LIFO _ (state_after_reachable _ 12 _))).
  - exact (proj1 (Hu FIFO _ (state_after_reachable _ 12 _))).
  - exact (proj1 (Ha _ (state_after_reachable _ 12 _))).
Defined.

(** ** Every cell put in the frontier has a parent entry *)

Lemma search_run_keeps (d : discipline) (goal : Cell) (graph0 : Graph) (start : Cell)
    (s s2 : search_state) (k : Z * Z) (v : option Cell) :
  search_inv graph0 start s -> reachable (search_step d goal) s s2 ->
  parent (s_graph s) !! k = Some v -> parent (s_graph s2) !! k = Some v.
Proof.
  intros Hinv Hreach Hk. induction Hreach as [|t t' Hreach IH Hstep]; [done|].
  eapply search_step_keeps; [|done|done].
  eapply (reachable_inv (search_step d goal) (search_inv graph0 start)); [|done|done].
  intros ? ?. apply search_step_inv.
Qed.

Lemma astar_run_keeps (goal : Cell) (graph0 : Graph) (start : Cell)
    (s s2 : astar_state) (k : Z * Z) :
  astar_inv graph0 start goal s -> reachable (astar_step goal) s s2 ->
  is_Some (parent (a_graph s) !! k) -> is_Some (parent (a_graph s2) !! k).
Proof.
  intros Hinv Hreach Hk. induction Hreach as [|t t' Hreach IH Hstep]; [done|].
  destruct IH as [v Hv].
  assert (Ht : astar_inv graph0 start goal t).
  { eapply (reachable_inv (astar_step goal) (astar_inv graph0 start goal)); [|done|done].
    intros ? ?. apply astar_step_inv. }
  destruct (astar_step_keeps _ _ _ _ _ _ _ Ht Hstep Hv) as [?|(old & new & _ & Hnew & _)].
  - by eexists.
  - apply (ai_dom _ _ _ _ (astar_step_inv _ _ _ _ _ Ht Hstep)). by eexists.
Qed.

(** What one pass of the [for] body does in depth-first and breadth-first
    search: a neighbour with no entry yet gets the current cell as parent and
    joins the frontier; any other neighbour changes nothing. *)
Lemma search_step_discovers (d : discipline) (goal : Cell) (s s' : search_state)
    (cur nbr : Cell) (rest : list Cell) :
  s_loop s = Some (cur, nbr :: rest) -> search_step d goal s = inl s' ->
  ((key_of nbr ∉ s_visited s)
   /\ parent (s_graph s') !! key_of nbr = Some (Some cur)
   /\ s_frontier s' = frontier_append d nbr (s_frontier s))
  \/ (key_of nbr ∈ s_visited s
      /\ s_graph s' = s_graph s /\ s_frontier s' = s_frontier s).
Proof.
  intros Hloop Hstep. unfold search_step in Hstep. rewrite Hloop in Hstep.
  destruct (decide (key_of nbr ∈ s_visited s)); injection Hstep as <-; simpl.
  - by right.
  - left. by rewrite lookup_insert_eq.
Qed.

(** What one pass of the [for] body does in A*: either nothing but moving on,
    or the neighbour's cost is lowered to [g + 1], its parent becomes the
    current cell and a new entry is pushed; afterwards an open neighbour has
    a cost of at most [g + 1]. *)
Lemma astar_step_relaxes (goal : Cell) (s s' : astar_state) (g : Z) (cur nbr : Cell)
    (rest : list Cell) :
  a_loop s = Some (g, cur, nbr :: rest) -> astar_step goal s = inl s' ->
  ((a_graph s' = a_graph s /\ open_heap s' = open_heap s /\ g_cost s' = g_cost s)
   \/ (parent (a_graph s') !! key_of nbr = Some (Some cur)
       /\ g_cost s' !! key_of nbr = Some (g + 1)
       /\ open_heap s'
          = heappush (open_heap s)
              (mkEntry (g + 1 + heuristic nbr goal) (g + 1) (counter s) nbr)))
  /\ (key_of nbr ∉ closed s ->
      exists gn, g_cost s' !! key_of nbr = Some gn /\ gn <= g + 1).
Proof.
  intros Hloop Hstep. unfold astar_step in Hstep. rewrite Hloop in Hstep.
  destruct (decide (key_of nbr ∈ closed s)); [injection Hstep as <-; split; [by left|done]|].
  destruct (g_cost s !! key_of nbr) as [old|] eqn:Hold.
  - destruct (g + 1 <? old) eqn:Hlt; injection Hstep as <-; simpl.
    + split; [right; by rewrite !lookup_insert_eq|].
      intros _. exists (g + 1). by rewrite lookup_insert_eq.
    + apply Z.ltb_ge in Hlt. split; [by left|]. intros _. by exists old.
  - injection Hstep as <-; simpl. split; [right; by rewrite !lookup_insert_eq|].
    intros _. exists (g + 1). by rewrite lookup_insert_eq.
Qed.

(** C7. In every state of a run, and so in the state the run ends in, every
    cell of the frontier has a parent entry, and no entry is ever removed
    later.  In depth-first and breadth-first search a cell joins the frontier
    exactly when it is seen for the first time, its entry is then the cell
    being expanded, and the entry never changes afterwards.  In A* a cell is
    pushed exactly when its recorded cost is lowered; its entry is then the
    cell being expanded, and at all times the entry of a cell is a neighbour
    whose recorded cost is one less than the cell's own. *)
Theorem frontier_cells_have_parent_entries (graph : Graph) (start goal : Cell) :
  (forall d s,
     reachable (search_step d goal) (search_init (init_graph graph) start) s ->
     (forall c, c ∈ s_frontier s -> is_Some (parent (s_graph s) !! key_of c))
     /\ (forall s' cur nbr rest,
           s_loop s = Some (cur, nbr :: rest) -> search_step d goal s = inl s' ->
           ((key_of nbr ∉ s_visited s)
            /\ parent (s_graph s) !! key_of nbr = None
            /\ parent (s_graph s') !! key_of nbr = Some (Some cur)
            /\ s_frontier s' = frontier_append d nbr (s_frontier s))
           \/ (key_of nbr ∈ s_visited s
               /\ s_graph s' = s_graph s /\ s_frontier s' = s_frontier s))
     /\ (forall s2 k v,
           reachable (search_step d goal) s s2 ->
           parent (s_graph s) !! k = Some v -> parent (s_graph s2) !! k = Some v))
  /\ (forall s,
        reachable (astar_step goal) (astar_init (init_graph graph) start goal) s ->
        (forall e, e ∈ open_heap s -> is_Some (parent (a_graph s) !! key_of (e_cell e)))
        /\ (forall c p,
              parent (a_graph s) !! key_of c = Some (Some p) ->
              edge graph p c
              /\ exists gp, g_cost s !! key_of p = Some gp
                            /\ g_cost s !! key_of c = Some (gp + 1))
        /\ (forall s' g cur nbr rest,
              a_loop s = Some (g, cur, nbr :: rest) -> astar_step goal s = inl s' ->
              ((a_graph s' = a_graph s /\ open_heap s' = open_heap s
                /\ g_cost s' = g_cost s)
               \/ (parent (a_graph s') !! key_of nbr = Some (Some cur)
                   /\ g_cost s' !! key_of nbr = Some (g + 1)
                   /\ open_heap s'
                      = heappush (open_heap s)
                          (mkEntry (g + 1 + heuristic nbr goal) (g + 1) (counter s) nbr)))
              /\ (key_of nbr ∉ closed s ->
                  exists gn, g_cost s' !! key_of nbr = Some gn /\ gn <= g + 1))
        /\ (forall s2 k,
              reachable (astar_step goal) s s2 ->
              is_Some (parent (a_graph s) !! k) -> is_Some (parent (a_graph s2) !! k))).
Proof.
  split.
  - intros d s Hreach. pose proof (search_reachable_inv _ _ _ _ _ Hreach) as Hinv.
    split; [|split].
    + intros c Hc. apply (si_dom _ _ _ Hinv). by apply (si_frontier _ _ _ Hinv).
    + intros s' cur nbr rest Hloop Hstep.
      destruct (search_step_discovers _ _ _ _ _ _ _ Hloop Hstep)
        as [(Hnew & Hp & Hf)|?]; [left | by right].
      split; [done|]. split; [|done].
      destruct (parent (s_graph s) !! key_of nbr) eqn:E; [|done].
      exfalso. apply Hnew, (si_dom _ _ _ Hinv). by eexists.
    + intros s2 k v. by apply search_run_keeps with (start := start) (graph0 := init_graph graph).
  - intros s Hreach. pose proof (astar_reachable_inv _ _ _ _ Hreach) as Hinv.
    split; [|split; [|split]].
    + intros e He. apply (ai_dom _ _ _ _ Hinv).
      destruct (ai_heap _ _ _ _ Hinv e He) as (_ & (g0 & Hg0 & _) & _). by eexists.
    + intros c p Hc. by destruct (ai_link _ _ _ _ Hinv c p Hc) as (_ & ? & ?).
    + intros s' g cur nbr rest. apply astar_step_relaxes.
    + intros s2 k. by apply astar_run_keeps with (start := start) (graph0 := init_graph graph).
Qed.

Lemma frontier_cells_have_parent_entries_witness :
  (forall c,
     c ∈ s_frontier (state_after (search_step FIFO (mkCell 2 2)) 12
                       (search_init (init_graph open3) (mkCell 0 0))) ->
     is_Some (parent (s_graph (state_after (search_step FIFO (mkCell 2 2)) 12
                                 (search_init (init_graph open3) (mkCell 0 0))))
              !! key_of c))
  /\ (forall e,
        e ∈ open_heap (state_after (astar_step (mkCell 2 2)) 12
                         (astar_init (init_graph open3) (mkCell 0 0) (mkCell 2 2))) ->
        is_Some (parent (a_graph (state_after (astar_step (mkCell 2 2)) 12
                                    (astar_init (init_graph open3) (mkCell 0 0)
                                       (mkCell 2 2))))
                 !! key_of (e_cell e))).
Proof.
  pose proof (frontier_cells_have_parent_entries open3 (mkCell 0 0) (mkCell 2 2))
    as [Hu Ha].
  split.
  - exact (proj1 (Hu FIFO _ (state_after_reachable _ 12 _))).
  - exact (proj1 (Ha _ (state_after_reachable _ 12 _))).
Defined.

(** ** [trace_path] is only called where it is defined *)

(** On a chain that leads to a root, [trace_path_from] never meets a missing
    entry, whatever its budget. *)
Lemma trace_path_from_never_raises (graph : Graph) (start c : Cell) (n fuel : nat)
    (acc : list Cell) :
  parent graph !! key_of start = Some None ->
  ancestor (parent graph) c n start ->
  trace_path_from fuel c graph acc <> Raised.
Proof.
  intros Hroot Ha. revert fuel acc.
  induction Ha as [c|c p n a Hc Ha IH]; intros fuel acc;
    (destruct fuel as [|fuel]; [done|]); simpl.
  - by rewrite Hroot.
  - rewrite Hc. by apply IH.
Qed.

Lemma search_exit_traceable (d : discipline) (goal : Cell) (graph : Graph)
    (start : Cell) (s : search_state) (g : Graph) (cur : Cell) :
  reachable (search_step d goal) (search_init (init_graph graph) start) s ->
  search_step d goal s = inr (g, GoalFound cur) ->
  parent g !! key_of start = Some None
  /\ is_Some (parent g !! key_of cur)
  /\ exists n, ancestor (parent g) cur n start
       /\ forall fuel, (n < fuel)%nat ->
            exists path, trace_path fuel cur g = Returned path.
Proof.
  intros Hreach Hexit. pose proof (search_reachable_inv _ _ _ _ _ Hreach) as Hinv.
  destruct (search_step_exit _ _ _ _ _ Hexit) as (-> & Hloop & -> & frontier & Hfr).
  assert (Hv : key_of goal ∈ s_visited s).
  { apply (si_frontier _ _ _ Hinv). rewrite Hfr. by left. }
  split; [apply (si_start _ _ _ Hinv)|]. split; [by apply (si_dom _ _ _ Hinv)|].
  destruct (search_inv_trace _ _ _ _ Hinv Hv) as (n & Hanc & Htr).
  exists n. split; [done|]. intros fuel Hlt.
  destruct (Htr fuel Hlt) as (path & Hpath & _). by exists path.
Qed.

Lemma astar_exit_traceable (goal : Cell) (graph : Graph) (start : Cell)
    (s : astar_state) (g : Graph) (cur : Cell) :
  reachable (astar_step goal) (astar_init (init_graph graph) start goal) s ->
  astar_step goal s = inr (g, GoalFound cur) ->
  parent g !! key_of start = Some None
  /\ is_Some (parent g !! key_of cur)
  /\ exists n, ancestor (parent g) cur n start
       /\ forall fuel, (n < fuel)%nat ->
            exists path, trace_path fuel cur g = Returned path.
Proof.
  intros Hreach Hexit. pose proof (astar_reachable_inv _ _ _ _ Hreach) as Hinv.
  destruct (astar_step_exit _ _ _ _ Hexit) as (Hloop & -> & -> & Hopen & x & heap & Hpop & Hx).
  assert (Hin : x ∈ open_heap s).
  { destruct (heappop_spec _ _ _ Hpop) as [Hperm _]. rewrite <- Hperm. by left. }
  destruct (ai_heap _ _ _ _ Hinv x Hin) as (_ & (g0 & Hg0 & _) & _). rewrite Hx in Hg0.
  assert (Hsome : is_Some (g_cost s !! key_of goal)) by (by eexists).
  simpl. split; [apply (ai_start _ _ _ _ Hinv)|].
  split; [by apply (ai_dom _ _ _ _ Hinv)|].
  destruct (astar_inv_trace _ _ _ _ goal Hinv Hsome) as (n & Hanc & _ & Htr).
  exists n. split; [done|]. intros fuel Hlt.
  destruct (Htr (log_visited goal (a_graph s)) fuel Hlt (ai_nbrs _ _ _ _ Hinv) eq_refl)
    as (path & Hpath & _).
  by exists path.
Qed.

(** C8. Whenever one of the three searches calls [trace_path], the cell it
    passes has a parent entry in the graph at that moment, and so has every
    cell on the chain of parent links from it, up to the start: the call
    returns a path with any budget larger than the length of the chain and
    never meets a missing entry.  So no search ever fails that way. *)
Theorem trace_path_only_on_discovered_cells (graph : Graph) (start goal : Cell) :
  (forall d s g cur,
     reachable (search_step d goal) (search_init (init_graph graph) start) s ->
     search_step d goal s = inr (g, GoalFound cur) ->
     is_Some (parent g !! key_of cur)
     /\ (exists n, forall fuel, (n < fuel)%nat ->
           exists path, trace_path fuel cur g = Returned path)
     /\ forall fuel, trace_path fuel cur g <> Raised)
  /\ (forall s g cur,
        reachable (astar_step goal) (astar_init (init_graph graph) start goal) s ->
        astar_step goal s = inr (g, GoalFound cur) ->
        is_Some (parent g !! key_of cur)
        /\ (exists n, forall fuel, (n < fuel)%nat ->
              exists path, trace_path fuel cur g = Returned path)
        /\ forall fuel, trace_path fuel cur g <> Raised)
  /\ (forall fuel,
        depth_first_search fuel graph start goal <> Raised
        /\ breadth_first_search fuel graph start goal <> Raised
        /\ a_star_search fuel graph start goal <> Raised).
Proof.
  assert (Hu : forall d s g cur,
     reachable (search_step d goal) (search_init (init_graph graph) start) s ->
     search_step d goal s = inr (g, GoalFound cur) ->
     is_Some (parent g !! key_of cur)
     /\ (exists n, forall fuel, (n < fuel)%nat ->
           exists path, trace_path fuel cur g = Returned path)
     /\ forall fuel, trace_path fuel cur g <> Raised).
  { intros d s g cur Hreach Hexit.
    destruct (search_exit_traceable _ _ _ _ _ _ _ Hreach Hexit)
      as (Hroot & Hsome & n & Hanc & Htr).
    split; [done|]. split; [by exists n|].
    intros fuel. by eapply trace_path_from_never_raises. }
  assert (Ha : forall s g cur,
     reachable (astar_step goal) (astar_init (init_graph graph) start goal) s ->
     astar_step goal s = inr (g, GoalFound cur) ->
     is_Some (parent g !! key_of cur)
     /\ (exists n, forall fuel, (n < fuel)%nat ->
           exists path, trace_path fuel cur g = Returned path)
     /\ forall fuel, trace_path fuel cur g <> Raised).
  { intros s g cur Hreach Hexit.
    destruct (astar_exit_traceable _ _ _ _ _ _ Hreach Hexit)
      as (Hroot & Hsome & n & Hanc & Htr).
    split; [done|]. split; [by exists n|].
    intros fuel. by eapply trace_path_from_never_raises. }
  split; [done|]. split; [done|].
  assert (Hsearch : forall d fuel, search d fuel graph start goal <> Raised).
  { intros d fuel. unfold search.
    destruct (run (search_step d goal) fuel _) as [[g e]|] eqn:Hrun; [|done].
    destruct (run_exit _ _ _ _ Hrun) as (s & Hreach & Hexit).
    destruct e as [cur|]; simpl; [|done].
    destruct (Hu d s g cur Hreach Hexit) as (_ & _ & Hnr). specialize (Hnr fuel).
    by destruct (trace_path fuel cur g). }
  intros fuel. split; [apply Hsearch|]. split; [apply Hsearch|].
  unfold a_star_search.
  destruct (run (astar_step goal) fuel _) as [[g e]|] eqn:Hrun; [|done].
  destruct (run_exit _ _ _ _ Hrun) as (s & Hreach & Hexit).
  destruct e as [cur|]; simpl; [|done].
  destruct (Ha s g cur Hreach Hexit) as (_ & _ & Hnr). specialize (Hnr fuel).
  by destruct (trace_path fuel cur g).
Qed.

Lemma trace_path_only_on_discovered_cells_witness :
  depth_first_search 60 open3 (mkCell 0 0) (mkCell 2 2) <> Raised
  /\ breadth_first_search 60 open3 (mkCell 0 0) (mkCell 2 2) <> Raised
  /\ a_star_search 60 open3 (mkCell 0 0) (mkCell 2 2) <> Raised.
Proof.
  exact (proj2 (proj2 (trace_path_only_on_discovered_cells open3 (mkCell 0 0) (mkCell 2 2))) 60%nat).
Defined.

(** ** The start cell is the root of every chain *)

(** C10. In every state of a run of any of the three searches the parent
    entry of the start cell is [None], as set before the loop, and from every
    cell with a parent entry the chain of parent links ends at the start
    cell: [trace_path] returns a path whose first cell is the start. *)
Theorem start_is_root_of_every_chain (graph : Graph) (start goal : Cell) :
  (forall d s,
     reachable (search_step d goal) (search_init (init_graph graph) start) s ->
     parent (s_graph s) !! key_of start = Some None
     /\ forall c, is_Some (parent (s_graph s) !! key_of c) ->
          exists n path, ancestor (parent (s_graph s)) c n start
            /\ trace_path (S n) c (s_graph s) = Returned (start :: path))
  /\ (forall s,
        reachable (astar_step goal) (astar_init (init_graph graph) start goal) s ->
        parent (a_graph s) !! key_of start = Some None
        /\ forall c, is_Some (parent (a_graph s) !! key_of c) ->
             exists n path, ancestor (parent (a_graph s)) c n start
               /\ trace_path (S n) c (a_graph s) = Returned (start :: path)).
Proof.
  split.
  - intros d s Hreach. pose proof (search_reachable_inv _ _ _ _ _ Hreach) as Hinv.
    split; [apply (si_start _ _ _ Hinv)|]. intros c Hc.
    destruct (search_inv_trace _ _ _ c Hinv) as (n & Hanc & Htr);
      [by apply (si_dom _ _ _ Hinv)|].
    destruct (Htr (S n) ltac:(lia)) as (path & Hpath & _ & Hbetween).
    destruct path as [|x path]; [done|]. destruct Hbetween as [-> _].
    by exists n, path.
  - intros s Hreach. pose proof (astar_reachable_inv _ _ _ _ Hreach) as Hinv.
    split; [apply (ai_start _ _ _ _ Hinv)|]. intros c Hc.
    destruct (astar_inv_trace _ _ _ _ c Hinv) as (n & Hanc & _ & Htr);
      [by apply (ai_dom _ _ _ _ Hinv)|].
    destruct (Htr (a_graph s) (S n) ltac:(lia) (ai_nbrs _ _ _ _ Hinv) eq_refl)
      as (path & Hpath & _ & Hbetween).
    destruct path as [|x path]; [done|]. destruct Hbetween as [-> _].
    by exists n, path.
Qed.

Lemma start_is_root_of_every_chain_witness :
  parent (s_graph (state_after (search_step LIFO (mkCell 2 2)) 12
                     (search_init (init_graph open3) (mkCell 0 0))))
    !! key_of (mkCell 0 0) = Some None
  /\ parent (s_graph (state_after (search_step FIFO (mkCell 2 2)) 12
                        (search_init (init_graph open3) (mkCell 0 0))))
       !! key_of (mkCell 0 0) = Some None
  /\ parent (a_graph (state_after (astar_step (mkCell 2 2)) 12
                        (astar_init (init_graph open3) (mkCell 0 0) (mkCell 2 2))))
       !! key_of (mkCell 0 0) = Some None.
Proof.
  pose proof (start_is_root_of_every_chain open3 (mkCell 0 0) (mkCell 2 2)) as [Hu Ha].
  split; [|split].
  - exact (proj1 (Hu LIFO _ (state_after_reachable _ 12 _))).
  - exact (proj1 (Hu FIFO _ (state_after_reachable _ 12 _))).
  - exact (proj1 (Ha _ (state_after_reachable _ 12 _))).
Defined.

(** ** Every search starts from the reset graph *)

Lemma init_graph_ext (g1 g2 : Graph) :
  find_neighbors g1 = find_neighbors g2 -> init_graph g1 = init_graph g2.
Proof. unfold init_graph. by intros ->. Qed.

Lemma search_result_graph (d : discipline) (fuel : nat) (graph : Graph)
    (start goal : Cell) (g : Graph) (p : list Cell) :
  search d fuel graph start goal = Returned (g, p) ->
  exists s, reachable (search_step d goal) (search_init (init_graph graph) start) s
            /\ g = s_graph s.
Proof.
  unfold search. destruct (run (search_step d goal) fuel _) as [[g' e]|] eqn:Hrun; [|done].
  destruct (run_exit _ _ _ _ Hrun) as (s & Hreach & Hexit).
  destruct (search_step_exit _ _ _ _ _ Hexit) as (-> & _ & _).
  intros Hfin. exists s. split; [done|]. destruct e as [cur|]; simpl in Hfin.
  - destruct (trace_path fuel cur (s_graph s)); by inversion Hfin.
  - by inversion Hfin.
Qed.

Lemma astar_result_graph (fuel : nat) (graph : Graph) (start goal : Cell)
    (g : Graph) (p : list Cell) :
  a_star_search fuel graph start goal = Returned (g, p) ->
  exists s, reachable (astar_step goal) (astar_init (init_graph graph) start goal) s
            /\ (g = a_graph s
                \/ exists x heap, heappop (open_heap s) = Some (x, heap)
                                  /\ g = log_visited (e_cell x) (a_graph s)).
Proof.
  unfold a_star_search.
  destruct (run (astar_step goal) fuel _) as [[g' e]|] eqn:Hrun; [|done].
  destruct (run_exit _ _ _ _ Hrun) as (s & Hreach & Hexit).
  destruct (astar_step_exit _ _ _ _ Hexit) as (_ & He).
  intros Hfin. exists s. split; [done|]. destruct e as [cur|]; simpl in Hfin.
  - destruct He as (-> & -> & _ & x & heap & Hpop & <-). right. exists x, heap.
    split; [done|]. destruct (trace_path fuel _ _); by inversion Hfin.
  - destruct He as [_ ->]. left. by inversion Hfin.
Qed.

(** The graph a search leaves behind holds entries for cells reached in that
    search only. *)
Lemma search_result_fresh (d : discipline) (fuel : nat) (graph : Graph)
    (start goal : Cell) (g : Graph) (p : list Cell) :
  search d fuel graph start goal = Returned (g, p) ->
  find_neighbors g = find_neighbors graph
  /\ (forall k, is_Some (parent g !! k) -> reachable_cell graph start (cell_of k))
  /\ (forall c, c ∈ visited_cells g -> reachable_cell graph start c).
Proof.
  intros Hres. destruct (search_result_graph _ _ _ _ _ _ _ Hres) as (s & Hreach & ->).
  pose proof (search_reachable_inv _ _ _ _ _ Hreach) as Hinv.
  assert (Hvis : forall c, key_of c ∈ s_visited s -> reachable_cell graph start c).
  { intros c Hc. destruct (search_inv_trace _ _ _ _ Hinv Hc) as (n & _ & Htr).
    destruct (Htr (S n) ltac:(lia)) as (path & _ & _ & Hpath).
    exists path. by apply (path_between_ext (init_graph graph) graph). }
  split; [apply (si_nbrs _ _ _ Hinv)|]. split.
  - intros k Hk. apply Hvis. rewrite key_of_cell. by apply (si_dom _ _ _ Hinv).
  - intros c Hc. apply Hvis. apply (si_log _ _ _ Hinv).
    apply list_elem_of_fmap. by exists c.
Qed.

Lemma astar_result_fresh (fuel : nat) (graph : Graph) (start goal : Cell)
    (g : Graph) (p : list Cell) :
  a_star_search fuel graph start goal = Returned (g, p) ->
  find_neighbors g = find_neighbors graph
  /\ (forall k, is_Some (parent g !! k) -> reachable_cell graph start (cell_of k))
  /\ (forall c, c ∈ visited_cells g -> reachable_cell graph start c).
Proof.
  intros Hres. destruct (astar_result_graph _ _ _ _ _ _ Hres) as (s & Hreach & Hg).
  pose proof (astar_reachable_inv _ _ _ _ Hreach) as Hinv.
  assert (Hcost : forall c, is_Some (g_cost s !! key_of c) -> reachable_cell graph start c).
  { intros c Hc. destruct (astar_inv_trace _ _ _ _ c Hinv Hc) as (n & _ & _ & Htr).
    destruct (Htr (a_graph s) (S n) ltac:(lia) (ai_nbrs _ _ _ _ Hinv) eq_refl)
      as (path & _ & _ & Hpath).
    exists path. by apply (path_between_ext (init_graph graph) graph). }
  assert (Hlogged : forall c, c ∈ visited_cells (a_graph s) -> reachable_cell graph start c).
  { intros c Hc. apply Hcost, (ai_closed _ _ _ _ Hinv), (ai_log _ _ _ _ Hinv).
    apply list_elem_of_fmap. by exists c. }
  destruct Hg as [->|(x & heap & Hpop & ->)]; simpl.
  - split; [apply (ai_nbrs _ _ _ _ Hinv)|]. split; [|done].
    intros k Hk. apply Hcost. rewrite key_of_cell. by apply (ai_dom _ _ _ _ Hinv).
  - split; [apply (ai_nbrs _ _ _ _ Hinv)|]. split.
    + intros k Hk. apply Hcost. rewrite key_of_cell. by apply (ai_dom _ _ _ _ Hinv).
    + intros c Hc. apply elem_of_app in Hc. destruct Hc as [Hc|Hc]; [by apply Hlogged|].
      apply list_elem_of_singleton in Hc. rewrite mkCell_eta in Hc. subst c.
      apply Hcost.
      assert (Hin : x ∈ open_heap s).
      { destruct (heappop_spec _ _ _ Hpop) as [Hperm _]. rewrite <- Hperm. by left. }
      destruct (ai_heap _ _ _ _ Hinv x Hin) as (_ & (g0 & Hg0 & _) & _). by eexists.
Qed.

(** A step only ever appends to the visited log. *)
Lemma search_step_log (d : discipline) (goal : Cell) (s s' : search_state) :
  search_step d goal s = inl s' ->
  exists l, visited_cells (s_graph s') = visited_cells (s_graph s) ++ l.
Proof.
  unfold search_step. destruct (s_loop s) as [[cur [|nbr rest]]|].
  - intros [= <-]. exists []. by rewrite app_nil_r.
  - destruct (decide (key_of nbr ∈ s_visited s)); intros [= <-]; simpl.
    + exists []. by rewrite app_nil_r.
    + by eexists.
  - destruct (s_frontier s) as [|cur frontier]; [done|].
    destruct (at_goal cur goal); [done|]. intros [= <-]. exists []. by rewrite app_nil_r.
Qed.

Lemma astar_step_log (goal : Cell) (s s' : astar_state) :
  astar_step goal s = inl s' ->
  exists l, visited_cells (a_graph s') = visited_cells (a_graph s) ++ l.
Proof.
  unfold astar_step. destruct (a_loop s) as [[[g cur] [|nbr rest]]|].
  - intros [= <-]. exists []. by rewrite app_nil_r.
  - destruct (decide (key_of nbr ∈ closed s)).
    + intros [= <-]. exists []. by rewrite app_nil_r.
    + destruct (match g_cost s !! key_of nbr with
                | Some old => g + 1 <? old
                | None => true
                end); intros [= <-]; exists []; simpl; by rewrite app_nil_r.
  - destruct (heappop (open_heap s)) as [[e heap]|]; [|done].
    destruct (decide (key_of (e_cell e) ∈ closed s)).
    + intros [= <-]. exists []. by rewrite app_nil_r.
    + destruct (at_goal (e_cell e) goal); [done|]. intros [= <-]. simpl. by eexists.
Qed.

(** C9. Each search resets the graph first: the state in which its loop
    starts holds the start's parent entry and nothing else, whatever the
    graph held before, and no later step removes an entry of the parent map
    or of the visited log.  So a second run on the graph a first run left gives
    exactly what it gives on a graph never searched, and the parent map and
    the visited log it leaves hold cells reachable from the second start
    only.  ([search LIFO] is [depth_first_search], [search FIFO] is
    [breadth_first_search].) *)
Theorem reset_discards_previous_run (graph : Graph) (start1 goal1 start2 goal2 : Cell)
    (fuel1 fuel2 : nat) :
  (forall d,
     s_graph (search_init (init_graph graph) start2)
       = mkGraph (find_neighbors graph) {[ key_of start2 := None ]} [start2]
     /\ (forall s s',
           reachable (search_step d goal2) (search_init (init_graph graph) start2) s ->
           search_step d goal2 s = inl s' ->
           (exists l, visited_cells (s_graph s') = visited_cells (s_graph s) ++ l)
           /\ forall k, is_Some (parent (s_graph s) !! k) ->
                is_Some (parent (s_graph s') !! k))
     /\ forall g1 p1, search d fuel1 graph start1 goal1 = Returned (g1, p1) ->
          search d fuel2 g1 start2 goal2 = search d fuel2 (init_graph graph) start2 goal2
          /\ forall g2 p2, search d fuel2 g1 start2 goal2 = Returned (g2, p2) ->
               (forall k, is_Some (parent g2 !! k) -> reachable_cell graph start2 (cell_of k))
               /\ (forall c, c ∈ visited_cells g2 -> reachable_cell graph start2 c))
  /\ (a_graph (astar_init (init_graph graph) start2 goal2)
        = mkGraph (find_neighbors graph) {[ key_of start2 := None ]} []
      /\ (forall s s',
            reachable (astar_step goal2) (astar_init (init_graph graph) start2 goal2) s ->
            astar_step goal2 s = inl s' ->
            (exists l, visited_cells (a_graph s') = visited_cells (a_graph s) ++ l)
            /\ forall k, is_Some (parent (a_graph s) !! k) ->
                 is_Some (parent (a_graph s') !! k))
      /\ forall g1 p1, a_star_search fuel1 graph start1 goal1 = Returned (g1, p1) ->
           a_star_search fuel2 g1 start2 goal2
             = a_star_search fuel2 (init_graph graph) start2 goal2
           /\ forall g2 p2, a_star_search fuel2 g1 start2 goal2 = Returned (g2, p2) ->
                (forall k, is_Some (parent g2 !! k) -> reachable_cell graph start2 (cell_of k))
                /\ (forall c, c ∈ visited_cells g2 -> reachable_cell graph start2 c)).
Proof.
  split.
  - intros d. split; [|split].
    + simpl. unfold log_visited, set_parent. simpl. by rewrite mkCell_eta, insert_empty.
    + intros s s' Hreach Hstep. split; [by eapply search_step_log|].
      intros k [v Hk]. exists v.
      eapply search_step_keeps; [by eapply search_reachable_inv | done | done].
    + intros g1 p1 H1. destruct (search_result_fresh _ _ _ _ _ _ _ H1) as (Hn & _).
      assert (Heq : search d fuel2 g1 start2 goal2
                    = search d fuel2 (init_graph graph) start2 goal2).
      { unfold search. by rewrite (init_graph_ext g1 (init_graph graph)). }
      split; [done|]. intros g2 p2 H2. rewrite Heq in H2.
      destruct (search_result_fresh _ _ _ _ _ _ _ H2) as (_ & Hp & Hl).
      split.
      * intros k Hk. destruct (Hp k Hk) as [path Hpath]. exists path.
        by apply (path_between_ext (init_graph graph) graph).
      * intros c Hc. destruct (Hl c Hc) as [path Hpath]. exists path.
        by apply (path_between_ext (init_graph graph) graph).
  - split; [|split].
    + simpl. unfold set_parent. simpl. by rewrite insert_empty.
    + intros s s' Hreach Hstep. split; [by eapply astar_step_log|].
      intros k Hk. eapply (astar_run_keeps goal2 (init_graph graph) start2 s s').
      * by eapply astar_reachable_inv.
      * eapply reachable_step; [apply reachable_init | done].
      * done.
    + intros g1 p1 H1. destruct (astar_result_fresh _ _ _ _ _ _ H1) as (Hn & _).
      assert (Heq : a_star_search fuel2 g1 start2 goal2
                    = a_star_search fuel2 (init_graph graph) start2 goal2).
      { unfold a_star_search. by rewrite (init_graph_ext g1 (init_graph graph)). }
      split; [done|]. intros g2 p2 H2. rewrite Heq in H2.
      destruct (astar_result_fresh _ _ _ _ _ _ H2) as (_ & Hp & Hl).
      split.
      * intros k Hk. destruct (Hp k Hk) as [path Hpath]. exists path.
        by apply (path_between_ext (init_graph graph) graph).
      * intros c Hc. destruct (Hl c Hc) as [path Hpath]. exists path.
        by apply (path_between_ext (init_graph graph) graph).
Qed.

Lemma reset_discards_previous_run_witness :
  search LIFO 60
    (log_visited (mkCell 1 1) (set_parent (1, 1) None (init_graph open3)))
    (mkCell 0 0) (mkCell 2 2)
  = search LIFO 60 (init_graph open3) (mkCell 0 0) (mkCell 2 2).
Proof.
  exact (proj1 (proj2 (proj2
           (proj1 (reset_discards_previous_run open3 (mkCell 1 1) (mkCell 1 1)
                     (mkCell 0 0) (mkCell 2 2) 1 60) LIFO))
           (log_visited (mkCell 1 1) (set_parent (1, 1) None (init_graph open3)))
           [mkCell 1 1] eq_refl)).
Defined.

(** ** What a returned path is worth *)

Lemma search_step_done (d : discipline) (goal : Cell) (graph0 : Graph) (start : Cell)
    (s s' : search_state) :
  search_inv graph0 start s -> search_done graph0 goal s ->
  search_step d goal s = inl s' -> search_done graph0 goal s'.
Proof.
  intros Hinv [Hloop Hdone] Hstep.
  pose proof (si_nbrs _ _ _ Hinv) as Hnb0.
  destruct s as [graph frontier visited loop]. unfold search_step in Hstep.
  unfold pending in *. simpl in *. destruct loop as [[cur [|nbr rest]]|].
  - injection Hstep as <-. destruct (Hloop cur [] eq_refl) as (Hng & Hnb).
    split; simpl; [done|]. intros c Hc Hnp. destruct (decide (c = cur)) as [->|Hne].
    + split; [done|]. intros n Hn. destruct (Hnb n Hn) as [Hin|Hv]; [|done].
      by apply elem_of_nil in Hin.
    + apply Hdone; [done|]. intros [Hf|[rest' [= ? ?]]]; [|done]. apply Hnp. by left.
  - destruct (Hloop cur (nbr :: rest) eq_refl) as (Hng & Hnb).
    destruct (decide (key_of nbr ∈ visited)) as [Hin|Hnotin]; injection Hstep as <-.
    + split; simpl.
      * intros cur' rest' [= <- <-]. split; [done|].
        intros n Hn. destruct (Hnb n Hn) as [Hr|Hv]; [|by right].
        apply elem_of_cons in Hr. destruct Hr as [->|Hr]; [by right | by left].
      * intros c Hc Hnp. apply Hdone; [done|].
        intros [Hf|[rest' [= ? ?]]]; apply Hnp; [by left | right; subst; eauto].
    + split; simpl.
      * intros cur' rest' [= <- <-]. split; [done|].
        intros n Hn. destruct (Hnb n Hn) as [Hr|Hv]; [|right; apply elem_of_union; by right].
        apply elem_of_cons in Hr. destruct Hr as [->|Hr]; [|by left].
        right. apply elem_of_union. left. by apply elem_of_singleton.
      * intros c Hc Hnp. apply elem_of_union in Hc. destruct Hc as [Hc|Hc].
        -- apply elem_of_singleton in Hc. apply key_of_inj in Hc. subst c.
           exfalso. apply Hnp. left. apply elem_of_frontier_append. by left.
        -- destruct (Hdone c Hc) as [Hcg Hcn].
           { intros [Hf|[rest' [= ? ?]]]; apply Hnp.
             - left. apply elem_of_frontier_append. by right.
             - right. subst. eauto. }
           split; [done|]. intros n Hn. apply elem_of_union. right. by apply Hcn.
  - destruct frontier as [|cur frontier]; [done|].
    destruct (at_goal cur goal) eqn:Hg; [done|]. apply at_goal_false in Hg.
    injection Hstep as <-. split; simpl.
    + intros cur' rest' [= <- <-]. split; [done|].
      intros n Hn. left. unfold edge in Hn. by rewrite Hnb0.
    + intros c Hc Hnp. apply Hdone; [done|].
      intros [Hf|[rest' [=]]]. apply elem_of_cons in Hf.
      destruct Hf as [->|Hf]; apply Hnp; [right; eauto | by left].
Qed.

Lemma search_reachable_done (d : discipline) (goal : Cell) (graph : Graph)
    (start : Cell) (s : search_state) :
  reachable (search_step d goal) (search_init (init_graph graph) start) s ->
  search_inv (init_graph graph) start s /\ search_done (init_graph graph) goal s.
Proof.
  apply (reachable_inv (search_step d goal)
           (fun t => search_inv (init_graph graph) start t
                     /\ search_done (init_graph graph) goal t)).
  - intros t t' [Hi Hd] Hstep. split; [by eapply search_step_inv|].
    by eapply search_step_done.
  - split; [apply search_init_inv|]. split; simpl; [done|].
    intros c Hc Hnp. exfalso. apply Hnp. left. simpl.
    apply elem_of_singleton in Hc. apply key_of_inj in Hc. subst. by left.
Qed.

(** When the frontier runs empty the goal cannot be reached. *)
Lemma search_exhausted_unreachable (graph0 : Graph) (start goal : Cell)
    (s : search_state) :
  search_inv graph0 start s -> search_done graph0 goal s ->
  s_loop s = None -> s_frontier s = [] ->
  forall k c, reach_in graph0 start k c -> key_of c ∈ s_visited s /\ c <> goal.
Proof.
  intros Hinv Hd Hloop Hfr.
  assert (Hnp : forall c, ~ pending s c).
  { intros c [Hc|[rest Hc]]; [|congruence]. rewrite Hfr in Hc. by apply elem_of_nil in Hc. }
  assert (Hall : forall k c, reach_in graph0 start k c -> key_of c ∈ s_visited s).
  { intros k c Hr. induction Hr as [|k a b Hr IH He].
    - apply (si_dom _ _ _ Hinv). rewrite (si_start _ _ _ Hinv). by eexists.
    - destruct (sd_done _ _ _ Hd a IH (Hnp a)) as [_ Hnb]. by apply Hnb. }
  intros k c Hr. split; [by eapply Hall|].
  by destruct (sd_done _ _ _ Hd c (Hall _ _ Hr) (Hnp c)).
Qed.

Lemma search_returned_sound (d : discipline) (fuel : nat) (graph : Graph)
    (start goal : Cell) (final : Graph) (path : list Cell) :
  search d fuel graph start goal = Returned (final, path) ->
  (path = [] /\ ~ reachable_cell graph start goal)
  \/ path_between graph start goal path.
Proof.
  unfold search.
  destruct (run (search_step d goal) fuel _) as [[g e]|] eqn:Hrun; [|done].
  destruct (run_exit _ _ _ _ Hrun) as (s & Hreach & Hexit).
  destruct (search_reachable_done _ _ _ _ _ Hreach) as [Hinv Hd].
  destruct (search_step_exit _ _ _ _ _ Hexit) as (-> & Hloop & He).
  destruct e as [cur|]; simpl.
  - destruct He as (-> & frontier & Hfr).
    assert (Hv : key_of goal ∈ s_visited s).
    { apply (si_frontier _ _ _ Hinv). rewrite Hfr. by left. }
    destruct (search_inv_trace _ _ _ _ Hinv Hv) as (n & Hanc & Htr).
    destruct (trace_path fuel goal (s_graph s)) as [p| |] eqn:Hp; try done.
    intros [= _ <-]. right.
    destruct (Htr (fuel `max` S n)%nat ltac:(lia)) as (p' & Hp' & _ & Hpath).
    rewrite (trace_path_mono _ fuel (fuel `max` S n)%nat _ _ ltac:(lia) Hp) in Hp'.
    inversion Hp'; subst p'. by apply (path_between_ext (init_graph graph) graph).
  - intros [= _ <-]. left. split; [done|]. intros [q Hq].
    assert (Hr : reach_in (init_graph graph) start (edge_count q) goal).
    { apply path_reach_in. by apply (path_between_ext graph (init_graph graph)). }
    by destruct (search_exhausted_unreachable _ _ _ _ Hinv Hd Hloop He _ _ Hr).
Qed.

Lemma astar_step_done (goal : Cell) (graph0 : Graph) (start : Cell)
    (s s' : astar_state) :
  astar_inv graph0 start goal s -> astar_done graph0 goal s ->
  astar_step goal s = inl s' -> astar_done graph0 goal s'.
Proof.
  intros Hinv [Hgoal Hloop Hdone] Hstep.
  pose proof (ai_nbrs _ _ _ _ Hinv) as Hnb0.
  destruct s as [graph heap gc cnt cl loop]. unfold astar_step in Hstep.
  simpl in *. destruct loop as [[[g cur] [|nbr rest]]|].
  - injection Hstep as <-. split; simpl; [done | done |].
    intros c Hc _ n Hn. destruct (decide (c = cur)) as [->|Hne].
    + destruct (Hloop g cur [] eq_refl n Hn) as [Hin|?]; [|done].
      by apply elem_of_nil in Hin.
    + apply (Hdone c Hc); [|done]. intros g' rest' [= _ ? _]. done.
  - assert (Hsame : is_Some (gc !! key_of nbr) ->
              astar_done graph0 goal (mkAstar graph heap gc cnt cl (Some (g, cur, rest)))).
    { intros Hsome. split; simpl; [done | |].
      - intros g' cur' rest' [= <- <- <-] n Hn.
        destruct (Hloop g cur (nbr :: rest) eq_refl n Hn) as [Hin|?]; [|by right].
        apply elem_of_cons in Hin. destruct Hin as [->|Hin]; [by right | by left].
      - intros c Hc Hnl. apply (Hdone c Hc).
        intros g' rest' [= _ -> _]. by apply (Hnl g rest). }
    assert (Hupd : astar_done graph0 goal
              (mkAstar (set_parent (key_of nbr) (Some cur) graph)
                 (heappush heap (mkEntry (g + 1 + heuristic nbr goal) (g + 1) cnt nbr))
                 (<[key_of nbr := g + 1]> gc) (cnt + 1) cl (Some (g, cur, rest)))).
    { split; simpl; [done | |].
      - intros g' cur' rest' [= <- <- <-] n Hn.
        destruct (decide (key_of nbr = key_of n)) as [Heq|Hne].
        + right. rewrite <- Heq, lookup_insert_eq. by eexists.
        + rewrite lookup_insert_ne by done.
          destruct (Hloop g cur (nbr :: rest) eq_refl n Hn) as [Hin|?]; [|by right].
          apply elem_of_cons in Hin. destruct Hin as [->|Hin]; [done | by left].
      - intros c Hc Hnl n Hn.
        destruct (decide (key_of nbr = key_of n)) as [Heq|Hne].
        + rewrite <- Heq, lookup_insert_eq. by eexists.
        + rewrite lookup_insert_ne by done. apply (Hdone c Hc); [|done].
          intros g' rest' [= _ -> _]. by apply (Hnl g rest). }
    destruct (decide (key_of nbr ∈ cl)) as [Hin|Hnotin].
    + injection Hstep as <-. apply Hsame. by apply (ai_closed _ _ _ _ Hinv).
    + destruct (gc !! key_of nbr) as [old|] eqn:Hold.
      * destruct (g + 1 <? old); injection Hstep as <-; [done|].
        apply Hsame. by eexists.
      * by injection Hstep as <-.
  - destruct (heappop heap) as [[e heap']|] eqn:Hpop; [|done].
    destruct (decide (key_of (e_cell e) ∈ cl)) as [Hin|Hnotin].
    + injection Hstep as <-. by split.
    + destruct (at_goal (e_cell e) goal) eqn:Hag; [done|]. apply at_goal_false in Hag.
      injection Hstep as <-. split; simpl.
      * intros Hc. apply elem_of_union in Hc. destruct Hc as [Hc|Hc]; [|done].
        apply elem_of_singleton, key_of_inj in Hc. congruence.
      * intros g' cur' rest' [= <- <- <-] n Hn. left. unfold edge in Hn. by rewrite Hnb0.
      * intros c Hc Hnl n Hn. apply elem_of_union in Hc. destruct Hc as [Hc|Hc].
        -- apply elem_of_singleton, key_of_inj in Hc. subst c.
           by destruct (Hnl (e_g e)
                          (find_neighbors graph (cell_i (e_cell e)) (cell_j (e_cell e)))).
        -- by apply (Hdone c Hc).
Qed.

Lemma astar_reachable_done (goal : Cell) (graph : Graph) (start : Cell)
    (s : astar_state) :
  reachable (astar_step goal) (astar_init (init_graph graph) start goal) s ->
  astar_inv (init_graph graph) start goal s /\ astar_done (init_graph graph) goal s.
Proof.
  apply (reachable_inv (astar_step goal)
           (fun t => astar_inv (init_graph graph) start goal t
                     /\ astar_done (init_graph graph) goal t)).
  - intros t t' [Hi Hd] Hstep. split; [by eapply astar_step_inv|].
    by eapply astar_step_done.
  - split; [apply astar_init_inv|].
    split; simpl; try done; intros c Hc; by apply not_elem_of_empty in Hc.
Qed.

(** When the heap runs empty the goal cannot be reached. *)
Lemma astar_exhausted_unreachable (graph0 : Graph) (start goal : Cell)
    (s : astar_state) :
  astar_inv graph0 start goal s -> astar_done graph0 goal s ->
  a_loop s = None -> open_heap s = [] ->
  forall k c, reach_in graph0 start k c -> key_of c ∈ closed s.
Proof.
  intros Hinv Hd Hloop Hheap.
  assert (Hcl : forall c, is_Some (g_cost s !! key_of c) -> key_of c ∈ closed s).
  { intros c [gc Hgc]. destruct (decide (key_of c ∈ closed s)) as [|Hopen]; [done|].
    destruct (ai_open _ _ _ _ Hinv _ _ Hgc Hopen) as (e & He & _).
    rewrite Hheap in He. by apply elem_of_nil in He. }
  intros k c Hr. induction Hr as [|k a b Hr IH He].
  - apply Hcl. destruct (ai_start _ _ _ _ Hinv) as [_ H0]. by eexists.
  - apply Hcl. apply (ad_done _ _ _ Hd a IH); [|done]. intros g rest. by rewrite Hloop.
Qed.

Lemma astar_returned_sound (fuel : nat) (graph : Graph) (start goal : Cell)
    (final : Graph) (path : list Cell) :
  a_star_search fuel graph start goal = Returned (final, path) ->
  (path = [] /\ ~ reachable_cell graph start goal)
  \/ path_between graph start goal path.
Proof.
  unfold a_star_search.
  destruct (run (astar_step goal) fuel _) as [[g e]|] eqn:Hrun; [|done].
  destruct (run_exit _ _ _ _ Hrun) as (s & Hreach & Hexit).
  destruct (astar_reachable_done _ _ _ _ Hreach) as [Hinv Hd].
  destruct (astar_step_exit _ _ _ _ Hexit) as (Hloop & He).
  destruct e as [cur|]; simpl.
  - destruct He as (-> & -> & Hopen & x & heap & Hpop & Hx).
    assert (Hin : x ∈ open_heap s).
    { destruct (heappop_spec _ _ _ Hpop) as [Hperm _]. rewrite <- Hperm. by left. }
    destruct (ai_heap _ _ _ _ Hinv x Hin) as (_ & (g0 & Hg0 & _) & _). rewrite Hx in Hg0.
    destruct (astar_inv_trace _ _ _ _ goal Hinv ltac:(by eexists)) as (n & _ & _ & Htr).
    destruct (trace_path fuel goal (log_visited goal (a_graph s))) as [p| |] eqn:Hp;
      try done.
    intros [= _ <-]. right.
    destruct (Htr (log_visited goal (a_graph s)) (fuel `max` S n)%nat ltac:(lia)
                (ai_nbrs _ _ _ _ Hinv) eq_refl) as (p' & Hp' & _ & Hpath).
    rewrite (trace_path_mono _ fuel (fuel `max` S n)%nat _ _ ltac:(lia) Hp) in Hp'.
    inversion Hp'; subst p'. by apply (path_between_ext (init_graph graph) graph).
  - destruct He as [Hheap ->]. intros [= _ <-]. left. split; [done|]. intros [q Hq].
    assert (Hr : reach_in (init_graph graph) start (edge_count q) goal).
    { apply path_reach_in. by apply (path_between_ext graph (init_graph graph)). }
    apply (ad_goal _ _ _ Hd).
    by apply (astar_exhausted_unreachable _ _ _ _ Hinv Hd Hloop Hheap _ _ Hr).
Qed.

Lemma finish_mono (f1 f2 : nat) (e : Graph * exit) (r : Graph * list Cell) :
  (f1 <= f2)%nat -> finish f1 e = Returned r -> finish f2 e = Returned r.
Proof.
  intros Hle. destruct e as [g [cur|]]; simpl; [|done].
  destruct (trace_path f1 cur g) as [p| |] eqn:Hp; try done.
  intros [= <-]. by rewrite (trace_path_mono _ f1 f2 _ _ Hle Hp).
Qed.

Lemma search_returned_mono (d : discipline) (f1 f2 : nat) (graph : Graph)
    (start goal : Cell) (r : Graph * list Cell) :
  (f1 <= f2)%nat -> search d f1 graph start goal = Returned r ->
  search d f2 graph start goal = Returned r.
Proof.
  intros Hle. unfold search.
  destruct (run (search_step d goal) f1 _) as [e|] eqn:Hrun; [|done].
  rewrite (run_mono _ _ _ _ _ Hrun Hle). by apply finish_mono.
Qed.

Lemma astar_returned_mono (f1 f2 : nat) (graph : Graph) (start goal : Cell)
    (r : Graph * list Cell) :
  (f1 <= f2)%nat -> a_star_search f1 graph start goal = Returned r ->
  a_star_search f2 graph start goal = Returned r.
Proof.
  intros Hle. unfold a_star_search.
  destruct (run (astar_step goal) f1 _) as [e|] eqn:Hrun; [|done].
  rewrite (run_mono _ _ _ _ _ Hrun Hle). by apply finish_mono.
Qed.

Lemma search_eventually_returns (d : discipline) (graph : Graph) (cells : list (Z * Z))
    (start goal : Cell) :
  grid_closed graph cells -> key_of start ∈ cells ->
  exists fuel r, search d fuel graph start goal = Returned r.
Proof.
  intros Hcl Hstart.
  destruct (search_terminates d goal graph start cells Hcl Hstart) as (fuel0 & [g e] & Hrun).
  destruct e as [cur|].
  - destruct (run_exit _ _ _ _ Hrun) as (s & Hreach & Hexit).
    destruct (search_exit_traceable _ _ _ _ _ _ _ Hreach Hexit) as (_ & _ & n & _ & Htr).
    destruct (Htr (fuel0 `max` S n)%nat ltac:(lia)) as (path & Hpath).
    exists (fuel0 `max` S n)%nat, (g, path). unfold search.
    rewrite (run_mono _ _ _ _ _ Hrun) by lia. simpl. by rewrite Hpath.
  - exists fuel0, (g, []). unfold search. by rewrite Hrun.
Qed.

Lemma astar_eventually_returns (graph : Graph) (cells : list (Z * Z))
    (start goal : Cell) :
  grid_closed graph cells -> key_of start ∈ cells ->
  exists fuel r, a_star_search fuel graph start goal = Returned r.
Proof.
  intros Hcl Hstart.
  destruct (astar_terminates goal graph start cells Hcl Hstart) as (fuel0 & [g e] & Hrun).
  destruct e as [cur|].
  - destruct (run_exit _ _ _ _ Hrun) as (s & Hreach & Hexit).
    destruct (astar_exit_traceable _ _ _ _ _ _ Hreach Hexit) as (_ & _ & n & _ & Htr).
    destruct (Htr (fuel0 `max` S n)%nat ltac:(lia)) as (path & Hpath).
    exists (fuel0 `max` S n)%nat, (g, path). unfold a_star_search.
    rewrite (run_mono _ _ _ _ _ Hrun) by lia. simpl. by rewrite Hpath.
  - exists fuel0, (g, []). unfold a_star_search. by rewrite Hrun.
Qed.

Lemma returned_path_some (o : outcome (Graph * list Cell)) (path : list Cell) :
  returned_path o = Some path <-> exists final, o = Returned (final, path).
Proof.
  destruct o as [[g p]| |]; simpl; split; try done.
  - intros [= ->]. by exists g.
  - by intros [final [= -> ->]].
  - by intros [? ?].
  - by intros [? ?].
Qed.

(** X1. Whatever [depth_first_search] or [breadth_first_search] returns is
    right, on any graph: a non-empty result is a path from the start to the
    goal along edges of the graph, and the empty result is returned only when
    the goal cannot be reached from the start. *)
Theorem uninformed_result_sound (fuel : nat) (graph : Graph) (start goal : Cell)
    (path : list Cell) :
  returned_path (depth_first_search fuel graph start goal) = Some path
  \/ returned_path (breadth_first_search fuel graph start goal) = Some path ->
  (path = [] /\ ~ reachable_cell graph start goal)
  \/ path_between graph start goal path.
Proof.
  intros [H|H]; apply returned_path_some in H; destruct H as [final H];
    by eapply search_returned_sound.
Qed.

Lemma uninformed_result_sound_witness :
  ([mkCell 0 0; mkCell 0 1; mkCell 0 2; mkCell 1 2; mkCell 2 2] = []
   /\ ~ reachable_cell open3 (mkCell 0 0) (mkCell 2 2))
  \/ path_between open3 (mkCell 0 0) (mkCell 2 2)
       [mkCell 0 0; mkCell 0 1; mkCell 0 2; mkCell 1 2; mkCell 2 2].
Proof.
  apply (uninformed_result_sound 60 open3 (mkCell 0 0) (mkCell 2 2)).
  left. vm_compute. reflexivity.
Defined.

(** X2. Whatever [a_star_search] returns is right, on any graph and whether
    or not the heuristic fits its neighbour relation: a non-empty result is a
    path from the start to the goal along edges of the graph, and the empty
    result is returned only when the goal cannot be reached from the start. *)
Theorem astar_result_sound (fuel : nat) (graph : Graph) (start goal : Cell)
    (path : list Cell) :
  returned_path (a_star_search fuel graph start goal) = Some path ->
  (path = [] /\ ~ reachable_cell graph start goal)
  \/ path_between graph start goal path.
Proof.
  intros H. apply returned_path_some in H. destruct H as [final H].
  by eapply astar_returned_sound.
Qed.

Lemma astar_result_sound_witness :
  ([mkCell 0 0; mkCell 1 0; mkCell 2 1; mkCell 2 2; mkCell 2 3] = []
   /\ ~ reachable_cell diagonal34 (mkCell 0 0) (mkCell 2 3))
  \/ path_between diagonal34 (mkCell 0 0) (mkCell 2 3)
       [mkCell 0 0; mkCell 1 0; mkCell 2 1; mkCell 2 2; mkCell 2 3].
Proof.
  apply (astar_result_sound 100 diagonal34 (mkCell 0 0) (mkCell 2 3)).
  vm_compute. reflexivity.
Defined.

(** ** Every search ends on a finite grid, with a path when there is one *)

(** X3. On a finite grid whose goal can be reached from the start,
    [depth_first_search] returns, with any large enough step budget, a path
    from the start to the goal along edges of the grid. *)
Theorem dfs_finds_a_path (graph : Graph) (cells : list (Z * Z)) (start goal : Cell) :
  grid_closed graph cells -> key_of start ∈ cells ->
  reachable_cell graph start goal ->
  exists fuel0 final path,
    (forall fuel, (fuel0 <= fuel)%nat ->
       depth_first_search fuel graph start goal = Returned (final, path))
    /\ path_between graph start goal path.
Proof.
  intros Hcl Hstart Hreach.
  destruct (search_eventually_returns LIFO graph cells start goal Hcl Hstart)
    as (fuel0 & [final path] & Hret).
  exists fuel0, final, path. split.
  - intros fuel Hle. by apply (search_returned_mono LIFO fuel0 fuel).
  - by destruct (search_returned_sound _ _ _ _ _ _ _ Hret) as [[_ Hno]|Hpath].
Qed.

Lemma dfs_finds_a_path_witness :
  exists fuel0 final path,
    (forall fuel, (fuel0 <= fuel)%nat ->
       depth_first_search fuel open3 (mkCell 0 0) (mkCell 2 2) = Returned (final, path))
    /\ path_between open3 (mkCell 0 0) (mkCell 2 2) path.
Proof.
  apply (dfs_finds_a_path open3 (grid_cells 3 3) (mkCell 0 0) (mkCell 2 2)).
  - refine (bool_decide_unpack _ _); vm_compute; exact I.
  - refine (bool_decide_unpack _ _); vm_compute; exact I.
  - exists [mkCell 0 0; mkCell 0 1; mkCell 0 2; mkCell 1 2; mkCell 2 2].
    refine (bool_decide_unpack _ _); vm_compute; exact I.
Defined.

(** ** The heuristic *)

(** X6. [heuristic] is a metric on cells: it is never negative, it is
    symmetric, it is zero exactly between cells of equal coordinates, and it
    obeys the triangle inequality. *)
Theorem heuristic_is_metric (a b c : Cell) :
  0 <= heuristic a b
  /\ heuristic a b = heuristic b a
  /\ (heuristic a b = 0 <-> (cell_i a = cell_i b /\ cell_j a = cell_j b))
  /\ heuristic a c <= heuristic a b + heuristic b c.
Proof. unfold heuristic. repeat split; lia. Qed.

Lemma heuristic_walk (graph : Graph) (cells : list (Z * Z)) (a b : Cell)
    (p : list Cell) :
  grid_closed graph cells -> unit_steps graph cells -> key_of a ∈ cells ->
  walk graph a p b -> heuristic a b <= Z.of_nat (length p).
Proof.
  intros Hcl Hu. revert a. induction p as [|c p IH]; simpl; intros a Ha Hw.
  - subst. unfold heuristic. lia.
  - destruct Hw as [He Hw].
    pose proof (heuristic_consistent graph cells b a c Hu Ha He).
    assert (Hc : key_of c ∈ cells) by (by eapply grid_closed_edge).
    specialize (IH c Hc Hw). lia.
Qed.

(** X7. On a grid of unit steps [heuristic] never overestimates: its value
    between two cells is at most the number of edges of any path of the grid
    from the one to the other. *)
Theorem heuristic_admissible (graph : Graph) (cells : list (Z * Z)) (a b : Cell)
    (path : list Cell) :
  grid_closed graph cells -> unit_steps graph cells -> key_of a ∈ cells ->
  path_between graph a b path ->
  heuristic a b <= Z.of_nat (edge_count path).
Proof.
  intros Hcl Hu Ha Hpath. destruct path as [|c p]; [done|].
  destruct Hpath as [-> Hw]. unfold edge_count. simpl.
  by eapply heuristic_walk.
Qed.

Lemma heuristic_admissible_witness :
  heuristic (mkCell 0 0) (mkCell 2 2)
  <= Z.of_nat (edge_count [mkCell 0 0; mkCell 0 1; mkCell 0 2; mkCell 1 2; mkCell 2 2]).
Proof.
  apply (heuristic_admissible open3 (grid_cells 3 3) (mkCell 0 0) (mkCell 2 2)).
  - refine (bool_decide_unpack _ _); vm_compute; exact I.
  - refine (bool_decide_unpack _ _); vm_compute; exact I.
  - refine (bool_decide_unpack _ _); vm_compute; exact I.
  - refine (bool_decide_unpack _ _); vm_compute; exact I.
Defined.

(** ** The visited log *)

Lemma NoDup_fmap_snoc (log : list Cell) (c : Cell) :
  NoDup (key_of <$> log) -> key_of c ∉ key_of <$> log ->
  NoDup (key_of <$> (log ++ [c])).
Proof.
  intros Hnd Hc. rewrite fmap_app. apply NoDup_app. split; [done|]. split.
  - intros x Hx Hx'. simpl in Hx'. apply list_elem_of_singleton in Hx'. by subst.
  - simpl. apply NoDup_singleton.
Qed.

Lemma search_step_log_inv (d : discipline) (goal : Cell) (graph0 : Graph) (start : Cell)
    (s s' : search_state) :
  search_inv graph0 start s -> search_log start s ->
  search_step d goal s = inl s' -> search_log start s'.
Proof.
  intros Hinv [Hnd [l Hl]] Hstep. pose proof (si_log _ _ _ Hinv) as Hlog.
  destruct s as [graph frontier visited loop]. unfold search_step in Hstep.
  unfold search_log. simpl in *. destruct loop as [[cur [|nbr rest]]|].
  - injection Hstep as <-. simpl. eauto.
  - destruct (decide (key_of nbr ∈ visited)) as [Hin|Hnotin]; injection Hstep as <-; simpl.
    + eauto.
    + rewrite mkCell_eta. split.
      * apply NoDup_fmap_snoc; [done|]. by rewrite <- Hlog.
      * rewrite Hl. by eexists.
  - destruct frontier as [|cur frontier]; [done|].
    destruct (at_goal cur goal); [done|]. injection Hstep as <-. simpl. eauto.
Qed.

Lemma search_reachable_log (d : discipline) (goal : Cell) (graph : Graph)
    (start : Cell) (s : search_state) :
  reachable (search_step d goal) (search_init (init_graph graph) start) s ->
  search_inv (init_graph graph) start s /\ search_log start s.
Proof.
  apply (reachable_inv (search_step d goal)
           (fun t => search_inv (init_graph graph) start t /\ search_log start t)).
  - intros t t' [Hi Hl] Hstep. split; [by eapply search_step_inv|].
    by eapply search_step_log_inv.
  - split; [apply search_init_inv|]. unfold search_log. simpl. rewrite mkCell_eta.
    split; [apply NoDup_singleton | by eexists].
Qed.

Lemma astar_step_log_inv (goal : Cell) (graph0 : Graph) (start : Cell)
    (s s' : astar_state) :
  astar_inv graph0 start goal s -> astar_log start s ->
  astar_step goal s = inl s' -> astar_log start s'.
Proof.
  intros Hinv [Hnd Hhead] Hstep. pose proof (ai_log _ _ _ _ Hinv) as Hlog.
  pose proof (ai_phase _ _ _ _ Hinv) as Hphase.
  destruct s as [graph heap gc cnt cl loop]. unfold astar_step in Hstep.
  unfold astar_log. simpl in *. destruct loop as [[[g cur] [|nbr rest]]|].
  - injection Hstep as <-. simpl. eauto.
  - destruct (decide (key_of nbr ∈ cl)); [injection Hstep as <-; simpl; eauto|].
    destruct (match gc !! key_of nbr with
              | Some old => g + 1 <? old
              | None => true
              end); injection Hstep as <-; simpl; eauto.
  - destruct (heappop heap) as [[e heap']|] eqn:Hpop; [|done].
    destruct (decide (key_of (e_cell e) ∈ cl)) as [Hin|Hnotin];
      [injection Hstep as <-; simpl; eauto|].
    destruct (at_goal (e_cell e) goal); [done|]. injection Hstep as <-. simpl.
    rewrite mkCell_eta. split.
    + apply NoDup_fmap_snoc; [done|]. by rewrite <- Hlog.
    + right. destruct Hhead as [[Hnil Hopen]|[l Hl]].
      * destruct Hphase as [?|[Hh _]]; [done|]. subst heap. simpl in Hpop.
        injection Hpop as <- <-. simpl. rewrite Hnil. by eexists.
      * rewrite Hl. by eexists.
Qed.

Lemma astar_reachable_log (goal : Cell) (graph : Graph) (start : Cell)
    (s : astar_state) :
  reachable (astar_step goal) (astar_init (init_graph graph) start goal) s ->
  astar_inv (init_graph graph) start goal s /\ astar_log start s.
Proof.
  apply (reachable_inv (astar_step goal)
           (fun t => astar_inv (init_graph graph) start goal t /\ astar_log start t)).
  - intros t t' [Hi Hl] Hstep. split; [by eapply astar_step_inv|].
    by eapply astar_step_log_inv.
  - split; [apply astar_init_inv|]. unfold astar_log. simpl.
    split; [apply NoDup_nil_2|]. left. split; [done|]. apply not_elem_of_empty.
Qed.

Lemma uninformed_log_facts (d : discipline) (fuel : nat) (graph : Graph)
    (start goal : Cell) (final : Graph) (path : list Cell) :
  search d fuel graph start goal = Returned (final, path) ->
  NoDup (visited_cells final)
  /\ head (visited_cells final) = Some start
  /\ forall c, c ∈ visited_cells final <-> is_Some (parent final !! key_of c).
Proof.
  intros Hres. destruct (search_result_graph _ _ _ _ _ _ _ Hres) as (s & Hreach & ->).
  destruct (search_reachable_log _ _ _ _ _ Hreach) as [Hinv [Hnd [l Hl]]].
  split; [by eapply NoDup_fmap_1|]. split; [by rewrite Hl|].
  intros c. rewrite <- (si_dom _ _ _ Hinv), (si_log _ _ _ Hinv). split.
  - intros Hc. apply list_elem_of_fmap. by exists c.
  - intros Hc. apply list_elem_of_fmap in Hc. destruct Hc as (c' & Heq & Hc').
    apply key_of_inj in Heq. by subst.
Qed.

Lemma astar_result_exit (fuel : nat) (graph : Graph) (start goal : Cell)
    (g : Graph) (p : list Cell) :
  a_star_search fuel graph start goal = Returned (g, p) ->
  exists s, reachable (astar_step goal) (astar_init (init_graph graph) start goal) s
    /\ a_loop s = None
    /\ ((open_heap s = [] /\ g = a_graph s /\ p = [])
        \/ (exists x heap, heappop (open_heap s) = Some (x, heap)
                           /\ e_cell x = goal /\ (key_of goal ∉ closed s)
                           /\ g = log_visited goal (a_graph s)
                           /\ trace_path fuel goal g = Returned p)).
Proof.
  unfold a_star_search.
  destruct (run (astar_step goal) fuel _) as [[g' e]|] eqn:Hrun; [|done].
  destruct (run_exit _ _ _ _ Hrun) as (s & Hreach & Hexit).
  destruct (astar_step_exit _ _ _ _ Hexit) as (Hloop & He).
  intros Hfin. exists s. split; [done|]. split; [done|].
  destruct e as [cur|]; simpl in Hfin.
  - destruct He as (-> & -> & Hopen & x & heap & Hpop & Hx). right. exists x, heap.
    destruct (trace_path fuel goal _) as [p'| |] eqn:Hp; try done.
    inversion Hfin; subst. by rewrite Hp.
  - destruct He as [Hheap ->]. left. by inversion Hfin.
Qed.

Lemma astar_log_facts (fuel : nat) (graph : Graph) (start goal : Cell)
    (final : Graph) (path : list Cell) :
  a_star_search fuel graph start goal = Returned (final, path) ->
  NoDup (visited_cells final)
  /\ head (visited_cells final) = Some start
  /\ forall c, c ∈ visited_cells final -> is_Some (parent final !! key_of c).
Proof.
  intros Hres. destruct (astar_result_exit _ _ _ _ _ _ Hres) as (s & Hreach & Hloop & Hg).
  destruct (astar_reachable_log _ _ _ _ Hreach) as [Hinv [Hnd Hhead]].
  assert (Hentry : forall c, c ∈ visited_cells (a_graph s) ->
                     is_Some (parent (a_graph s) !! key_of c)).
  { intros c Hc. apply (ai_dom _ _ _ _ Hinv), (ai_closed _ _ _ _ Hinv), (ai_log _ _ _ _ Hinv).
    apply list_elem_of_fmap. by exists c. }
  destruct Hg as [(Hheap & -> & _)|(x & heap & Hpop & Hx & Hopen & -> & _)].
  - split; [by eapply NoDup_fmap_1|]. split; [|done].
    destruct Hhead as [[_ Hs]|[l ->]]; [|done].
    destruct (ai_phase _ _ _ _ Hinv) as [?|[Hh _]]; [done|]. by rewrite Hheap in Hh.
  - simpl. rewrite mkCell_eta.
    assert (Hin : x ∈ open_heap s).
    { destruct (heappop_spec _ _ _ Hpop) as [Hperm _]. rewrite <- Hperm. by left. }
    split; [|split].
    + apply (NoDup_fmap_1 key_of). apply NoDup_fmap_snoc; [done|].
      by rewrite <- (ai_log _ _ _ _ Hinv).
    + destruct Hhead as [[-> Hs]|[l ->]]; [|done]. simpl.
      destruct (ai_phase _ _ _ _ Hinv) as [?|[Hh _]]; [done|].
      rewrite Hh in Hpop. simpl in Hpop. injection Hpop as <- _. simpl in Hx. by subst.
    + intros c Hc. apply elem_of_app in Hc. destruct Hc as [Hc|Hc]; [by apply Hentry|].
      apply list_elem_of_singleton in Hc. subst c. apply (ai_dom _ _ _ _ Hinv).
      destruct (ai_heap _ _ _ _ Hinv x Hin) as (_ & (g0 & Hg0 & _) & _).
      rewrite Hx in Hg0. by eexists.
Qed.

(** X8. The visited log that [depth_first_search] and [breadth_first_search]
    leave lists every discovered cell once: it has no cell twice, its first
    cell is the start, and a cell is in the log exactly when it has a parent
    entry.  ([search LIFO] is [depth_first_search], [search FIFO] is
    [breadth_first_search].) *)
Theorem uninformed_visited_log (d : discipline) (fuel : nat) (graph : Graph)
    (start goal : Cell) (final : Graph) (path : list Cell) :
  search d fuel graph start goal = Returned (final, path) ->
  NoDup (visited_cells final)
  /\ head (visited_cells final) = Some start
  /\ forall c, c ∈ visited_cells final <-> is_Some (parent final !! key_of c).
Proof. apply uninformed_log_facts. Qed.

Lemma uninformed_visited_log_witness :
  NoDup (visited_cells (s_graph (state_after (search_step FIFO (mkCell 2 2)) 60
                                   (search_init (init_graph open3) (mkCell 0 0)))))
  /\ head (visited_cells (s_graph (state_after (search_step FIFO (mkCell 2 2)) 60
                                     (search_init (init_graph open3) (mkCell 0 0)))))
     = Some (mkCell 0 0)
  /\ forall c,
       c ∈ visited_cells (s_graph (state_after (search_step FIFO (mkCell 2 2)) 60
                                     (search_init (init_graph open3) (mkCell 0 0))))
       <-> is_Some (parent (s_graph (state_after (search_step FIFO (mkCell 2 2)) 60
                                       (search_init (init_graph open3) (mkCell 0 0))))
                    !! key_of c).
Proof.
  apply (uninformed_visited_log FIFO 60 open3 (mkCell 0 0) (mkCell 2 2) _
           [mkCell 0 0; mkCell 1 0; mkCell 2 0; mkCell 2 1; mkCell 2 2]).
  vm_compute. reflexivity.
Defined.

(** X9. The visited log that [a_star_search] leaves lists every expanded cell
    once: it has no cell twice, its first cell is the start, and every cell
    in it has a parent entry. *)
Theorem astar_visited_log (fuel : nat) (graph : Graph) (start goal : Cell)
    (final : Graph) (path : list Cell) :
  a_star_search fuel graph start goal = Returned (final, path) ->
  NoDup (visited_cells final)
  /\ head (visited_cells final) = Some start
  /\ forall c, c ∈ visited_cells final -> is_Some (parent final !! key_of c).
Proof. apply astar_log_facts. Qed.

Lemma astar_visited_log_witness :
  NoDup (visited_cells
           (log_visited (mkCell 2 2)
              (a_graph (state_after (astar_step (mkCell 2 2)) 100
                          (astar_init (init_graph open3) (mkCell 0 0) (mkCell 2 2))))))
  /\ head (visited_cells
             (log_visited (mkCell 2 2)
                (a_graph (state_after (astar_step (mkCell 2 2)) 100
                            (astar_init (init_graph open3) (mkCell 0 0) (mkCell 2 2))))))
     = Some (mkCell 0 0)
  /\ forall c,
       c ∈ visited_cells
             (log_visited (mkCell 2 2)
                (a_graph (state_after (astar_step (mkCell 2 2)) 100
                            (astar_init (init_graph open3) (mkCell 0 0) (mkCell 2 2)))))
       -> is_Some (parent
                     (log_visited (mkCell 2 2)
                        (a_graph (state_after (astar_step (mkCell 2 2)) 100
                                    (astar_init (init_graph open3) (mkCell 0 0)
                                       (mkCell 2 2)))))
                   !! key_of c).
Proof.
  apply (astar_visited_log 100 open3 (mkCell 0 0) (mkCell 2 2) _
           [mkCell 0 0; mkCell 1 0; mkCell 2 0; mkCell 2 1; mkCell 2 2]).
  vm_compute. reflexivity.
Defined.

Lemma search_reachable_bounded (d : discipline) (goal : Cell) (graph : Graph)
    (cells : list (Z * Z)) (start : Cell) (s : search_state) :
  grid_closed graph cells -> key_of start ∈ cells ->
  reachable (search_step d goal) (search_init (init_graph graph) start) s ->
  forall k, k ∈ s_visited s -> k ∈ cells.
Proof.
  intros Hcl0 Hstart Hreach.
  assert (Hcl : grid_closed (init_graph graph) cells) by exact Hcl0.
  assert (Hb : search_bounded (init_graph graph) start cells s).
  { eapply (reachable_inv (search_step d goal)
              (search_bounded (init_graph graph) start cells)); [| |exact Hreach].
    - intros t t'. by apply search_step_bounded.
    - split; [apply search_init_inv|]. simpl. intros k Hk.
      apply elem_of_singleton in Hk. by subst. }
  by destruct Hb.
Qed.

Lemma astar_reachable_bounded (goal : Cell) (graph : Graph) (cells : list (Z * Z))
    (start : Cell) (s : astar_state) :
  grid_closed graph cells -> key_of start ∈ cells ->
  reachable (astar_step goal) (astar_init (init_graph graph) start goal) s ->
  forall k, is_Some (g_cost s !! k) -> k ∈ cells.
Proof.
  intros Hcl0 Hstart Hreach.
  assert (Hcl : grid_closed (init_graph graph) cells) by exact Hcl0.
  assert (Hb : astar_bounded (init_graph graph) start goal cells s).
  { eapply (reachable_inv (astar_step goal)
              (astar_bounded (init_graph graph) start goal cells)); [| |exact Hreach].
    - intros t t'. by apply astar_step_bounded.
    - split; [apply astar_init_inv|]. simpl. intros k [v Hk].
      destruct (decide (key_of start = k)) as [<-|Hne]; [done|].
      by rewrite lookup_singleton_ne in Hk. }
  by destruct Hb.
Qed.

Lemma log_length_bound (log : list Cell) (cells : list (Z * Z)) :
  NoDup log -> (forall c, c ∈ log -> key_of c ∈ cells) ->
  (length log <= length cells)%nat.
Proof.
  intros Hnd Hsub. rewrite <- (length_fmap key_of log).
  apply submseteq_length, NoDup_submseteq.
  - apply NoDup_fmap_2; [|done]. intros a b. apply key_of_inj.
  - intros k Hk. apply list_elem_of_fmap in Hk. destruct Hk as (c & -> & Hc). by apply Hsub.
Qed.

(** X10. On a finite grid no search logs more cells than the grid has: the
    visited log a search leaves is at most as long as the list of the grid's
    cells. *)
Theorem visited_log_bounded (graph : Graph) (cells : list (Z * Z)) (start goal : Cell)
    (fuel : nat) :
  grid_closed graph cells -> key_of start ∈ cells ->
  (forall d final path,
     search d fuel graph start goal = Returned (final, path) ->
     (length (visited_cells final) <= length cells)%nat)
  /\ (forall final path,
        a_star_search fuel graph start goal = Returned (final, path) ->
        (length (visited_cells final) <= length cells)%nat).
Proof.
  intros Hcl Hstart. split.
  - intros d final path Hres.
    destruct (uninformed_log_facts d fuel graph start goal final path Hres)
      as (Hnd & _ & Hentry).
    destruct (search_result_graph _ _ _ _ _ _ _ Hres) as (s & Hreach & ->).
    pose proof (search_reachable_inv _ _ _ _ _ Hreach) as Hinv.
    apply log_length_bound; [done|]. intros c Hc.
    apply (search_reachable_bounded d goal graph cells start s Hcl Hstart Hreach).
    apply (si_dom _ _ _ Hinv). by apply Hentry.
  - intros final path Hres.
    destruct (astar_log_facts fuel graph start goal final path Hres) as (Hnd & _ & Hentry).
    destruct (astar_result_exit _ _ _ _ _ _ Hres) as (s & Hreach & _ & Hg).
    pose proof (astar_reachable_inv _ _ _ _ Hreach) as Hinv.
    apply log_length_bound; [done|]. intros c Hc.
    apply (astar_reachable_bounded goal graph cells start s Hcl Hstart Hreach).
    apply (ai_dom _ _ _ _ Hinv). specialize (Hentry c Hc).
    by destruct Hg as [(_ & -> & _)|(x & heap & _ & _ & _ & -> & _)].
Qed.

Lemma visited_log_bounded_witness :
  (forall d final path,
     search d 60 walled3 (mkCell 0 0) (mkCell 0 2) = Returned (final, path) ->
     (length (visited_cells final) <= length (grid_cells 3 3))%nat)
  /\ (forall final path,
        a_star_search 60 walled3 (mkCell 0 0) (mkCell 0 2) = Returned (final, path) ->
        (length (visited_cells final) <= length (grid_cells 3 3))%nat).
Proof.
  apply (visited_log_bounded walled3 (grid_cells 3 3) (mkCell 0 0) (mkCell 0 2) 60).
  - refine (bool_decide_unpack _ _); vm_compute; exact I.
  - refine (bool_decide_unpack _ _); vm_compute; exact I.
Defined.

(** ** The returned path has no cell twice and lies in the visited log *)

(** [trace_path_from] on a chain that leads to the root, cell by cell: the
    cell at position [i] of the result is [i] parent links away from the
    root, the last cell is the one the walk began at, and each cell is the
    parent of the next. *)
Lemma trace_path_from_depths (graph : Graph) (start c : Cell) (n fuel : nat)
    (acc : list Cell) :
  parent graph !! key_of start = Some None ->
  ancestor (parent graph) c n start ->
  (n < fuel)%nat ->
  exists p, trace_path_from fuel c graph acc = Returned (p ++ acc)
    /\ length p = S n
    /\ p !! n = Some c
    /\ (forall i x, p !! i = Some x -> ancestor (parent graph) x i start)
    /\ (forall i y, p !! S i = Some y ->
          exists x, p !! i = Some x /\ parent graph !! key_of y = Some (Some x)).
Proof.
  intros Hroot Ha. revert fuel acc.
  induction Ha as [c|c p n a Hc Ha IH]; intros fuel acc Hlt.
  - destruct fuel as [|fuel]; [lia|]. simpl. rewrite Hroot, mkCell_eta.
    exists [c]. split; [done|]. split; [done|]. split; [done|]. split.
    + intros i x Hx. destruct i as [|i]; [|done]. simpl in Hx. inversion Hx. constructor.
    + intros i y Hy. done.
  - destruct fuel as [|fuel]; [lia|]. simpl. rewrite Hc, mkCell_eta.
    destruct (IH Hroot fuel (c :: acc) ltac:(lia)) as (q & Hq & Hlen & Hlast & Hdep & Hlink).
    exists (q ++ [c]). rewrite <- app_assoc. simpl. split; [done|]. split; [|split; [|split]].
    + rewrite length_app. simpl. lia.
    + rewrite lookup_app_r by lia. rewrite Hlen, Nat.sub_diag. done.
    + intros i x Hx. apply lookup_app_Some in Hx. destruct Hx as [Hx|[Hge Hx]].
      * by apply Hdep.
      * rewrite Hlen in *. destruct (i - S n)%nat as [|k] eqn:Hk; [|done].
        simpl in Hx. inversion Hx; subst x. assert (i = S n) as -> by lia.
        by eapply ancestor_up.
    + intros i y Hy. apply lookup_app_Some in Hy. destruct Hy as [Hy|[Hge Hy]].
      * destruct (Hlink i y Hy) as (x & Hx & Hp). exists x. split; [|done].
        by apply lookup_app_l_Some.
      * rewrite Hlen in *. destruct (S i - S n)%nat as [|k] eqn:Hk; [|done].
        simpl in Hy. inversion Hy; subst y. assert (i = n) as -> by lia.
        exists p. split; [|done]. by apply lookup_app_l_Some.
Qed.

Lemma trace_path_simple (graph : Graph) (start c : Cell) (n fuel : nat)
    (path : list Cell) :
  parent graph !! key_of start = Some None ->
  ancestor (parent graph) c n start ->
  trace_path fuel c graph = Returned path ->
  NoDup path
  /\ (forall x, x ∈ path -> is_Some (parent graph !! key_of x))
  /\ (forall x, x ∈ path -> x = c \/ exists y, parent graph !! key_of y = Some (Some x)).
Proof.
  intros Hroot Ha Hp.
  destruct (trace_path_from_depths graph start c n (fuel `max` S n)%nat [] Hroot Ha
              ltac:(lia)) as (p & Hp' & Hlen & Hlast & Hdep & Hlink).
  rewrite app_nil_r in Hp'.
  pose proof (trace_path_mono _ fuel (fuel `max` S n)%nat _ _ ltac:(lia) Hp) as Hp2.
  unfold trace_path in Hp2. rewrite Hp' in Hp2. inversion Hp2; subst p. split; [|split].
  - apply NoDup_alt. intros i j x Hi Hj.
    by apply (ancestor_depth_unique (parent graph) start x i j Hroot); apply Hdep.
  - intros x Hx. apply list_elem_of_lookup in Hx. destruct Hx as [i Hi].
    apply Hdep in Hi. inversion Hi; subst; by eexists.
  - intros x Hx. apply list_elem_of_lookup in Hx. destruct Hx as [i Hi].
    destruct (decide (i = n)) as [->|Hne]; [left; congruence|]. right.
    assert (Hlt : (S i < length path)%nat).
    { apply lookup_lt_Some in Hi. lia. }
    destruct (lookup_lt_is_Some_2 path (S i) Hlt) as [y Hy].
    exists y. destruct (Hlink i y Hy) as (x' & Hx' & Hpar). congruence.
Qed.

Lemma search_result_exit (d : discipline) (fuel : nat) (graph : Graph)
    (start goal : Cell) (g : Graph) (p : list Cell) :
  search d fuel graph start goal = Returned (g, p) ->
  exists s, reachable (search_step d goal) (search_init (init_graph graph) start) s
    /\ g = s_graph s /\ s_loop s = None
    /\ ((s_frontier s = [] /\ p = [])
        \/ (key_of goal ∈ s_visited s /\ trace_path fuel goal g = Returned p)).
Proof.
  unfold search.
  destruct (run (search_step d goal) fuel _) as [[g' e]|] eqn:Hrun; [|done].
  destruct (run_exit _ _ _ _ Hrun) as (s & Hreach & Hexit).
  pose proof (search_reachable_inv _ _ _ _ _ Hreach) as Hinv.
  destruct (search_step_exit _ _ _ _ _ Hexit) as (-> & Hloop & He).
  intros Hfin. exists s. destruct e as [cur|]; simpl in Hfin.
  - destruct He as (-> & frontier & Hfr).
    destruct (trace_path fuel goal (s_graph s)) as [p'| |] eqn:Hp; try done.
    inversion Hfin; subst. repeat split; try done. right. split; [|done].
    apply (si_frontier _ _ _ Hinv). rewrite Hfr. by left.
  - inversion Hfin; subst. repeat split; try done. by left.
Qed.

Lemma search_path_facts (d : discipline) (fuel : nat) (graph : Graph)
    (start goal : Cell) (final : Graph) (path : list Cell) :
  search d fuel graph start goal = Returned (final, path) ->
  NoDup path /\ forall x, x ∈ path -> x ∈ visited_cells final.
Proof.
  intros Hres.
  destruct (uninformed_log_facts _ _ _ _ _ _ _ Hres) as (_ & _ & Hlog).
  destruct (search_result_exit _ _ _ _ _ _ _ Hres)
    as (s & Hreach & -> & Hloop & [[_ ->]|[Hv Htr]]).
  - split; [apply NoDup_nil_2|]. intros x Hx. by apply elem_of_nil in Hx.
  - pose proof (search_reachable_inv _ _ _ _ _ Hreach) as Hinv.
    destruct (si_root _ _ _ Hinv goal) as [n Hanc]; [by apply (si_dom _ _ _ Hinv)|].
    destruct (trace_path_simple _ _ _ _ _ _ (si_start _ _ _ Hinv) Hanc Htr)
      as (Hnd & Hin & _).
    split; [done|]. intros x Hx. apply Hlog. by apply Hin.
Qed.

Lemma astar_path_facts (fuel : nat) (graph : Graph) (start goal : Cell)
    (final : Graph) (path : list Cell) :
  a_star_search fuel graph start goal = Returned (final, path) ->
  NoDup path /\ forall x, x ∈ path -> x ∈ visited_cells final.
Proof.
  intros Hres.
  destruct (astar_result_exit _ _ _ _ _ _ Hres) as (s & Hreach & Hloop & Hg).
  pose proof (astar_reachable_inv _ _ _ _ Hreach) as Hinv.
  destruct Hg as [(_ & _ & ->)|(e & heap & Hpop & He & Hopen & -> & Htr)].
  - split; [apply NoDup_nil_2|]. intros x Hx. by apply elem_of_nil in Hx.
  - assert (Hin : e ∈ open_heap s).
    { destruct (heappop_spec _ _ _ Hpop) as [Hperm _]. rewrite <- Hperm. by left. }
    assert (Hgoal : is_Some (parent (a_graph s) !! key_of goal)).
    { apply (ai_dom _ _ _ _ Hinv).
      destruct (ai_heap _ _ _ _ Hinv e Hin) as (_ & (g0 & Hg0 & _) & _).
      rewrite He in Hg0. by eexists. }
    destruct (ai_root _ _ _ _ Hinv goal Hgoal) as [n Hanc].
    destruct (trace_path_simple (log_visited goal (a_graph s)) start goal n fuel path
                (proj1 (ai_start _ _ _ _ Hinv)) Hanc Htr) as (Hnd & _ & Hin').
    split; [done|]. intros x Hx. simpl. rewrite mkCell_eta. apply elem_of_app.
    destruct (Hin' x Hx) as [->|[y Hy]]; [right; by apply list_elem_of_singleton|].
    left. simpl in Hy. destruct (ai_link _ _ _ _ Hinv y x Hy) as (Hc & _).
    apply (ai_log _ _ _ _ Hinv) in Hc. apply list_elem_of_fmap in Hc.
    destruct Hc as (x' & Hk & Hx'). apply key_of_inj in Hk. by subst.
Qed.

(** X11. No search returns a path that passes through a cell twice. *)
Theorem returned_path_simple (fuel : nat) (graph : Graph) (start goal : Cell)
    (path : list Cell) :
  returned_path (depth_first_search fuel graph start goal) = Some path
  \/ returned_path (breadth_first_search fuel graph start goal) = Some path
  \/ returned_path (a_star_search fuel graph start goal) = Some path ->
  NoDup path.
Proof.
  intros [H|[H|H]]; apply returned_path_some in H; destruct H as [final H].
  - by destruct (search_path_facts _ _ _ _ _ _ _ H).
  - by destruct (search_path_facts _ _ _ _ _ _ _ H).
  - by destruct (astar_path_facts _ _ _ _ _ _ H).
Qed.

Lemma returned_path_simple_witness :
  NoDup [mkCell 0 0; mkCell 1 0; mkCell 2 0; mkCell 2 1; mkCell 2 2].
Proof.
  apply (returned_path_simple 60 open3 (mkCell 0 0) (mkCell 2 2)).
  right. left. vm_compute. reflexivity.
Defined.

(** X12. Every cell of the path a search returns is in the visited log the
    search leaves in the graph. *)
Theorem returned_path_cells_are_logged (fuel : nat) (graph : Graph)
    (start goal : Cell) (final : Graph) (path : list Cell) :
  depth_first_search fuel graph start goal = Returned (final, path)
  \/ breadth_first_search fuel graph start goal = Returned (final, path)
  \/ a_star_search fuel graph start goal = Returned (final, path) ->
  forall x, x ∈ path -> x ∈ visited_cells final.
Proof.
  intros [H|[H|H]].
  - by destruct (search_path_facts _ _ _ _ _ _ _ H).
  - by destruct (search_path_facts _ _ _ _ _ _ _ H).
  - by destruct (astar_path_facts _ _ _ _ _ _ H).
Qed.

Lemma returned_path_cells_are_logged_witness :
  mkCell 2 1
  ∈ visited_cells
      (log_visited (mkCell 2 2)
         (a_graph (state_after (astar_step (mkCell 2 2)) 100
                     (astar_init (init_graph open3) (mkCell 0 0) (mkCell 2 2))))).
Proof.
  apply (returned_path_cells_are_logged 100 open3 (mkCell 0 0) (mkCell 2 2) _
           [mkCell 0 0; mkCell 1 0; mkCell 2 0; mkCell 2 1; mkCell 2 2]).
  - right. right. vm_compute. reflexivity.
  - refine (bool_decide_unpack _ _); vm_compute; exact I.
Defined.

(** ** Breadth-first search leaves a tree of shortest paths *)

(** At a state where the loop is about to pop or has run empty, the level of
    every visited cell is its distance from the start. *)
Lemma bfs_exit_minimal (graph0 : Graph) (start goal : Cell) (s : search_state)
    (lvl : Z * Z -> nat) (base : nat) (q1 q2 : list Cell) :
  search_inv graph0 start s ->
  bfs_inv graph0 start goal s lvl base q1 q2 ->
  s_loop s = None ->
  forall k c, reach_in graph0 start k c -> key_of c ∈ s_visited s ->
    (lvl (key_of c) <= k)%nat.
Proof.
  intros Hinv Hb Hloop. destruct (s_frontier s) as [|cur frontier] eqn:Hfr.
  - assert (Hnp : forall c, ~ pending s c).
    { intros c [Hc|[rest Hc]]; [|congruence]. rewrite Hfr in Hc.
      by apply elem_of_nil in Hc. }
    assert (Hall : forall k c, reach_in graph0 start k c ->
                     key_of c ∈ s_visited s /\ (lvl (key_of c) <= k)%nat).
    { intros k c Hr. induction Hr as [|k a b Hr [IHv IHl] He].
      - split; [|rewrite (bi_start _ _ _ _ _ _ _ _ Hb); lia].
        apply (si_dom _ _ _ Hinv). rewrite (si_start _ _ _ Hinv). by eexists.
      - destruct (bi_done _ _ _ _ _ _ _ _ Hb a IHv (Hnp a)) as [_ Hnb].
        destruct (Hnb b He) as [Hbv Hbl]. split; [done | lia]. }
    intros k c Hr _. by destruct (Hall k c Hr).
  - intros k c Hr Hv.
    destruct (decide (k <= lvl (key_of cur))%nat) as [Hle|Hgt].
    + by destruct (bfs_head_minimal _ _ _ _ _ _ _ _ _ _ Hinv Hb Hloop Hfr _ _ Hr Hle).
    + pose proof (bi_bound _ _ _ _ _ _ _ _ Hb _ Hv) as Hbound.
      assert (Hcur : (base <= lvl (key_of cur))%nat).
      { pose proof (bi_queue _ _ _ _ _ _ _ _ Hb) as Hq. rewrite Hfr in Hq.
        destruct q1 as [|x q1]; simpl in Hq.
        - rewrite (bi_q2 _ _ _ _ _ _ _ _ Hb cur) by (rewrite <- Hq; by left). lia.
        - inversion Hq; subst x frontier.
          rewrite (bi_q1 _ _ _ _ _ _ _ _ Hb cur) by (by left). lia. }
      lia.
Qed.

(** The parent links a finished breadth-first search leaves: the chain of
    every discovered cell is a shortest path to it. *)
Lemma bfs_tree_shortest (fuel : nat) (graph : Graph) (start goal : Cell)
    (final : Graph) (path : list Cell) (c : Cell) :
  search FIFO fuel graph start goal = Returned (final, path) ->
  is_Some (parent final !! key_of c) ->
  exists n, ancestor (parent final) c n start
    /\ (forall q, path_between graph start c q -> (n <= edge_count q)%nat)
    /\ forall fuel', (n < fuel')%nat ->
         exists p, trace_path fuel' c final = Returned p
                   /\ length p = S n /\ path_between graph start c p.
Proof.
  intros Hres Hc.
  destruct (search_result_exit _ _ _ _ _ _ _ Hres) as (s & Hreach & -> & Hloop & _).
  destruct (bfs_reachable_levels _ _ _ _ Hreach) as [Hinv (lvl & base & q1 & q2 & Hb)].
  apply (si_dom _ _ _ Hinv) in Hc.
  destruct (search_inv_trace _ _ _ _ Hinv Hc) as (n & Hanc & Htr).
  exists n. split; [done|]. split.
  - intros q Hq.
    assert (Hr : reach_in (init_graph graph) start (edge_count q) c).
    { apply path_reach_in. by apply (path_between_ext graph (init_graph graph)). }
    rewrite <- (bfs_inv_depth _ _ _ _ _ _ _ _ _ _ Hb Hanc).
    by apply (bfs_exit_minimal _ _ _ _ _ _ _ _ Hinv Hb Hloop _ _ Hr).
  - intros fuel' Hlt. destruct (Htr fuel' Hlt) as (p & Hp & Hlen & Hpath).
    exists p. split; [done|]. split; [done|].
    by apply (path_between_ext (init_graph graph) graph).
Qed.

(** What breadth-first search returns is as short as any path to the goal. *)
Lemma bfs_returned_shortest (fuel : nat) (graph : Graph) (start goal : Cell)
    (final : Graph) (path : list Cell) :
  search FIFO fuel graph start goal = Returned (final, path) ->
  forall q, path_between graph start goal q -> (length path <= length q)%nat.
Proof.
  intros Hres q Hq.
  destruct (search_result_exit _ _ _ _ _ _ _ Hres)
    as (s & Hreach & Hfinal & Hloop & [[_ ->]|[Hv Htr]]); [simpl; lia|].
  assert (Hc : is_Some (parent final !! key_of goal)).
  { subst final. by apply (si_dom _ _ _ (search_reachable_inv _ _ _ _ _ Hreach)). }
  destruct (bfs_tree_shortest _ _ _ _ _ _ goal Hres Hc) as (n & _ & Hmin & Htr').
  destruct (Htr' (fuel `max` S n)%nat ltac:(lia)) as (p & Hp & Hlen & _).
  pose proof (trace_path_mono _ fuel (fuel `max` S n)%nat _ _ ltac:(lia) Htr) as Hp2.
  rewrite Hp in Hp2. inversion Hp2; subst p. specialize (Hmin q Hq).
  unfold edge_count in Hmin. destruct q; [done|]. simpl in *. lia.
Qed.

(** X13. When [breadth_first_search] returns, the parent links it leaves form
    a tree of shortest paths, on any graph: the chain of parent links from
    any discovered cell [c] reaches the start, [trace_path] from [c] returns
    a path from the start to [c] along edges of the graph, and no path from
    the start to [c] has fewer edges. *)
Theorem bfs_parent_links_are_shortest_paths (fuel : nat) (graph : Graph)
    (start goal : Cell) (final : Graph) (path : list Cell) (c : Cell) :
  breadth_first_search fuel graph start goal = Returned (final, path) ->
  is_Some (parent final !! key_of c) ->
  exists n, ancestor (parent final) c n start
    /\ (forall q, path_between graph start c q -> (n <= edge_count q)%nat)
    /\ forall fuel', (n < fuel')%nat ->
         exists p, trace_path fuel' c final = Returned p
                   /\ length p = S n /\ path_between graph start c p.
Proof. apply bfs_tree_shortest. Qed.

Lemma bfs_parent_links_are_shortest_paths_witness :
  exists n,
    ancestor (parent (s_graph (state_after (search_step FIFO (mkCell 2 2)) 60
                                 (search_init (init_graph open3) (mkCell 0 0)))))
             (mkCell 1 1) n (mkCell 0 0)
    /\ (forall q, path_between open3 (mkCell 0 0) (mkCell 1 1) q ->
          (n <= edge_count q)%nat)
    /\ forall fuel', (n < fuel')%nat ->
         exists p,
           trace_path fuel' (mkCell 1 1)
             (s_graph (state_after (search_step FIFO (mkCell 2 2)) 60
                         (search_init (init_graph open3) (mkCell 0 0))))
           = Returned p
           /\ length p = S n /\ path_between open3 (mkCell 0 0) (mkCell 1 1) p.
Proof.
  apply (bfs_parent_links_are_shortest_paths 60 open3 (mkCell 0 0) (mkCell 2 2) _
           [mkCell 0 0; mkCell 1 0; mkCell 2 0; mkCell 2 1; mkCell 2 2]).
  - vm_compute. reflexivity.
  - refine (bool_decide_unpack _ _); vm_compute; exact I.
Defined.

(** X14. The path [breadth_first_search] returns is never longer than the
    one [depth_first_search] or [a_star_search] returns for the same graph,
    start and goal, whatever the graph and the step budgets. *)
Theorem bfs_path_is_shortest_of_the_three (fb fo : nat) (graph : Graph)
    (start goal : Cell) (pb po : list Cell) :
  returned_path (breadth_first_search fb graph start goal) = Some pb ->
  returned_path (depth_first_search fo graph start goal) = Some po
  \/ returned_path (a_star_search fo graph start goal) = Some po ->
  (length pb <= length po)%nat.
Proof.
  intros Hb Ho. apply returned_path_some in Hb. destruct Hb as [gb Hb].
  assert (Hsound : (po = [] /\ ~ reachable_cell graph start goal)
                   \/ path_between graph start goal po).
  { destruct Ho as [Ho|Ho]; apply returned_path_some in Ho; destruct Ho as [go Ho].
    - by apply (search_returned_sound LIFO fo graph start goal go).
    - by apply (astar_returned_sound fo graph start goal go). }
  destruct Hsound as [[-> Hno]|Hpath].
  - destruct (search_returned_sound _ _ _ _ _ _ _ Hb) as [[-> _]|Hpb]; [done|].
    exfalso. apply Hno. by exists pb.
  - by apply (bfs_returned_shortest _ _ _ _ _ _ Hb).
Qed.

Lemma bfs_path_is_shortest_of_the_three_witness :
  (length [mkCell 0 0; mkCell 1 0; mkCell 2 0; mkCell 2 1; mkCell 2 2]
   <= length [mkCell 0 0; mkCell 0 1; mkCell 0 2; mkCell 1 2; mkCell 2 2])%nat.
Proof.
  apply (bfs_path_is_shortest_of_the_three 60 60 open3 (mkCell 0 0) (mkCell 2 2)).
  - vm_compute. reflexivity.
  - left. vm_compute. reflexivity.
Defined.

(** ** The visited log and the cells that can be reached *)

Lemma search_log_reachable (d : discipline) (fuel : nat) (graph : Graph)
    (start goal : Cell) (final : Graph) (path : list Cell) :
  search d fuel graph start goal = Returned (final, path) ->
  (forall c, c ∈ visited_cells final -> reachable_cell graph start c)
  /\ (path = [] ->
      forall c, reachable_cell graph start c -> c ∈ visited_cells final).
Proof.
  intros Hres.
  destruct (uninformed_log_facts _ _ _ _ _ _ _ Hres) as (_ & _ & Hlog).
  destruct (search_result_exit _ _ _ _ _ _ _ Hres) as (s & Hreach & -> & Hloop & Hcase).
  destruct (search_reachable_done _ _ _ _ _ Hreach) as [Hinv Hdone].
  assert (Hsound : forall c, key_of c ∈ s_visited s -> reachable_cell graph start c).
  { intros c Hc. destruct (search_inv_trace _ _ _ _ Hinv Hc) as (n & _ & Htr).
    destruct (Htr (S n) ltac:(lia)) as (p & _ & _ & Hp).
    exists p. by apply (path_between_ext (init_graph graph) graph). }
  split.
  - intros c Hc. apply Hsound, (si_dom _ _ _ Hinv). by apply Hlog.
  - intros -> c [q Hq]. apply Hlog, (si_dom _ _ _ Hinv).
    assert (Hr : reach_in (init_graph graph) start (edge_count q) c).
    { apply path_reach_in. by apply (path_between_ext graph (init_graph graph)). }
    destruct Hcase as [[Hfr _]|[Hv _]].
    + by destruct (search_exhausted_unreachable _ _ _ _ Hinv Hdone Hloop Hfr _ _ Hr).
    + exfalso. destruct (search_returned_sound _ _ _ _ _ _ _ Hres) as [[_ Hno]|Hp]; [|done].
      by apply Hno, Hsound.
Qed.

Lemma astar_log_reachable (fuel : nat) (graph : Graph) (start goal : Cell)
    (final : Graph) (path : list Cell) :
  a_star_search fuel graph start goal = Returned (final, path) ->
  (forall c, c ∈ visited_cells final -> reachable_cell graph start c)
  /\ (path = [] ->
      forall c, reachable_cell graph start c -> c ∈ visited_cells final).
Proof.
  intros Hres.
  destruct (astar_log_facts _ _ _ _ _ _ Hres) as (_ & _ & Hlog).
  destruct (astar_result_exit _ _ _ _ _ _ Hres) as (s & Hreach & Hloop & Hcase).
  destruct (astar_reachable_done _ _ _ _ Hreach) as [Hinv Hdone].
  assert (Hparent : parent final = parent (a_graph s)).
  { destruct Hcase as [(_ & -> & _)|(e & heap & _ & _ & _ & -> & _)]; done. }
  assert (Hsound : forall c, is_Some (parent final !! key_of c) ->
                     reachable_cell graph start c).
  { intros c Hc. rewrite Hparent in Hc. apply (ai_dom _ _ _ _ Hinv) in Hc.
    destruct (astar_inv_trace _ _ _ _ c Hinv Hc) as (n & _ & _ & Htr).
    destruct (Htr (a_graph s) (S n) ltac:(lia) (ai_nbrs _ _ _ _ Hinv) eq_refl)
      as (p & _ & _ & Hp).
    exists p. by apply (path_between_ext (init_graph graph) graph). }
  split.
  - intros c Hc. by apply Hsound, Hlog.
  - intros -> c [q Hq].
    assert (Hr : reach_in (init_graph graph) start (edge_count q) c).
    { apply path_reach_in. by apply (path_between_ext graph (init_graph graph)). }
    destruct Hcase as [(Hheap & -> & _)|(e & heap & Hpop & He & _ & Hfinal & _)].
    + pose proof (astar_exhausted_unreachable _ _ _ _ Hinv Hdone Hloop Hheap _ _ Hr) as Hc.
      apply (ai_log _ _ _ _ Hinv), list_elem_of_fmap in Hc.
      destruct Hc as (c' & Hk & Hc'). apply key_of_inj in Hk. by subst.
    + exfalso. destruct (astar_returned_sound _ _ _ _ _ _ Hres) as [[_ Hno]|Hp]; [|done].
      apply Hno, Hsound. rewrite Hparent. apply (ai_dom _ _ _ _ Hinv).
      assert (Hin : e ∈ open_heap s).
      { destruct (heappop_spec _ _ _ Hpop) as [Hperm _]. rewrite <- Hperm. by left. }
      destruct (ai_heap _ _ _ _ Hinv e Hin) as (_ & (g0 & Hg0 & _) & _).
      rewrite He in Hg0. by eexists.
Qed.

(** X16. The visited log against the cells that can be reached, for the
    three searches and on any graph: every cell a search logs can be reached
    from the start, and when the search returns the empty path (the goal
    cannot be reached) the log holds every cell that can be reached from the
    start. *)
Theorem visited_log_and_reachable_cells (fuel : nat) (graph : Graph)
    (start goal : Cell) (final : Graph) (path : list Cell) :
  depth_first_search fuel graph start goal = Returned (final, path)
  \/ breadth_first_search fuel graph start goal = Returned (final, path)
  \/ a_star_search fuel graph start goal = Returned (final, path) ->
  (forall c, c ∈ visited_cells final -> reachable_cell graph start c)
  /\ (path = [] ->
      forall c, reachable_cell graph start c -> c ∈ visited_cells final).
Proof.
  intros [H|[H|H]].
  - by apply (search_log_reachable LIFO fuel graph start goal).
  - by apply (search_log_reachable FIFO fuel graph start goal).
  - by apply (astar_log_reachable fuel graph start goal).
Qed.

Lemma visited_log_and_reachable_cells_witness :
  (forall c,
     c ∈ visited_cells (s_graph (state_after (search_step LIFO (mkCell 0 2)) 60
                                   (search_init (init_graph walled3) (mkCell 0 0)))) ->
     reachable_cell walled3 (mkCell 0 0) c)
  /\ (@nil Cell = [] ->
      forall c, reachable_cell walled3 (mkCell 0 0) c ->
        c ∈ visited_cells (s_graph (state_after (search_step LIFO (mkCell 0 2)) 60
                                      (search_init (init_graph walled3) (mkCell 0 0))))).
Proof.
  apply (visited_log_and_reachable_cells 60 walled3 (mkCell 0 0) (mkCell 0 2)).
  left. vm_compute. reflexivity.
Defined.

(** ** Breadth-first search logs cells in the order of their distance *)

(** A new entry for a cell without one changes the depth of no other cell. *)
Lemma ancestor_insert_fresh_inv (pm : gmap (Z * Z) (option Cell)) (start : Cell)
    k v (c : Cell) (m : nat) :
  pm !! key_of start = Some None -> pm !! k = None ->
  (exists n, ancestor pm c n start) ->
  ancestor (<[k := v]> pm) c m start -> ancestor pm c m start.
Proof.
  intros Hroot Hk [n Hn] Hm.
  assert (Hroot' : <[k := v]> pm !! key_of start = Some None).
  { rewrite lookup_insert_ne; [done|]. intros Heq. subst k. congruence. }
  pose proof (ancestor_insert_fresh pm k v c n start Hk Hn) as Hn'.
  by rewrite (ancestor_depth_unique _ _ _ _ _ Hroot' Hm Hn').
Qed.

Lemma bfs_step_log_sorted (goal : Cell) (graph0 : Graph) (start : Cell)
    (s s' : search_state) :
  bfs_levels graph0 start goal s -> bfs_log_sorted start s ->
  search_step FIFO goal s = inl s' -> bfs_log_sorted start s'.
Proof.
  intros [Hinv (lvl & base & q1 & q2 & Hb)] Hsorted Hstep.
  pose proof (fun c n => bfs_inv_depth _ _ _ _ _ _ _ _ c n Hb) as Hdepth.
  pose proof (bi_bound _ _ _ _ _ _ _ _ Hb) as Hbound.
  pose proof (bi_loop _ _ _ _ _ _ _ _ Hb) as Hloop.
  destruct Hinv as [_ Hdom Hroot Hchain _ _ Hcur Hlog]. clear Hb.
  destruct s as [graph frontier visited loop]. unfold search_step in Hstep.
  unfold bfs_log_sorted in *. simpl in *. destruct loop as [[cur [|nbr rest]]|].
  - injection Hstep as <-. done.
  - destruct (decide (key_of nbr ∈ visited)) as [Hin|Hnotin]; injection Hstep as <-;
      [done|]. simpl. rewrite mkCell_eta.
    assert (Hfresh : parent graph !! key_of nbr = None).
    { destruct (parent graph !! key_of nbr) eqn:Hp; [|done].
      exfalso. apply Hnotin, Hdom. by eexists. }
    assert (Hback : forall x m, key_of x ∈ visited ->
              ancestor (<[key_of nbr := Some cur]> (parent graph)) x m start ->
              ancestor (parent graph) x m start).
    { intros x m Hx. apply ancestor_insert_fresh_inv; [done..|].
      apply Hchain. by apply Hdom. }
    assert (Hold : forall i x, visited_cells graph !! i = Some x -> key_of x ∈ visited).
    { intros i x Hx. apply Hlog, list_elem_of_fmap. exists x. split; [done|].
      by eapply list_elem_of_lookup_2. }
    destruct (Hcur cur (nbr :: rest) eq_refl) as [Hcurv _].
    destruct (Hloop cur (nbr :: rest) eq_refl) as (Hlc & _).
    intros i j a b m n Hij Ha Hb' Hma Hnb.
    apply lookup_app_Some in Ha, Hb'.
    destruct Hb' as [Hb'|[Hjge Hb']].
    + assert (Hi : (i < length (visited_cells graph))%nat).
      { apply lookup_lt_Some in Hb'. lia. }
      destruct Ha as [Ha|[Hige _]]; [|lia].
      apply (Hsorted i j a b m n Hij Ha Hb'); apply Hback; by eauto.
    + destruct (j - length (visited_cells graph))%nat as [|?] eqn:Hj; [|done].
      simpl in Hb'. inversion Hb'; subst b.
      inversion Hnb as [|? p n' ? Hp Hn']; subst.
      { exfalso. apply Hnotin, Hdom. rewrite Hroot. by eexists. }
      rewrite lookup_insert_eq in Hp. inversion Hp; subst p.
      apply Hback in Hn'; [|done]. apply Hdepth in Hn'.
      destruct Ha as [Ha|[Hige Ha]].
      * apply Hback in Hma; [|by eauto]. apply Hdepth in Hma.
        specialize (Hbound (key_of a) ltac:(by eauto)). lia.
      * destruct (i - length (visited_cells graph))%nat as [|?] eqn:Hi; [|done].
        simpl in Ha. inversion Ha; subst a.
        assert (Hroot' : <[key_of nbr := Some cur]> (parent graph) !! key_of start
                         = Some None).
        { rewrite lookup_insert_ne; [done|]. intros Heq. rewrite Heq in Hfresh. congruence. }
        rewrite (ancestor_depth_unique _ _ _ _ _ Hroot' Hma Hnb). lia.
  - destruct frontier as [|cur frontier]; [done|].
    destruct (at_goal cur goal); [done|]. injection Hstep as <-. done.
Qed.

Lemma bfs_reachable_log_sorted (goal : Cell) (graph : Graph) (start : Cell)
    (s : search_state) :
  reachable (search_step FIFO goal) (search_init (init_graph graph) start) s ->
  bfs_levels (init_graph graph) start goal s /\ bfs_log_sorted start s.
Proof.
  apply (reachable_inv (search_step FIFO goal)
           (fun t => bfs_levels (init_graph graph) start goal t /\ bfs_log_sorted start t)).
  - intros t t' [Hl Hs] Hstep. split; [by eapply bfs_step_levels|].
    by eapply bfs_step_log_sorted.
  - split; [apply bfs_init_levels|].
    intros i j a b m n Hij Ha Hb Hma Hnb. simpl in *. rewrite mkCell_eta in *.
    assert (Hroot : <[key_of start := None]> (∅ : gmap (Z * Z) (option Cell))
                    !! key_of start = Some None) by apply lookup_insert_eq.
    apply list_lookup_singleton_Some in Ha, Hb. destruct Ha as [_ <-], Hb as [_ <-].
    by rewrite (ancestor_depth_unique _ _ _ _ _ Hroot Hma Hnb).
Qed.

(** X17. [breadth_first_search] logs cells nearest first, on any graph: if
    [a] comes before [b] in the visited log it leaves, then [a] is at least
    as near to the start as [b] -- for every path from the start to [b] there
    is a path from the start to [a] with no more edges. *)
Theorem bfs_logs_cells_nearest_first (fuel : nat) (graph : Graph) (start goal : Cell)
    (final : Graph) (path : list Cell) (i j : nat) (a b : Cell) (qb : list Cell) :
  breadth_first_search fuel graph start goal = Returned (final, path) ->
  (i <= j)%nat ->
  visited_cells final !! i = Some a ->
  visited_cells final !! j = Some b ->
  path_between graph start b qb ->
  exists qa, path_between graph start a qa /\ (edge_count qa <= edge_count qb)%nat.
Proof.
  intros Hres Hij Ha Hb Hqb.
  destruct (uninformed_log_facts _ _ _ _ _ _ _ Hres) as (_ & _ & Hlog).
  assert (Hae : is_Some (parent final !! key_of a)).
  { apply Hlog. by eapply list_elem_of_lookup_2. }
  assert (Hbe : is_Some (parent final !! key_of b)).
  { apply Hlog. by eapply list_elem_of_lookup_2. }
  destruct (bfs_tree_shortest _ _ _ _ _ _ a Hres Hae) as (m & Hma & _ & Htr).
  destruct (bfs_tree_shortest _ _ _ _ _ _ b Hres Hbe) as (n & Hnb & Hmin & _).
  destruct (search_result_graph _ _ _ _ _ _ _ Hres) as (s & Hreach & ->).
  destruct (bfs_reachable_log_sorted _ _ _ _ Hreach) as [_ Hsorted].
  pose proof (Hsorted i j a b m n Hij Ha Hb Hma Hnb) as Hmn.
  destruct (Htr (S m) ltac:(lia)) as (qa & _ & Hlen & Hqa).
  exists qa. split; [done|]. specialize (Hmin qb Hqb).
  unfold edge_count at 1. rewrite Hlen. simpl. lia.
Qed.

Lemma bfs_logs_cells_nearest_first_witness :
  exists qa, path_between open3 (mkCell 0 0) (mkCell 0 1) qa
    /\ (edge_count qa <= edge_count [mkCell 0 0; mkCell 1 0; mkCell 1 1])%nat.
Proof.
  apply (bfs_logs_cells_nearest_first 60 open3 (mkCell 0 0) (mkCell 2 2)
           (s_graph (state_after (search_step FIFO (mkCell 2 2)) 60
                       (search_init (init_graph open3) (mkCell 0 0))))
           [mkCell 0 0; mkCell 1 0; mkCell 2 0; mkCell 2 1; mkCell 2 2]
           2 4 (mkCell 0 1) (mkCell 1 1)).
  - vm_compute. reflexivity.
  - lia.
  - vm_compute. reflexivity.
  - vm_compute. reflexivity.
  - refine (bool_decide_unpack _ _); vm_compute; exact I.
Defined.

(** ** A* logs cells in the order of their [f] on grids of unit steps *)

Lemma astar_append_sorted (graph0 : Graph) (start goal : Cell) (s : astar_state)
    (e : entry) (heap : list entry) :
  astar_inv graph0 start goal s -> astar_opt graph0 start goal s ->
  astar_log_sorted goal (visited_cells (a_graph s)) (g_cost s) ->
  heappop (open_heap s) = Some (e, heap) ->
  key_of (e_cell e) ∉ closed s ->
  astar_log_sorted goal (visited_cells (a_graph s) ++ [e_cell e]) (g_cost s).
Proof.
  intros Hinv Hopt Hsorted Hpop Hopen i j a b ga gb Hij Ha Hb Hga Hgb.
  assert (Hin : e ∈ open_heap s).
  { destruct (heappop_spec _ _ _ Hpop) as [Hperm _]. rewrite <- Hperm. by left. }
  apply lookup_app_Some in Ha, Hb.
  destruct Hb as [Hb|[Hjge Hb]].
  - assert (Hi : (i < length (visited_cells (a_graph s)))%nat).
    { apply lookup_lt_Some in Hb. lia. }
    destruct Ha as [Ha|[Hige _]]; [|lia].
    by apply (Hsorted i j a b ga gb).
  - destruct (j - length (visited_cells (a_graph s)))%nat as [|?] eqn:Hj; [|done].
    simpl in Hb. inversion Hb; subst b.
    rewrite (astar_popped_cost _ _ _ _ _ _ Hinv Hpop Hopen) in Hgb. inversion Hgb; subst gb.
    destruct Ha as [Ha|[Hige Ha]].
    + assert (Hcl : key_of a ∈ closed s).
      { apply (ai_log _ _ _ _ Hinv), list_elem_of_fmap. exists a. split; [done|].
        by eapply list_elem_of_lookup_2. }
      pose proof (ao_heap _ _ _ _ Hopt _ _ e Hcl Hga Hin) as Hle.
      rewrite cell_of_key in Hle.
      destruct (ai_heap _ _ _ _ Hinv e Hin) as (Hf & _ & _). lia.
    + destruct (i - length (visited_cells (a_graph s)))%nat as [|?] eqn:Hi; [|done].
      simpl in Ha. inversion Ha; subst a.
      rewrite (astar_popped_cost _ _ _ _ _ _ Hinv Hpop Hopen) in Hga. inversion Hga. lia.
Qed.

Lemma astar_step_log_sorted (goal : Cell) (graph0 : Graph) (start : Cell)
    (s s' : astar_state) :
  astar_inv graph0 start goal s -> astar_opt graph0 start goal s ->
  astar_log_sorted goal (visited_cells (a_graph s)) (g_cost s) ->
  astar_step goal s = inl s' ->
  astar_log_sorted goal (visited_cells (a_graph s')) (g_cost s').
Proof.
  intros Hinv Hopt Hsorted Hstep.
  pose proof (fun e heap => astar_append_sorted _ _ _ _ e heap Hinv Hopt Hsorted) as Happ.
  pose proof (ai_log _ _ _ _ Hinv) as Hlog.
  destruct s as [graph heap gc cnt cl loop]. unfold astar_step in Hstep.
  simpl in *. destruct loop as [[[g cur] [|nbr rest]]|].
  - injection Hstep as <-. done.
  - destruct (decide (key_of nbr ∈ cl)) as [Hin|Hnotin]; [injection Hstep as <-; done|].
    destruct (match gc !! key_of nbr with None => true | Some old => g + 1 <? old end);
      injection Hstep as <-; [|done]. simpl.
    intros i j a b ga gb Hij Ha Hb Hga Hgb.
    assert (Hne : forall k x, visited_cells graph !! k = Some x -> key_of nbr <> key_of x).
    { intros k x Hx Heq. apply Hnotin. rewrite Heq. apply Hlog, list_elem_of_fmap.
      exists x. split; [done|]. by eapply list_elem_of_lookup_2. }
    rewrite lookup_insert_ne in Hga by by eapply Hne.
    rewrite lookup_insert_ne in Hgb by by eapply Hne.
    by apply (Hsorted i j a b ga gb).
  - destruct (heappop heap) as [[e heap']|] eqn:Hpop; [|done].
    destruct (decide (key_of (e_cell e) ∈ cl)) as [Hin|Hnotin];
      [injection Hstep as <-; done|].
    destruct (at_goal (e_cell e) goal); [done|]. injection Hstep as <-. simpl.
    rewrite mkCell_eta. by eapply Happ.
Qed.

Lemma astar_reachable_log_sorted (goal : Cell) (graph : Graph) (start : Cell)
    (cells : list (Z * Z)) (s : astar_state) :
  grid_closed graph cells -> unit_steps graph cells -> key_of start ∈ cells ->
  reachable (astar_step goal) (astar_init (init_graph graph) start goal) s ->
  astar_optimal (init_graph graph) start goal cells s
  /\ astar_log_sorted goal (visited_cells (a_graph s)) (g_cost s).
Proof.
  intros Hcl0 Hu0 Hstart.
  assert (Hcl : grid_closed (init_graph graph) cells) by exact Hcl0.
  assert (Hu : unit_steps (init_graph graph) cells) by exact Hu0.
  apply (reachable_inv (astar_step goal)
           (fun t => astar_optimal (init_graph graph) start goal cells t
                     /\ astar_log_sorted goal (visited_cells (a_graph t)) (g_cost t))).
  - intros t t' [Ho Hs] Hstep. split; [by eapply astar_step_optimal|].
    destruct Ho as [[Hinv _] Hopt]. by eapply astar_step_log_sorted.
  - split; [by apply astar_init_optimal|].
    intros i j a b ga gb Hij Ha. done.
Qed.

(** ** A* expands cells at their shortest distance on grids of unit steps *)

(** What A* leaves on a grid of unit steps: the recorded costs put the log in
    the order of [f], and the cost of a logged cell is the length of its
    chain of parent links and the length of a shortest path to it. *)
Lemma astar_logged_costs (fuel : nat) (graph : Graph) (cells : list (Z * Z))
    (start goal : Cell) (final : Graph) (path : list Cell) :
  grid_closed graph cells -> unit_steps graph cells -> key_of start ∈ cells ->
  a_star_search fuel graph start goal = Returned (final, path) ->
  exists costs : gmap (Z * Z) Z,
    astar_log_sorted goal (visited_cells final) costs
    /\ forall c, c ∈ visited_cells final ->
         exists n, costs !! key_of c = Some (Z.of_nat n)
           /\ ancestor (parent final) c n start
           /\ (forall q, path_between graph start c q -> (n <= edge_count q)%nat)
           /\ forall fuel', (n < fuel')%nat ->
                exists p, trace_path fuel' c final = Returned p
                          /\ length p = S n /\ path_between graph start c p.
Proof.
  intros Hcl0 Hu0 Hstart Hres.
  assert (Hcl : grid_closed (init_graph graph) cells) by exact Hcl0.
  assert (Hu : unit_steps (init_graph graph) cells) by exact Hu0.
  destruct (astar_result_exit _ _ _ _ _ _ Hres) as (s & Hreach & Hloop & Hg).
  destruct (astar_reachable_log_sorted goal graph start cells s Hcl0 Hu0 Hstart Hreach)
    as [[[Hinv Hbound] Hopt] Hsorted].
  assert (Hparent : parent final = parent (a_graph s)).
  { destruct Hg as [(_ & -> & _)|(e & heap & _ & _ & _ & -> & _)]; done. }
  assert (Hnb : find_neighbors final = find_neighbors (init_graph graph)).
  { destruct Hg as [(_ & -> & _)|(e & heap & _ & _ & _ & -> & _)]; simpl;
      apply (ai_nbrs _ _ _ _ Hinv). }
  exists (g_cost s). split.
  { destruct Hg as [(_ & -> & _)|(e & heap & Hpop & He & Hopen & -> & _)]; [done|].
    simpl. rewrite mkCell_eta.
    assert (Hopen' : key_of (e_cell e) ∉ closed s) by (by rewrite He).
    pose proof (astar_append_sorted _ _ _ _ _ _ Hinv Hopt Hsorted Hpop Hopen') as Happ.
    by rewrite He in Happ. }
  intros c Hc.
  assert (Hcost : exists gc, g_cost s !! key_of c = Some gc
                    /\ forall m, reach_in (init_graph graph) start m c -> gc <= Z.of_nat m).
  { assert (Hclosed : key_of c ∈ closed s ->
              exists gc, g_cost s !! key_of c = Some gc
                /\ forall m, reach_in (init_graph graph) start m c -> gc <= Z.of_nat m).
    { intros Hk. destruct (ai_closed _ _ _ _ Hinv _ Hk) as [gc Hgc].
      exists gc. split; [done|]. intros m Hm.
      apply (ao_dist _ _ _ _ Hopt (key_of c) gc m Hk Hgc).
      by rewrite cell_of_key. }
    destruct Hg as [(_ & -> & _)|(e & heap & Hpop & He & Hopen & -> & _)].
    - apply Hclosed, (ai_log _ _ _ _ Hinv), list_elem_of_fmap. by exists c.
    - simpl in Hc. rewrite mkCell_eta in Hc. apply elem_of_app in Hc.
      destruct Hc as [Hc|Hc].
      + apply Hclosed, (ai_log _ _ _ _ Hinv), list_elem_of_fmap. by exists c.
      + apply list_elem_of_singleton in Hc. subst c.
        assert (Hin : e ∈ open_heap s).
        { destruct (heappop_spec _ _ _ Hpop) as [Hperm _]. rewrite <- Hperm. by left. }
        destruct (ai_heap _ _ _ _ Hinv e Hin) as (_ & (g0 & Hg0 & Hle) & _).
        rewrite He in Hg0. exists g0. split; [done|]. intros m Hm.
        assert (Hopen' : key_of (e_cell e) ∉ closed s) by (by rewrite He).
        pose proof (astar_pop_minimal _ _ _ _ _ _ _ Hcl Hu Hstart
                      (conj (conj Hinv Hbound) Hopt) Hloop Hpop Hopen' m) as Hmin.
        rewrite He in Hmin. specialize (Hmin Hm). lia. }
  destruct Hcost as (gc & Hgc & Hmin).
  destruct (astar_inv_trace _ _ _ _ c Hinv ltac:(by eexists)) as (n & Hanc & Hn & Htr).
  exists n. rewrite Hparent. split; [done|]. split; [done|]. split.
  - intros q Hq.
    assert (Hr : reach_in (init_graph graph) start (edge_count q) c).
    { apply path_reach_in. by apply (path_between_ext graph (init_graph graph)). }
    specialize (Hmin _ Hr). rewrite Hgc in Hn. inversion Hn. lia.
  - intros fuel' Hlt. destruct (Htr final fuel' Hlt Hnb Hparent) as (p & Hp & Hlen & Hpath).
    exists p. split; [done|]. split; [done|].
    by apply (path_between_ext (init_graph graph) graph).
Qed.

(** ** The frontier of the uninformed searches holds no cell twice *)

Lemma search_step_frontier_nodup (d : discipline) (goal : Cell) (graph0 : Graph)
    (start : Cell) (s s' : search_state) :
  search_inv graph0 start s -> NoDup (key_of <$> s_frontier s) ->
  search_step d goal s = inl s' -> NoDup (key_of <$> s_frontier s').
Proof.
  intros Hinv Hnd Hstep. pose proof (si_frontier _ _ _ Hinv) as Hfr.
  destruct s as [graph frontier visited loop]. unfold search_step in Hstep.
  simpl in *. destruct loop as [[cur [|nbr rest]]|].
  - injection Hstep as <-. done.
  - destruct (decide (key_of nbr ∈ visited)) as [Hin|Hnotin]; injection Hstep as <-;
      [done|]. simpl.
    assert (Hnew : key_of nbr ∉ key_of <$> frontier).
    { intros Hk. apply list_elem_of_fmap in Hk. destruct Hk as (x & Hx & Hxin).
      apply Hnotin. rewrite Hx. by apply Hfr. }
    destruct d; simpl.
    + by apply NoDup_cons.
    + by apply NoDup_fmap_snoc.
  - destruct frontier as [|cur frontier]; [done|].
    destruct (at_goal cur goal); [done|]. injection Hstep as <-. simpl in *.
    by apply NoDup_cons in Hnd as [_ ?].
Qed.

Lemma search_reachable_frontier_nodup (d : discipline) (goal : Cell) (graph : Graph)
    (start : Cell) (s : search_state) :
  reachable (search_step d goal) (search_init (init_graph graph) start) s ->
  search_inv (init_graph graph) start s /\ NoDup (key_of <$> s_frontier s).
Proof.
  apply (reachable_inv (search_step d goal)
           (fun t => search_inv (init_graph graph) start t
                     /\ NoDup (key_of <$> s_frontier t))).
  - intros t t' [Hi Hn] Hstep. split; [by eapply search_step_inv|].
    by eapply search_step_frontier_nodup.
  - split; [apply search_init_inv|]. simpl. apply NoDup_singleton.
Qed.

(** X19. The stack of [depth_first_search] and the queue of
    [breadth_first_search] never hold a cell twice, since a cell is marked
    visited when it is put in; so on a finite grid the frontier never holds
    more cells than the grid has.  ([search_step LIFO] is the loop of
    [depth_first_search], [search_step FIFO] that of
    [breadth_first_search].) *)
Theorem frontier_holds_no_cell_twice (d : discipline) (graph : Graph)
    (cells : list (Z * Z)) (start goal : Cell) (s : search_state) :
  grid_closed graph cells -> key_of start ∈ cells ->
  reachable (search_step d goal) (search_init (init_graph graph) start) s ->
  NoDup (s_frontier s) /\ (length (s_frontier s) <= length cells)%nat.
Proof.
  intros Hcl Hstart Hreach.
  destruct (search_reachable_frontier_nodup _ _ _ _ _ Hreach) as [Hinv Hnd].
  apply NoDup_fmap_1 in Hnd. split; [done|].
  apply log_length_bound; [done|]. intros c Hc.
  apply (search_reachable_bounded d goal graph cells start s Hcl Hstart Hreach).
  by apply (si_frontier _ _ _ Hinv).
Qed.

Lemma frontier_holds_no_cell_twice_witness :
  NoDup (s_frontier (state_after (search_step LIFO (mkCell 2 2)) 7
                       (search_init (init_graph open3) (mkCell 0 0))))
  /\ (length (s_frontier (state_after (search_step LIFO (mkCell 2 2)) 7
                            (search_init (init_graph open3) (mkCell 0 0))))
      <= length (grid_cells 3 3))%nat.
Proof.
  apply (frontier_holds_no_cell_twice LIFO open3 (grid_cells 3 3) (mkCell 0 0) (mkCell 2 2)).
  - refine (bool_decide_unpack _ _); vm_compute; exact I.
  - refine (bool_decide_unpack _ _); vm_compute; exact I.
  - apply state_after_reachable.
Defined.

(** ** The counter settles every comparison of two heap entries *)

(** X20. Whatever [a_star_search] has in its heap, two entries at different
    positions carry different counters, both below the counter the next push
    will use; so one of the two comes strictly before the other in the order
    on [(f_cost, g_cost, counter)] and the comparison of two heap tuples
    never reaches the cells. *)
Theorem a_star_counters_distinct (graph : Graph) (start goal : Cell)
    (s : astar_state) (i j : nat) (a b : entry) :
  reachable (astar_step goal) (astar_init (init_graph graph) start goal) s ->
  open_heap s !! i = Some a -> open_heap s !! j = Some b -> i <> j ->
  e_counter a <> e_counter b
  /\ e_counter a < counter s /\ e_counter b < counter s
  /\ (entry_ltb a b = true \/ entry_ltb b a = true).
Proof.
  intros Hreach Ha Hb Hij.
  pose proof (astar_reachable_inv _ _ _ _ Hreach) as Hinv.
  assert (Hne : e_counter a <> e_counter b).
  { intros Heq. apply Hij.
    apply (NoDup_lookup _ i j (e_counter a) (ai_counters _ _ _ _ Hinv)).
    - by rewrite list_lookup_fmap, Ha.
    - by rewrite list_lookup_fmap, Hb, Heq. }
  destruct (ai_heap _ _ _ _ Hinv a ltac:(by eapply list_elem_of_lookup_2)) as (_ & _ & Hca).
  destruct (ai_heap _ _ _ _ Hinv b ltac:(by eapply list_elem_of_lookup_2)) as (_ & _ & Hcb).
  split; [done|]. split; [done|]. split; [done|].
  rewrite !entry_ltb_lt. unfold entry_lt. lia.
Qed.

Lemma a_star_counters_distinct_witness :
  e_counter (mkEntry 7 3 7 (mkCell 2 2)) <> e_counter (mkEntry 7 4 5 (mkCell 1 2))
  /\ e_counter (mkEntry 7 3 7 (mkCell 2 2))
     < counter (state_after (astar_step (mkCell 0 0)) 24
                  (astar_init (init_graph walls35) (mkCell 1 4) (mkCell 0 0)))
  /\ e_counter (mkEntry 7 4 5 (mkCell 1 2))
     < counter (state_after (astar_step (mkCell 0 0)) 24
                  (astar_init (init_graph walls35) (mkCell 1 4) (mkCell 0 0)))
  /\ (entry_ltb (mkEntry 7 3 7 (mkCell 2 2)) (mkEntry 7 4 5 (mkCell 1 2)) = true
      \/ entry_ltb (mkEntry 7 4 5 (mkCell 1 2)) (mkEntry 7 3 7 (mkCell 2 2)) = true).
Proof.
  apply (a_star_counters_distinct walls35 (mkCell 1 4) (mkCell 0 0)
           (state_after (astar_step (mkCell 0 0)) 24
              (astar_init (init_graph walls35) (mkCell 1 4) (mkCell 0 0)))
           1 0).
  - apply state_after_reachable.
  - vm_compute. reflexivity.
  - vm_compute. reflexivity.
  - lia.
Defined.

(** ** Float costs: where they are exact *)

Lemma round53_exact (z : Z) : 0 <= z < 2 ^ 53 -> round53 z = z.
Proof.
  intros Hz. unfold round53.
  assert (Hlog : Z.log2 (Z.abs z) - 52 <= 0).
  { rewrite Z.abs_eq by lia. destruct (decide (z = 0)) as [->|Hne]; [done|].
    assert (Z.log2 z < 53) by (apply Z.log2_lt_pow2; lia). lia. }
  apply Z.leb_le in Hlog. by rewrite Hlog.
Qed.

Lemma float_inf_large : 2 ^ 53 < float_inf.
Proof. unfold float_inf. apply Z.pow_lt_mono_r; lia. Qed.

Lemma float_of_int_exact (z : Z) : 0 <= z < 2 ^ 53 -> float_of_int z = Some z.
Proof.
  intros Hz. unfold float_of_int. rewrite (round53_exact z Hz).
  pose proof float_inf_large.
  assert (Hlt : (Z.abs z <? float_inf) = true) by (apply Z.ltb_lt; lia).
  by rewrite Hlt.
Qed.

Lemma float_add_exact (x y : Z) : 0 <= x + y < 2 ^ 53 -> float_add x y = x + y.
Proof.
  intros Hz. unfold float_add. rewrite (round53_exact _ Hz).
  pose proof float_inf_large.
  assert (Hlt : (x + y <? float_inf) = true) by (apply Z.ltb_lt; lia).
  by rewrite Hlt.
Qed.

Lemma float_exact_cell (cells : list (Z * Z)) (goal c : Cell) :
  float_exact cells goal -> key_of c ∈ cells ->
  heuristic c goal + Z.of_nat (length cells) <= 2 ^ 53.
Proof.
  intros Hex Hc. unfold float_exact in Hex. rewrite Forall_forall in Hex.
  specialize (Hex _ Hc). simpl in Hex. by rewrite cell_of_key in Hex.
Qed.

Lemma heuristic_nonneg (a b : Cell) : 0 <= heuristic a b.
Proof. unfold heuristic. lia. Qed.

(** The cost of the cell being expanded, while it has a neighbour that is
    not closed: its chain of parent links and the neighbour are distinct
    cells of the grid. *)
Lemma astar_loop_cost_bound (graph0 : Graph) (start goal : Cell) (cells : list (Z * Z))
    (s : astar_state) (g : Z) (cur nbr : Cell) (rest : list Cell) :
  grid_closed graph0 cells ->
  astar_bounded graph0 start goal cells s ->
  a_loop s = Some (g, cur, nbr :: rest) -> key_of nbr ∉ closed s ->
  0 <= g /\ g + 2 <= Z.of_nat (length cells) /\ key_of nbr ∈ cells.
Proof.
  intros Hcl [Hinv Hsub] Hloop Hopen.
  destruct (ai_loop _ _ _ _ Hinv g cur (nbr :: rest) Hloop) as (Hcc & Hgcur & Hrest).
  destruct (astar_inv_trace _ _ _ _ cur Hinv ltac:(by eexists)) as (n & Hanc & Hn & Htr).
  destruct (Htr (a_graph s) (S n) ltac:(lia) (ai_nbrs _ _ _ _ Hinv) eq_refl)
    as (path & Hpath & Hlen & _).
  destruct (trace_path_simple _ _ _ _ _ _ (proj1 (ai_start _ _ _ _ Hinv)) Hanc Hpath)
    as (Hnd & _ & Hin).
  assert (Hclosed : forall x, x ∈ path -> key_of x ∈ closed s).
  { intros x Hx. destruct (Hin x Hx) as [->|[y Hy]]; [done|].
    by destruct (ai_link _ _ _ _ Hinv y x Hy) as (? & _). }
  assert (Hnbr : key_of nbr ∈ cells).
  { eapply grid_closed_edge; [done | apply Hsub; by eexists | apply Hrest; by left]. }
  assert (Hlenb : (length (nbr :: path) <= length cells)%nat).
  { apply log_length_bound.
    - apply NoDup_cons. split; [|done]. intros Hx. by apply Hopen, Hclosed.
    - intros c Hc. apply elem_of_cons in Hc. destruct Hc as [->|Hc]; [done|].
      by apply Hsub, (ai_closed _ _ _ _ Hinv), Hclosed. }
  simpl in Hlenb. rewrite Hn in Hgcur. inversion Hgcur.
  split; [lia|]. split; [lia | done].
Qed.

(** On such a grid a step with float costs is the step with exact costs. *)
Lemma astar_step_float_exact (goal : Cell) (graph0 : Graph) (start : Cell)
    (cells : list (Z * Z)) (s : astar_state) :
  grid_closed graph0 cells -> float_exact cells goal ->
  astar_bounded graph0 start goal cells s ->
  astar_step_float goal s
  = match astar_step goal s with
    | inl s' => inl s'
    | inr e => inr (Done e)
    end.
Proof.
  intros Hcl Hex Hb.
  pose proof (fun g cur nbr rest => astar_loop_cost_bound _ _ _ _ _ g cur nbr rest Hcl Hb)
    as Hbound.
  unfold astar_step_float, astar_step.
  destruct (a_loop s) as [[[g cur] [|nbr rest]]|]; [done| |].
  - destruct (decide (key_of nbr ∈ closed s)) as [Hin|Hnotin]; [done|].
    destruct (Hbound g cur nbr rest eq_refl Hnotin) as (Hg0 & Hg & Hnbr).
    pose proof (float_exact_cell _ _ _ Hex Hnbr) as Hh.
    pose proof (heuristic_nonneg nbr goal) as Hh0.
    rewrite (float_add_exact g 1) by lia.
    rewrite (float_of_int_exact (heuristic nbr goal)) by lia.
    rewrite (float_add_exact (g + 1) (heuristic nbr goal)) by lia.
    by destruct (match g_cost s !! key_of nbr with
                 | Some old => g + 1 <? old
                 | None => true
                 end).
  - destruct (heappop (open_heap s)) as [[e heap]|]; [|done].
    destruct (decide (key_of (e_cell e) ∈ closed s)); [done|].
    by destruct (at_goal (e_cell e) goal).
Qed.

Lemma astar_run_float_exact (goal : Cell) (graph0 : Graph) (start : Cell)
    (cells : list (Z * Z)) (fuel : nat) (s : astar_state) :
  grid_closed graph0 cells -> float_exact cells goal ->
  astar_bounded graph0 start goal cells s ->
  run (astar_step_float goal) fuel s = Done <$> run (astar_step goal) fuel s.
Proof.
  intros Hcl Hex. revert s. induction fuel as [|fuel IH]; intros s Hb; simpl; [done|].
  rewrite (astar_step_float_exact goal graph0 start cells s Hcl Hex Hb).
  destruct (astar_step goal s) as [s'|e] eqn:Hstep; [|done].
  apply IH. by eapply astar_step_bounded.
Qed.

Lemma astar_init_float_exact (graph : Graph) (cells : list (Z * Z)) (start goal : Cell) :
  key_of start ∈ cells -> float_exact cells goal ->
  astar_init_float graph start goal = Some (astar_init graph start goal).
Proof.
  intros Hstart Hex. unfold astar_init_float, astar_init.
  pose proof (float_exact_cell _ _ _ Hex Hstart) as Hh.
  pose proof (heuristic_nonneg start goal) as Hh0.
  assert (Hlen : (0 < length cells)%nat).
  { destruct cells; [by apply elem_of_nil in Hstart | simpl; lia]. }
  rewrite (float_of_int_exact (heuristic start goal)) by lia.
  by rewrite (float_add_exact 0 (heuristic start goal)) by lia.
Qed.

(** On a finite grid whose costs stay below [2 ^ 53], the search with float
    costs is the search with exact costs. *)
Lemma astar_float_exact (fuel : nat) (graph : Graph) (cells : list (Z * Z))
    (start goal : Cell) :
  grid_closed graph cells -> key_of start ∈ cells -> float_exact cells goal ->
  a_star_search_float fuel graph start goal
  = Completed (a_star_search fuel graph start goal).
Proof.
  intros Hcl0 Hstart Hex.
  assert (Hcl : grid_closed (init_graph graph) cells) by exact Hcl0.
  unfold a_star_search_float, a_star_search.
  rewrite (astar_init_float_exact _ cells) by done.
  rewrite (astar_run_float_exact goal (init_graph graph) start cells); [|done..|].
  - by destruct (run (astar_step goal) fuel _) as [e|].
  - split; [apply astar_init_inv|]. simpl. intros k [v Hk].
    destruct (decide (key_of start = k)) as [<-|Hne]; [done|].
    by rewrite lookup_singleton_ne in Hk.
Qed.

(** ** Float costs: an unreachable goal *)













(** ** Float costs on grids where they are exact *)

(** X21. On a finite grid where the Manhattan distance of every cell to the
    goal plus the number of cells is at most [2 ^ 53], the float costs of
    [a_star_search] are exact: no conversion overflows, no sum is rounded,
    and the search with float costs does, for every step budget, what the
    search with exact costs does. *)
Theorem float_costs_are_exact_on_small_grids (fuel : nat) (graph : Graph)
    (cells : list (Z * Z)) (start goal : Cell) :
  grid_closed graph cells -> key_of start ∈ cells -> float_exact cells goal ->
  a_star_search_float fuel graph start goal
  = Completed (a_star_search fuel graph start goal).
Proof. apply astar_float_exact. Qed.

Lemma float_costs_are_exact_on_small_grids_witness :
  a_star_search_float 100 walls35 (mkCell 1 4) (mkCell 0 0)
  = Completed (a_star_search 100 walls35 (mkCell 1 4) (mkCell 0 0)).
Proof.
  apply (float_costs_are_exact_on_small_grids 100 walls35 (grid_cells 3 5)).
  - refine (bool_decide_unpack _ _); vm_compute; exact I.
  - refine (bool_decide_unpack _ _); vm_compute; exact I.
  - refine (bool_decide_unpack _ _); vm_compute; exact I.
Defined.

(** X4. On every finite grid whose goal can be reached from the start, also
    one with diagonal or longer steps where the Manhattan heuristic
    overestimates, [a_star_search] with its float costs returns, with any
    large enough step budget, a path from the start to the goal along edges
    of the grid, provided the costs stay where floats are exact (the
    Manhattan distance of every cell to the goal plus the number of cells is
    at most [2 ^ 53]). *)
Theorem astar_finds_a_path (graph : Graph) (cells : list (Z * Z)) (start goal : Cell) :
  grid_closed graph cells -> key_of start ∈ cells -> float_exact cells goal ->
  reachable_cell graph start goal ->
  exists fuel0 final path,
    (forall fuel, (fuel0 <= fuel)%nat ->
       a_star_search_float fuel graph start goal = Completed (Returned (final, path)))
    /\ path_between graph start goal path.
Proof.
  intros Hcl Hstart Hex Hreach.
  destruct (astar_eventually_returns graph cells start goal Hcl Hstart)
    as (fuel0 & [final path] & Hret).
  exists fuel0, final, path. split.
  - intros fuel Hle. rewrite (astar_float_exact fuel graph cells) by done.
    f_equal. by apply (astar_returned_mono fuel0 fuel).
  - by destruct (astar_returned_sound _ _ _ _ _ _ Hret) as [[_ Hno]|Hpath].
Qed.

Lemma astar_finds_a_path_witness :
  exists fuel0 final path,
    (forall fuel, (fuel0 <= fuel)%nat ->
       a_star_search_float fuel diagonal34 (mkCell 0 0) (mkCell 2 3)
       = Completed (Returned (final, path)))
    /\ path_between diagonal34 (mkCell 0 0) (mkCell 2 3) path.
Proof.
  apply (astar_finds_a_path diagonal34 (grid_cells 3 4) (mkCell 0 0) (mkCell 2 3)).
  - refine (bool_decide_unpack _ _); vm_compute; exact I.
  - refine (bool_decide_unpack _ _); vm_compute; exact I.
  - refine (bool_decide_unpack _ _); vm_compute; exact I.
  - exists [mkCell 0 0; mkCell 0 1; mkCell 1 2; mkCell 2 3].
    refine (bool_decide_unpack _ _); vm_compute; exact I.
Defined.

(** X5. On a finite grid each of the three searches ends, whatever the start
    and the goal: with any large enough step budget it returns a result and
    neither runs on nor fails.  [a_star_search] is taken with its float
    costs, on a grid where they are exact (the Manhattan distance of every
    cell to the goal plus the number of cells is at most [2 ^ 53]). *)
Theorem searches_terminate (graph : Graph) (cells : list (Z * Z)) (start goal : Cell) :
  grid_closed graph cells -> key_of start ∈ cells -> float_exact cells goal ->
  exists fuel0 rd rb ra,
    forall fuel, (fuel0 <= fuel)%nat ->
      depth_first_search fuel graph start goal = Returned rd
      /\ breadth_first_search fuel graph start goal = Returned rb
      /\ a_star_search_float fuel graph start goal = Completed (Returned ra).
Proof.
  intros Hcl Hstart Hex.
  destruct (search_eventually_returns LIFO graph cells start goal Hcl Hstart)
    as (f1 & rd & Hd).
  destruct (search_eventually_returns FIFO graph cells start goal Hcl Hstart)
    as (f2 & rb & Hb).
  destruct (astar_eventually_returns graph cells start goal Hcl Hstart)
    as (f3 & ra & Ha).
  exists (f1 `max` (f2 `max` f3))%nat, rd, rb, ra. intros fuel Hle. split; [|split].
  - apply (search_returned_mono LIFO f1 fuel); [lia | done].
  - apply (search_returned_mono FIFO f2 fuel); [lia | done].
  - rewrite (astar_float_exact fuel graph cells) by done.
    f_equal. apply (astar_returned_mono f3 fuel); [lia | done].
Qed.

Lemma searches_terminate_witness :
  exists fuel0 rd rb ra,
    forall fuel, (fuel0 <= fuel)%nat ->
      depth_first_search fuel walled3 (mkCell 0 0) (mkCell 2 2) = Returned rd
      /\ breadth_first_search fuel walled3 (mkCell 0 0) (mkCell 2 2) = Returned rb
      /\ a_star_search_float fuel walled3 (mkCell 0 0) (mkCell 2 2)
         = Completed (Returned ra).
Proof.
  apply (searches_terminate walled3 (grid_cells 3 3) (mkCell 0 0) (mkCell 2 2)).
  - refine (bool_decide_unpack _ _); vm_compute; exact I.
  - refine (bool_decide_unpack _ _); vm_compute; exact I.
  - refine (bool_decide_unpack _ _); vm_compute; exact I.
Defined.

(** X15. On a finite grid of unit steps where the float costs are exact (the
    Manhattan distance of every cell to the goal plus the number of cells is
    at most [2 ^ 53]), every cell in the visited log that [a_star_search]
    leaves was expanded at its shortest distance: the chain of parent links
    from a logged cell [c] reaches the start, [trace_path] from [c] returns
    a path from the start to [c] along edges of the grid, and no path from
    the start to [c] has fewer edges. *)
Theorem astar_logged_cells_at_shortest_distance (fuel : nat) (graph : Graph)
    (cells : list (Z * Z)) (start goal : Cell) (final : Graph) (path : list Cell)
    (c : Cell) :
  grid_closed graph cells -> unit_steps graph cells -> key_of start ∈ cells ->
  float_exact cells goal ->
  a_star_search_float fuel graph start goal = Completed (Returned (final, path)) ->
  c ∈ visited_cells final ->
  exists n, ancestor (parent final) c n start
    /\ (forall q, path_between graph start c q -> (n <= edge_count q)%nat)
    /\ forall fuel', (n < fuel')%nat ->
         exists p, trace_path fuel' c final = Returned p
                   /\ length p = S n /\ path_between graph start c p.
Proof.
  intros Hcl Hu Hstart Hex Hres Hc.
  rewrite (astar_float_exact fuel graph cells) in Hres by done.
  injection Hres as Hres.
  destruct (astar_logged_costs _ _ _ _ _ _ _ Hcl Hu Hstart Hres) as (costs & _ & Hall).
  destruct (Hall c Hc) as (n & _ & Hrest). by exists n.
Qed.

Lemma astar_logged_cells_at_shortest_distance_witness :
  exists n,
    ancestor (parent (log_visited (mkCell 2 2)
                        (a_graph (state_after (astar_step_float (mkCell 2 2)) 100
                                    (astar_init (init_graph open3) (mkCell 0 0)
                                       (mkCell 2 2))))))
             (mkCell 2 1) n (mkCell 0 0)
    /\ (forall q, path_between open3 (mkCell 0 0) (mkCell 2 1) q ->
          (n <= edge_count q)%nat)
    /\ forall fuel', (n < fuel')%nat ->
         exists p,
           trace_path fuel' (mkCell 2 1)
             (log_visited (mkCell 2 2)
                (a_graph (state_after (astar_step_float (mkCell 2 2)) 100
                            (astar_init (init_graph open3) (mkCell 0 0) (mkCell 2 2)))))
           = Returned p
           /\ length p = S n /\ path_between open3 (mkCell 0 0) (mkCell 2 1) p.
Proof.
  apply (astar_logged_cells_at_shortest_distance 100 open3 (grid_cells 3 3)
           (mkCell 0 0) (mkCell 2 2) _
           [mkCell 0 0; mkCell 1 0; mkCell 2 0; mkCell 2 1; mkCell 2 2]).
  - refine (bool_decide_unpack _ _); vm_compute; exact I.
  - refine (bool_decide_unpack _ _); vm_compute; exact I.
  - refine (bool_decide_unpack _ _); vm_compute; exact I.
  - refine (bool_decide_unpack _ _); vm_compute; exact I.
  - vm_compute. reflexivity.
  - refine (bool_decide_unpack _ _); vm_compute; exact I.
Defined.

(** X18. On a finite grid of unit steps where the float costs are exact (the
    Manhattan distance of every cell to the goal plus the number of cells is
    at most [2 ^ 53]), [a_star_search] logs cells in the order of [f], the
    distance from the start plus the Manhattan distance to the goal: if [a]
    comes before [b] in the visited log, then for every path from the start
    to [b] there is a path from the start to [a] whose number of edges plus
    [heuristic a goal] is no more than that of the path to [b] plus
    [heuristic b goal]. *)
Theorem astar_logs_cells_in_f_order (fuel : nat) (graph : Graph)
    (cells : list (Z * Z)) (start goal : Cell) (final : Graph) (path : list Cell)
    (i j : nat) (a b : Cell) (qb : list Cell) :
  grid_closed graph cells -> unit_steps graph cells -> key_of start ∈ cells ->
  float_exact cells goal ->
  a_star_search_float fuel graph start goal = Completed (Returned (final, path)) ->
  (i <= j)%nat ->
  visited_cells final !! i = Some a ->
  visited_cells final !! j = Some b ->
  path_between graph start b qb ->
  exists qa, path_between graph start a qa
    /\ Z.of_nat (edge_count qa) + heuristic a goal
       <= Z.of_nat (edge_count qb) + heuristic b goal.
Proof.
  intros Hcl Hu Hstart Hex Hres Hij Ha Hb Hqb.
  rewrite (astar_float_exact fuel graph cells) in Hres by done.
  injection Hres as Hres.
  destruct (astar_logged_costs _ _ _ _ _ _ _ Hcl Hu Hstart Hres) as (costs & Hsorted & Hall).
  destruct (Hall a ltac:(by eapply list_elem_of_lookup_2)) as (m & Hma & _ & _ & Htr).
  destruct (Hall b ltac:(by eapply list_elem_of_lookup_2)) as (n & Hnb & _ & Hmin & _).
  pose proof (Hsorted i j a b _ _ Hij Ha Hb Hma Hnb) as Hf.
  destruct (Htr (S m) ltac:(lia)) as (qa & _ & Hlen & Hqa).
  exists qa. split; [done|]. specialize (Hmin qb Hqb).
  unfold edge_count at 1. rewrite Hlen. simpl Nat.pred. lia.
Qed.

Lemma astar_logs_cells_in_f_order_witness :
  exists qa, path_between walls35 (mkCell 1 4) (mkCell 0 2) qa
    /\ Z.of_nat (edge_count qa) + heuristic (mkCell 0 2) (mkCell 0 0)
       <= Z.of_nat (edge_count [mkCell 1 4; mkCell 2 4])
          + heuristic (mkCell 2 4) (mkCell 0 0).
Proof.
  apply (astar_logs_cells_in_f_order 100 walls35 (grid_cells 3 5)
           (mkCell 1 4) (mkCell 0 0)
           (log_visited (mkCell 0 0)
              (a_graph (state_after (astar_step_float (mkCell 0 0)) 100
                          (astar_init (init_graph walls35) (mkCell 1 4) (mkCell 0 0)))))
           [mkCell 1 4; mkCell 0 4; mkCell 0 3; mkCell 0 2; mkCell 1 2; mkCell 1 1;
            mkCell 1 0; mkCell 0 0]
           3 4 (mkCell 0 2) (mkCell 2 4)).
  - refine (bool_decide_unpack _ _); vm_compute; exact I.
  - refine (bool_decide_unpack _ _); vm_compute; exact I.
  - refine (bool_decide_unpack _ _); vm_compute; exact I.
  - refine (bool_decide_unpack _ _); vm_compute; exact I.
  - vm_compute. reflexivity.
  - lia.
  - vm_compute. reflexivity.
  - vm_compute. reflexivity.
  - refine (bool_decide_unpack _ _); vm_compute; exact I.
Defined.

(** Where the costs pass [2 ^ 53] the rounding shows.  On the open 3 x 3 grid
    from (0, 2),
    with the goal at (2^60 + 128, 0), far outside the grid, every [f] is
    rounded to a multiple of 256; the search ends with the empty path and has
    closed (0, 0) through (1, 2), (1, 1) and (1, 0), four links from the
    start, although (0, 2), (0, 1), (0, 0) is a path of two edges. *)
Lemma astar_float_rounding_example :
  match a_star_search_float 100 open3 (mkCell 0 2) (mkCell (2 ^ 60 + 128) 0) with
  | Completed (Returned (final, path)) =>
    path = []
    /\ parent final !! (0, 0) = Some (Some (mkCell 1 0))
    /\ parent final !! (1, 0) = Some (Some (mkCell 1 1))
    /\ parent final !! (1, 1) = Some (Some (mkCell 1 2))
    /\ parent final !! (1, 2) = Some (Some (mkCell 0 2))
  | _ => False
  end
  /\ path_between open3 (mkCell 0 2) (mkCell 0 0) [mkCell 0 2; mkCell 0 1; mkCell 0 0].
Proof.
  split.
  - vm_compute. repeat split; reflexivity.
  - refine (bool_decide_unpack _ _); vm_compute; exact I.
Qed.
